(** * sdformat DOM loaders and frame-graph pose resolution

    A shallow embedding of [Link.cc], [Model.cc] and [Root.cc]:
    the loaders ([Link::Load], [Model::Load], [Root::Load]), the by-index and
    by-name accessors, and the pose resolution of [Link::Pose], which walks
    the shared frame graph along the result of a shortest-path search.

    The frame graph is an [ignition::math::graph::DirectedGraph] whose
    vertices carry a [Matrix4d] and whose edges carry an [int] sign.  It is
    shared between a model and its links through a [std::shared_ptr], so the
    graphs live in a store and the DOM objects hold indices into it. *)

From Stdlib Require Import NArith ZArith Lia Ascii.
From stdpp Require Import base list strings.

Open Scope string_scope.
Open Scope N_scope.

(** ** Rigid-transform arithmetic ([ignition::math])

    [Pose3d] and [Matrix4d] are floating-point types; the loaders and the
    graph walk only copy, multiply and invert them, so they are taken through
    an interface. *)

Class IgnMath := {
  Pose3d : Type;
  Matrix4d : Type;
  Pose3d_Zero : Pose3d;                  (* Pose3d::Zero *)
  Matrix4d_Identity : Matrix4d;          (* Matrix4d::Identity *)
  Matrix4d_default : Matrix4d;           (* Matrix4d(), the data of a null vertex *)
  Matrix4d_of_Pose : Pose3d -> Matrix4d; (* Matrix4d(pose) *)
  Matrix4d_Pose : Matrix4d -> Pose3d;    (* m.Pose() *)
  Matrix4d_mul : Matrix4d -> Matrix4d -> Matrix4d;  (* a * b *)
  Matrix4d_Inverse : Matrix4d -> Matrix4d;          (* m.Inverse() *)
  Double : Type;                         (* double, as read from the document *)
  Double_of_text : string -> Double;
  Double_0 : Double;
  Double_1 : Double;
  Inertiald : Type;
  Inertiald_default : Inertiald;         (* mass 1, unit diagonal, zero pose *)
  (* inertial.SetMassMatrix(MassMatrix3d(mass, xxyyzz, xyxzyz)) *)
  Inertiald_SetMassMatrix :
    Inertiald -> Double -> Double * Double * Double -> Double * Double * Double
    -> bool * Inertiald;
  Inertiald_SetPose : Inertiald -> Pose3d -> Inertiald;
}.

(** ** Errors ([sdf/Error.hh]) *)

Inductive ErrorCode :=
  | NONE
  | FILE_READ
  | DUPLICATE_NAME
  | ATTRIBUTE_MISSING
  | ATTRIBUTE_INVALID
  | ATTRIBUTE_DEPRECATED
  | ELEMENT_MISSING
  | ELEMENT_INVALID
  | ELEMENT_DEPRECATED
  | ELEMENT_INCORRECT_TYPE
  | LINK_INERTIA_INVALID
  | STRING_READ
  | UNRESOLVED_NAME
  | FRAME_ATTACHED_TO_INVALID
  | FRAME_ATTACHED_TO_CYCLE
  | POSE_RELATIVE_TO_INVALID
  | POSE_RELATIVE_TO_CYCLE
  | NO_PATH.

Record Error := mkError { Code : ErrorCode; Message : string }.

Definition Errors := list Error.

Definition ErrorCode_eqb (a b : ErrorCode) : bool :=
  match a, b with
  | NONE, NONE | FILE_READ, FILE_READ | DUPLICATE_NAME, DUPLICATE_NAME
  | ATTRIBUTE_MISSING, ATTRIBUTE_MISSING | ATTRIBUTE_INVALID, ATTRIBUTE_INVALID
  | ATTRIBUTE_DEPRECATED, ATTRIBUTE_DEPRECATED
  | ELEMENT_MISSING, ELEMENT_MISSING | ELEMENT_INVALID, ELEMENT_INVALID
  | ELEMENT_DEPRECATED, ELEMENT_DEPRECATED
  | ELEMENT_INCORRECT_TYPE, ELEMENT_INCORRECT_TYPE
  | LINK_INERTIA_INVALID, LINK_INERTIA_INVALID | STRING_READ, STRING_READ
  | UNRESOLVED_NAME, UNRESOLVED_NAME | NO_PATH, NO_PATH
  | FRAME_ATTACHED_TO_INVALID, FRAME_ATTACHED_TO_INVALID
  | FRAME_ATTACHED_TO_CYCLE, FRAME_ATTACHED_TO_CYCLE
  | POSE_RELATIVE_TO_INVALID, POSE_RELATIVE_TO_INVALID
  | POSE_RELATIVE_TO_CYCLE, POSE_RELATIVE_TO_CYCLE => true
  | _, _ => false
  end.

(** [hasCode c errors]: some error of the list has code [c]. *)
Definition hasCode (c : ErrorCode) (errors : Errors) : bool :=
  existsb (fun e => ErrorCode_eqb (Code e) c) errors.

(** ** The element tree ([sdf::Element]) *)

(** Modelled from the spec: [sdf::Element] is the generic attributed tree of
    the parser, of which only the interface is used here (section 6 of the
    specification): [GetName], [Get<T>(key, default)] returning the value and
    whether it was present, [HasElement], [GetElement], [GetNextElement] and
    [GetParent].  A key is looked up among the attributes first and then
    among the child elements, whose text is their value. *)
#[warnings="-register-all"]
Inductive Element := mkElement {
  tag : string;
  attributes : list (string * string);
  text : string;
  children : list Element
}.

(** A non-null [ElementPtr]: the element, its parent, and the siblings that
    follow it under that parent. *)
Record ElementRef := mkRef {
  element : Element;
  parent : option Element;
  following : list Element
}.

(** [ElementPtr] may be null. *)
Definition ElementPtr := option ElementRef.

Definition GetName (e : ElementRef) : string := tag (element e).

Fixpoint assoc (key : string) (l : list (string * string)) : option string :=
  match l with
  | [] => None
  | (k, v) :: l' => if String.eqb k key then Some v else assoc key l'
  end.

Fixpoint firstNamed (name : string) (l : list Element)
  : option (Element * list Element) :=
  match l with
  | [] => None
  | c :: l' => if String.eqb (tag c) name then Some (c, l') else firstNamed name l'
  end.

Definition Element_Get (e : Element) (key default : string) : string * bool :=
  match assoc key (attributes e) with
  | Some v => (v, true)
  | None =>
      match firstNamed key (children e) with
      | Some (c, _) => (text c, true)
      | None => (default, false)
      end
  end.

(** [_sdf->Get<std::string>(key, default)] *)
Definition Get_string (e : ElementRef) (key default : string) : string * bool :=
  Element_Get (element e) key default.

(** [_sdf->Get<bool>(key, default)]: the text ["true"] or ["1"] reads as true. *)
Definition Get_bool (e : ElementRef) (key : string) (default : bool) : bool * bool :=
  match Element_Get (element e) key "" with
  | (v, true) => (String.eqb v "true" || String.eqb v "1", true)
  | (_, false) => (default, false)
  end.

Definition HasElement (e : ElementRef) (name : string) : bool :=
  match firstNamed name (children (element e)) with
  | Some _ => true
  | None => false
  end.

Definition GetElement (e : ElementRef) (name : string) : ElementPtr :=
  match firstNamed name (children (element e)) with
  | Some (c, rest) =>
      Some {| element := c; parent := Some (element e); following := rest |}
  | None => None
  end.

Definition GetNextElement (e : ElementRef) (name : string) : ElementPtr :=
  match firstNamed name (following e) with
  | Some (c, rest) =>
      Some {| element := c; parent := parent e; following := rest |}
  | None => None
  end.

(** The elements visited by the idiom
    [elem = first; while (elem) { ...; elem = elem->GetNextElement(name); }]
    once [first] is not null: [first] and then every following sibling with
    that name, in document order. *)
Fixpoint siblingsNamed (name : string) (par : option Element) (l : list Element)
  : list ElementRef :=
  match l with
  | [] => []
  | c :: l' =>
      if String.eqb (tag c) name
      then {| element := c; parent := par; following := l' |}
             :: siblingsNamed name par l'
      else siblingsNamed name par l'
  end.

Definition elementsFrom (first : ElementPtr) (name : string) : list ElementRef :=
  match first with
  | None => []
  | Some e => e :: siblingsNamed name (parent e) (following e)
  end.

(** ** The frame graph ([ignition::math::graph::DirectedGraph<Matrix4d, int>])

    The graph class and [Dijkstra] belong to ignition-math.  They are written
    out here as the loaders and [Link::Pose] use them: vertices and edges are
    kept in [std::map]s keyed by id, so both lists below are in increasing id
    order (ids are handed out by the two counters and nothing is ever
    removed). *)

Definition VertexId := N.
Definition EdgeId := N.

(** [kNullId = MAX_UI64] *)
Definition MAX_UI64 : N := 18446744073709551615.
Definition kNullId : VertexId := MAX_UI64.

(** A path cost is a [double]: a sum of unit weights, or [MAX_D] (the largest
    double, which absorbs any addition of a weight). *)
Inductive Cost := Finite (n : N) | MAX_D.

Definition Cost_add (c : Cost) (w : N) : Cost :=
  match c with
  | Finite n => Finite (n + w)
  | MAX_D => MAX_D
  end.

(** [a > b] *)
Definition Cost_gt (a b : Cost) : bool :=
  match a, b with
  | Finite x, Finite y => y <? x
  | Finite _, MAX_D => false
  | MAX_D, Finite _ => true
  | MAX_D, MAX_D => false
  end.

Module Graph.
Section Graph.
Context `{IgnMath}.

Record Vertex := mkVertex { Name : string; Data : Matrix4d; Id : VertexId }.

Record DirectedEdge := mkEdge {
  Tail : VertexId;      (* vertices.first *)
  Head : VertexId;      (* vertices.second *)
  EData : Z;            (* the int payload: the sign *)
  Weight : N;           (* 1.0 unless given *)
  EId : EdgeId
}.

Record FrameGraph := mkGraph {
  vertices : list Vertex;
  edges : list DirectedEdge;
  nextVertexId : VertexId;
  nextEdgeId : EdgeId
}.

Definition empty : FrameGraph :=
  {| vertices := []; edges := []; nextVertexId := 0; nextEdgeId := 0 |}.

Definition NullVertex : Vertex :=
  {| Name := "__null__"; Data := Matrix4d_default; Id := kNullId |}.

Definition NullEdge : DirectedEdge :=
  {| Tail := kNullId; Head := kNullId; EData := 0%Z; Weight := 1; EId := kNullId |}.

(** [vertices.find(id)] *)
Definition findVertex (g : FrameGraph) (id : VertexId) : option Vertex :=
  List.find (fun v => Id v =? id) (vertices g).

Definition findEdge (g : FrameGraph) (id : EdgeId) : option DirectedEdge :=
  List.find (fun e => EId e =? id) (edges g).

(** [Vertices(name)]: the vertices with that name, by increasing id. *)
Definition Vertices (g : FrameGraph) (name : string) : list Vertex :=
  List.filter (fun v => String.eqb (Name v) name) (vertices g).

Definition VertexFromId (g : FrameGraph) (id : VertexId) : Vertex :=
  match findVertex g id with
  | Some v => v
  | None => NullVertex
  end.

(** [NextVertexId()]: advance the counter past the ids in use, stopping at
    [MAX_UI64].  At most [length (vertices g)] ids are in use. *)
Fixpoint NextId_loop (used : N -> bool) (fuel : nat) (next : N) : N :=
  match fuel with
  | O => next
  | S fuel' =>
      if used next && (next <? MAX_UI64)
      then NextId_loop used fuel' (next + 1)
      else next
  end.

Definition NextVertexId (g : FrameGraph) : VertexId :=
  NextId_loop (fun i => bool_decide (is_Some (findVertex g i)))
              (S (length (vertices g))) (nextVertexId g).

Definition NextEdgeId (g : FrameGraph) : EdgeId :=
  NextId_loop (fun i => bool_decide (is_Some (findEdge g i)))
              (S (length (edges g))) (nextEdgeId g).

(** What a graph operation writes to [std::cerr]. *)
Inductive Note :=
  | VertexLimit            (* "The limit of vertices has been reached" *)
  | RepeatedVertex (id : VertexId)
  | EdgeLimit              (* "The limit of edges has been reached" *)
  | VertexNotFound (id : VertexId).

(** [AddVertex(name, data)] with a generated id. *)
Definition AddVertex (g : FrameGraph) (name : string) (data : Matrix4d)
  : Vertex * FrameGraph * list Note :=
  let id := NextVertexId g in
  let g1 := {| vertices := vertices g; edges := edges g;
               nextVertexId := id; nextEdgeId := nextEdgeId g |} in
  if id =? kNullId then (NullVertex, g1, [VertexLimit])
  else
    match findVertex g id with
    | Some _ => (NullVertex, g1, [RepeatedVertex id])
    | None =>
        let v := {| Name := name; Data := data; Id := id |} in
        (v, {| vertices := vertices g ++ [v]; edges := edges g;
               nextVertexId := id; nextEdgeId := nextEdgeId g |}, [])
    end.

(** [AddEdge({tail, head}, data)] with the default weight, through
    [LinkEdge]: the edge is refused when an end is not a vertex. *)
Definition AddEdge (g : FrameGraph) (tail head : VertexId) (data : Z)
  : DirectedEdge * FrameGraph * list Note :=
  let id := NextEdgeId g in
  let g1 := {| vertices := vertices g; edges := edges g;
               nextVertexId := nextVertexId g; nextEdgeId := id |} in
  if id =? kNullId then (NullEdge, g1, [EdgeLimit])
  else
    match findVertex g tail, findVertex g head with
    | Some _, Some _ =>
        let e := {| Tail := tail; Head := head; EData := data;
                    Weight := 1; EId := id |} in
        (e, {| vertices := vertices g; edges := edges g ++ [e];
               nextVertexId := nextVertexId g; nextEdgeId := id |}, [])
    | _, _ => (NullEdge, g1, [])
    end.

(** [edge.From(from)]: the head when [from] is the tail, else [kNullId]. *)
Definition From (e : DirectedEdge) (from : VertexId) : VertexId :=
  if negb (from =? Tail e) then kNullId else Head e.

(** [adjList.find(v)->second]: the edges linked to [v] (as tail or head),
    present for every vertex. *)
Definition adjList (g : FrameGraph) (v : VertexId) : option (list DirectedEdge) :=
  match findVertex g v with
  | Some _ =>
      Some (List.filter (fun e => (Tail e =? v) || (Head e =? v)) (edges g))
  | None => None
  end.

(** [EdgeFromVertices(sourceId, destId)] *)
Definition EdgeFromVertices (g : FrameGraph) (sourceId destId : VertexId)
  : DirectedEdge :=
  match adjList g sourceId with
  | None => NullEdge
  | Some adj =>
      match List.find (fun e => From e sourceId =? destId) adj with
      | Some e => e
      | None => NullEdge
      end
  end.

(** [IncidentsFrom(vertex)]: the edges that leave the vertex. *)
Definition IncidentsFrom (g : FrameGraph) (v : VertexId) : list DirectedEdge :=
  match adjList g v with
  | None => []
  | Some adj => List.filter (fun e => negb (From e v =? kNullId)) adj
  end.

(** *** [ignition::math::graph::Dijkstra] *)

Definition CostInfo : Type := Cost * VertexId.

(** [std::map<VertexId, CostInfo>], by increasing key. *)
Definition DistMap := list (VertexId * CostInfo).

Definition dist_find (d : DistMap) (k : VertexId) : option CostInfo :=
  match List.find (fun p => fst p =? k) d with
  | Some p => Some (snd p)
  | None => None
  end.

(** [dist[k]] read: a missing key reads as the value-initialised pair. *)
Definition dist_at (d : DistMap) (k : VertexId) : CostInfo :=
  match dist_find d k with
  | Some ci => ci
  | None => (Finite 0, 0)
  end.

(** [dist[k] = ci] *)
Fixpoint dist_set (d : DistMap) (k : VertexId) (ci : CostInfo) : DistMap :=
  match d with
  | [] => [(k, ci)]
  | (k', ci') :: d' =>
      if k' =? k then (k, ci) :: d'
      else if k <? k' then (k, ci) :: (k', ci') :: d'
      else (k', ci') :: dist_set d' k ci
  end.

(** The priority queue orders [CostInfo] pairs with [std::greater]: the top
    is the least pair.  It is kept sorted. *)
Definition CostInfo_le (a b : CostInfo) : bool :=
  match fst a, fst b with
  | Finite x, Finite y => (x <? y) || ((x =? y) && (snd a <=? snd b))
  | Finite _, MAX_D => true
  | MAX_D, Finite _ => false
  | MAX_D, MAX_D => snd a <=? snd b
  end.

Fixpoint pq_push (x : CostInfo) (pq : list CostInfo) : list CostInfo :=
  match pq with
  | [] => [x]
  | y :: pq' => if CostInfo_le x y then x :: pq else y :: pq_push x pq'
  end.

(** The relaxation of the edges that leave [u]. *)
Fixpoint Dijkstra_relax (u : VertexId) (es : list DirectedEdge)
    (dist : DistMap) (pq : list CostInfo) : DistMap * list CostInfo :=
  match es with
  | [] => (dist, pq)
  | edge :: es' =>
      let v := From edge u in
      let weight := Weight edge in
      if Cost_gt (fst (dist_at dist v)) (Cost_add (fst (dist_at dist u)) weight)
      then
        let c := Cost_add (fst (dist_at dist u)) weight in
        Dijkstra_relax u es' (dist_set dist v (c, u)) (pq_push (c, v) pq)
      else Dijkstra_relax u es' dist pq
  end.

(** [while (!pq.empty())]; [None] when the fuel runs out. *)
Fixpoint Dijkstra_loop (fuel : nat) (g : FrameGraph) (to : VertexId)
    (dist : DistMap) (pq : list CostInfo) : option DistMap :=
  match fuel with
  | O => None
  | S fuel' =>
      match pq with
      | [] => Some dist
      | top :: rest =>
          let u := snd top in
          if negb (to =? kNullId) && (to =? u) then Some dist
          else
            let '(dist', pq') :=
              Dijkstra_relax u (IncidentsFrom g u) dist rest in
            Dijkstra_loop fuel' g to dist' pq'
      end
  end.

Definition Dijkstra (fuel : nat) (g : FrameGraph) (from to : VertexId)
  : option (DistMap * list Note) :=
  match findVertex g from with
  | None => Some ([], [VertexNotFound from])
  | Some _ =>
      if negb (to =? kNullId) && bool_decide (findVertex g to = None)
      then Some ([], [VertexNotFound from])
      else
        let dist0 := List.map (fun v => (Id v, (MAX_D, kNullId))) (vertices g) in
        match Dijkstra_loop fuel g to (dist_set dist0 from (Finite 0, from))
                            [(Finite 0, from)] with
        | Some dist => Some (dist, [])
        | None => None
        end
  end.

End Graph.
End Graph.

(** ** Execution: the graph store and the two output streams

    A [std::shared_ptr<FrameGraph>] is an index into the store of graphs, so
    that what a loader adds to the graph is seen through every copy of the
    pointer.  [std::cout] and [std::cerr] are the lists of what was inserted
    into them, oldest first.  A call returns, or is undefined (a null pointer
    or the [begin()] of an empty map is dereferenced), or runs out of fuel. *)

Section Exec.
Context `{IgnMath}.

Definition GraphPtr := nat.

Inductive Chunk :=
  | Str (s : string)
  | Endl                  (* the end of a line *)
  | OutId (id : N)
  | OutInt (z : Z)
  | OutCost (c : Cost)
  | OutGraph (g : Graph.FrameGraph)
  | OutMatrix (m : Matrix4d)
  | OutNote (n : Graph.Note).

Record Env := mkEnv {
  store : list Graph.FrameGraph;
  cout : list Chunk;
  cerr : list Chunk
}.

Inductive outcome (A : Type) :=
  | Returns (a : A) (env : Env)
  | Undefined
  | OutOfFuel.

Definition Exec (A : Type) : Type := Env -> outcome A.

Definition ret {A} (a : A) : Exec A := fun env => Returns A a env.

Definition bind {A B} (m : Exec A) (k : A -> Exec B) : Exec B :=
  fun env =>
    match m env with
    | Returns _ a env' => k a env'
    | Undefined _ => Undefined B
    | OutOfFuel _ => OutOfFuel B
    end.

Definition undefined {A} : Exec A := fun _ => Undefined A.
Definition outOfFuel {A} : Exec A := fun _ => OutOfFuel A.

(** [std::cout << c1 << c2 ...] *)
Definition to_cout (cs : list Chunk) : Exec unit :=
  fun env => Returns unit tt
    {| store := store env; cout := cout env ++ cs; cerr := cerr env |}.

Definition to_cerr (cs : list Chunk) : Exec unit :=
  fun env => Returns unit tt
    {| store := store env; cout := cout env; cerr := cerr env ++ cs |}.

(** [*ptr] *)
Definition deref (p : option GraphPtr) : Exec Graph.FrameGraph :=
  fun env =>
    match p with
    | None => Undefined _
    | Some i =>
        match store env !! i with
        | Some g => Returns _ g env
        | None => Undefined _
        end
    end.

Definition assign (p : GraphPtr) (g : Graph.FrameGraph) : Exec unit :=
  fun env => Returns unit tt
    {| store := <[p := g]> (store env); cout := cout env; cerr := cerr env |}.

(** [new FrameGraph] *)
Definition new_FrameGraph : Exec GraphPtr :=
  fun env => Returns _ (length (store env))
    {| store := store env ++ [Graph.empty]; cout := cout env; cerr := cerr env |}.

End Exec.

Arguments Returns {_ A} a env.
Arguments Undefined {_ A}.
Arguments OutOfFuel {_ A}.

Declare Scope exec_scope.
Delimit Scope exec_scope with exec.
Notation "x <- c1 ;; c2" := (bind c1 (fun x => c2))
  (at level 100, c1 at next level, right associativity) : exec_scope.
Notation "c1 ;;; c2" := (bind c1 (fun _ => c2))
  (at level 100, right associativity) : exec_scope.
Open Scope exec_scope.

Section GraphCalls.
Context `{IgnMath}.

Definition notes (ns : list Graph.Note) : Exec unit :=
  to_cerr (List.map OutNote ns).

(** [graph->AddVertex(name, data)] *)
Definition AddVertex (p : GraphPtr) (name : string) (data : Matrix4d)
  : Exec Graph.Vertex :=
  g <- deref (Some p) ;;
  let '(v, g', ns) := Graph.AddVertex g name data in
  assign p g' ;;; notes ns ;;; ret v.

(** [graph->AddEdge({tail, head}, data)] *)
Definition AddEdge (p : GraphPtr) (tail head : VertexId) (data : Z)
  : Exec Graph.DirectedEdge :=
  g <- deref (Some p) ;;
  let '(e, g', ns) := Graph.AddEdge g tail head data in
  assign p g' ;;; notes ns ;;; ret e.

(** [m.begin()->first] of a [VertexRef_M] *)
Definition begin_first (m : list Graph.Vertex) : Exec VertexId :=
  match m with
  | [] => undefined
  | v :: _ => ret (Graph.Id v)
  end.

End GraphCalls.

(** ** Collaborators of [Link.cc]

    [Visual], [Collision] and the helpers of [Utils.hh] ([loadName],
    [loadPose], [loadUniqueRepeated]) are not part of the sources at hand;
    the loaders are written over them.  A helper that fills reference
    arguments takes the old values and returns the new ones. *)

Class LinkCollaborators `{IgnMath} := {
  Visual : Type;
  Visual_default : Visual;
  Visual_Name : Visual -> string;
  Visual_Load : ElementPtr -> option GraphPtr -> Visual -> Exec (Errors * Visual);
  Collision : Type;
  Collision_default : Collision;
  Collision_Name : Collision -> string;
  Collision_Load :
    ElementPtr -> option GraphPtr -> Collision -> Exec (Errors * Collision);
  (* bool loadName(ElementPtr, std::string &name) *)
  loadName : ElementRef -> string -> bool * string;
  (* bool loadPose(ElementPtr, Pose3d &pose, std::string &frame) *)
  loadPose : ElementRef -> Pose3d -> string -> bool * Pose3d * string;
  (* Errors loadUniqueRepeated<Class>(sdf, sdfName, objs, frameGraph) *)
  loadUniqueRepeated :
    forall Class : Type,
      Class ->
      (ElementPtr -> option GraphPtr -> Class -> Exec (Errors * Class)) ->
      (Class -> string) ->
      ElementRef -> string -> list Class -> option GraphPtr ->
      Exec (Errors * list Class)
}.

(** [_sdf->Get<double>(key, default).first] *)
Definition Get_double `{IgnMath} (e : ElementRef) (key : string) (default : Double)
  : Double :=
  match Element_Get (element e) key "" with
  | (v, true) => Double_of_text v
  | (_, false) => default
  end.

(** ** [Link.cc] *)

Module Link.
Section Link.
Context `{LinkCollaborators}.

Record LinkPrivate := mkLink {
  name : string;
  pose : Pose3d;
  poseFrame : string;
  visuals : list Visual;
  collisions : list Collision;
  inertial : Inertiald;
  frameGraph : option GraphPtr;
  sdf : ElementPtr
}.

(** [Link::Link()] *)
Definition Link : LinkPrivate :=
  {| name := ""; pose := Pose3d_Zero; poseFrame := "";
     visuals := []; collisions := []; inertial := Inertiald_default;
     frameGraph := None; sdf := None |}.

Definition set_sdf (this : LinkPrivate) (x : ElementPtr) : LinkPrivate :=
  {| name := name this; pose := pose this; poseFrame := poseFrame this;
     visuals := visuals this; collisions := collisions this;
     inertial := inertial this; frameGraph := frameGraph this; sdf := x |}.

Definition SetName (this : LinkPrivate) (x : string) : LinkPrivate :=
  {| name := x; pose := pose this; poseFrame := poseFrame this;
     visuals := visuals this; collisions := collisions this;
     inertial := inertial this; frameGraph := frameGraph this; sdf := sdf this |}.

Definition SetPose (this : LinkPrivate) (x : Pose3d) : LinkPrivate :=
  {| name := name this; pose := x; poseFrame := poseFrame this;
     visuals := visuals this; collisions := collisions this;
     inertial := inertial this; frameGraph := frameGraph this; sdf := sdf this |}.

Definition SetPoseFrame (this : LinkPrivate) (x : string) : LinkPrivate :=
  {| name := name this; pose := pose this; poseFrame := x;
     visuals := visuals this; collisions := collisions this;
     inertial := inertial this; frameGraph := frameGraph this; sdf := sdf this |}.

Definition set_visuals (this : LinkPrivate) (x : list Visual) : LinkPrivate :=
  {| name := name this; pose := pose this; poseFrame := poseFrame this;
     visuals := x; collisions := collisions this;
     inertial := inertial this; frameGraph := frameGraph this; sdf := sdf this |}.

Definition set_collisions (this : LinkPrivate) (x : list Collision) : LinkPrivate :=
  {| name := name this; pose := pose this; poseFrame := poseFrame this;
     visuals := visuals this; collisions := x;
     inertial := inertial this; frameGraph := frameGraph this; sdf := sdf this |}.

Definition set_inertial (this : LinkPrivate) (x : Inertiald) : LinkPrivate :=
  {| name := name this; pose := pose this; poseFrame := poseFrame this;
     visuals := visuals this; collisions := collisions this;
     inertial := x; frameGraph := frameGraph this; sdf := sdf this |}.

Definition set_frameGraph (this : LinkPrivate) (x : option GraphPtr) : LinkPrivate :=
  {| name := name this; pose := pose this; poseFrame := poseFrame this;
     visuals := visuals this; collisions := collisions this;
     inertial := inertial this; frameGraph := x; sdf := sdf this |}.

Definition Name (this : LinkPrivate) : string := name this.

(** The block [if (_frameGraph) { ... }] of [Link::Load]: a vertex for the
    link, an edge from the parent to the link with [-1] and an edge from the
    link to the parent with [1]. *)
Definition Load_frameGraph (_frameGraph : GraphPtr) (this : LinkPrivate)
  : Exec LinkPrivate :=
  vert <- AddVertex _frameGraph (name this) (Matrix4d_of_Pose (pose this)) ;;
  g <- deref (Some _frameGraph) ;;
  let parentVertices := Graph.Vertices g (poseFrame this) in
  parentId <- begin_first parentVertices ;;
  (* Connect the parent to the child *)
  AddEdge _frameGraph parentId (Graph.Id vert) (-1) ;;;
  (* Connect the child to the parent *)
  AddEdge _frameGraph (Graph.Id vert) parentId 1 ;;;
  ret (set_frameGraph this (Some _frameGraph)).

(** The inertial part of [Link::Load]. *)
Definition Load_inertial (_sdf : ElementRef) (this : LinkPrivate)
  : Errors * LinkPrivate :=
  let xxyyzz := (Double_1, Double_1, Double_1) in
  let xyxzyz := (Double_0, Double_0, Double_0) in
  let inertiaPose := Pose3d_Zero in
  let inertiaFrame := "" in
  let mass := Double_1 in
  let '(mass, xxyyzz, xyxzyz, inertiaPose) :=
    match GetElement _sdf "inertial" with
    | Some inertialElem =>
        let inertiaPose :=
          match GetElement inertialElem "pose" with
          | Some poseElem =>
              let '(_, p, _) := loadPose poseElem inertiaPose inertiaFrame in p
          | None => inertiaPose
          end in
        let mass := Get_double inertialElem "mass" Double_1 in
        match GetElement inertialElem "inertia" with
        | Some inertiaElem =>
            (mass,
             (Get_double inertiaElem "ixx" Double_1,
              Get_double inertiaElem "iyy" Double_1,
              Get_double inertiaElem "izz" Double_1),
             (Get_double inertiaElem "ixy" Double_0,
              Get_double inertiaElem "ixz" Double_0,
              Get_double inertiaElem "iyz" Double_0),
             inertiaPose)
        | None => (mass, xxyyzz, xyxzyz, inertiaPose)
        end
    | None => (mass, xxyyzz, xyxzyz, inertiaPose)
    end in
  let '(valid, inertial1) :=
    Inertiald_SetMassMatrix (inertial this) mass xxyyzz xyxzyz in
  let errors :=
    if valid then []
    else [mkError LINK_INERTIA_INVALID
            ("A link named " +:+ Name this +:+ " has invalid inertia.")] in
  (errors, set_inertial this (Inertiald_SetPose inertial1 inertiaPose)).

(** [Errors Link::Load(ElementPtr _sdf, std::shared_ptr<FrameGraph> _frameGraph)] *)
Definition Load (_sdf : ElementPtr) (_frameGraph : option GraphPtr)
    (this : LinkPrivate) : Exec (Errors * LinkPrivate) :=
  let this := set_sdf this _sdf in
  match _sdf with
  | None => undefined
  | Some e =>
      (* Check that the provided SDF element is a <link> *)
      if negb (String.eqb (GetName e) "link") then
        ret ([mkError ELEMENT_INCORRECT_TYPE
                ("Attempting to load a Link, but the provided SDF element is not a "
                 +:+ "<link>.")], this)
      else
        (* Read the link's name *)
        let '(named, n) := loadName e (name this) in
        let this := SetName this n in
        let errors :=
          if named then []
          else [mkError ATTRIBUTE_MISSING
                  "A link name is required, but the name is not set."] in
        (* Load the pose *)
        let '(_, p, f) := loadPose e (pose this) (poseFrame this) in
        let this := SetPoseFrame (SetPose this p) f in
        let this :=
          match parent e with
          | Some par =>
              if String.eqb (poseFrame this) ""
              then SetPoseFrame this (fst (Element_Get par "name" ""))
              else this
          | None => this
          end in
        this <- match _frameGraph with
                | Some gp => Load_frameGraph gp this
                | None => ret this
                end ;;
        (* Load all the visuals. *)
        vis <- loadUniqueRepeated Visual Visual_default Visual_Load Visual_Name
                 e "visual" (visuals this) _frameGraph ;;
        let this := set_visuals this (snd vis) in
        let errors := (errors ++ fst vis)%list in
        (* Load all the collisions. *)
        coll <- loadUniqueRepeated Collision Collision_default Collision_Load
                  Collision_Name e "collision" (collisions this) _frameGraph ;;
        let this := set_collisions this (snd coll) in
        let errors := (errors ++ fst coll)%list in
        let '(inertiaErrors, this) := Load_inertial e this in
        ret ((errors ++ inertiaErrors)%list, this)
  end.

(** [uint64_t Link::VisualCount() const] *)
Definition VisualCount (this : LinkPrivate) : N :=
  N.of_nat (length (visuals this)).

(** [const Visual *Link::VisualByIndex(const uint64_t _index) const];
    [None] is the null pointer. *)
Definition VisualByIndex (this : LinkPrivate) (_index : N) : option Visual :=
  if _index <? N.of_nat (length (visuals this))
  then visuals this !! N.to_nat _index
  else None.

Definition VisualNameExists (this : LinkPrivate) (_name : string) : bool :=
  existsb (fun v => String.eqb (Visual_Name v) _name) (visuals this).

Definition CollisionCount (this : LinkPrivate) : N :=
  N.of_nat (length (collisions this)).

Definition CollisionByIndex (this : LinkPrivate) (_index : N) : option Collision :=
  if _index <? N.of_nat (length (collisions this))
  then collisions this !! N.to_nat _index
  else None.

Definition CollisionNameExists (this : LinkPrivate) (_name : string) : bool :=
  existsb (fun c => String.eqb (Collision_Name c) _name) (collisions this).

Definition VisualByName (this : LinkPrivate) (_name : string) : option Visual :=
  List.find (fun v => String.eqb (Visual_Name v) _name) (visuals this).

Definition CollisionByName (this : LinkPrivate) (_name : string) : option Collision :=
  List.find (fun c => String.eqb (Collision_Name c) _name) (collisions this).

Definition PoseFrame (this : LinkPrivate) : string := poseFrame this.

Definition Element (this : LinkPrivate) : ElementPtr := sdf this.

(** [const ignition::math::Inertiald &Link::Inertial() const] *)
Definition Inertial (this : LinkPrivate) : Inertiald := inertial this.

(** The loop [while (!done)] of [Link::Pose]: from [key], step to the
    previous vertex of the search result and compose along the edge;
    [pose] is [this->dataPtr->pose]. *)
Fixpoint Pose_walk (fuel : nat) (g : Graph.FrameGraph) (result : Graph.DistMap)
    (srcId : VertexId) (pose : Pose3d) (key : VertexId)
    (finalPose : Matrix4d) : Exec Matrix4d :=
  match fuel with
  | O => outOfFuel
  | S fuel' =>
      match Graph.dist_find result key with
      | None => undefined
      | Some (_, nextVertex) =>
          let edge := Graph.EdgeFromVertices g nextVertex key in
          if negb (Graph.EId edge =? Graph.EId Graph.NullEdge) then
            to_cout [Str "Key["; OutId key; Str "] Edge From[";
                     OutId (Graph.Head edge); Str "] To[";
                     OutId (Graph.Tail edge); Str "] Data[";
                     OutInt (Graph.EData edge); Str "]"; Endl] ;;;
            let inverse := (Graph.EData edge <? 0)%Z in
            let finalPose :=
              if inverse
              then Matrix4d_mul finalPose
                     (Matrix4d_Inverse (Graph.Data (Graph.VertexFromId g key)))
              else Matrix4d_mul finalPose (Graph.Data (Graph.VertexFromId g key)) in
            (* Special case when the next vertex is the source vertex. *)
            if nextVertex =? srcId then
              ret (if inverse
                   then Matrix4d_mul finalPose
                          (Matrix4d_Inverse (Matrix4d_of_Pose pose))
                   else Matrix4d_mul finalPose (Matrix4d_of_Pose pose))
            else Pose_walk fuel' g result srcId pose nextVertex finalPose
          else
            (* This is an error case. *)
            to_cerr [Str "ERRROR!"; Endl] ;;; ret finalPose
      end
  end.

(** [ignition::math::Pose3d Link::Pose(const std::string &_frame) const] *)
Definition Pose (fuel : nat) (this : LinkPrivate) (_frame : string)
  : Exec Pose3d :=
  if String.eqb _frame "" then ret (pose this)
  else
    g <- deref (frameGraph this) ;;
    let srcVertices := Graph.Vertices g (name this) in
    let dstVertices := Graph.Vertices g _frame in
    to_cout [Str "Source["; Str (name this); Str "] Dest["; Str _frame;
             Str "]"; Endl] ;;;
    srcId <- begin_first srcVertices ;;
    to_cout [Str "source id["; OutId srcId; Str "]"; Endl] ;;;
    dstId <- begin_first dstVertices ;;
    to_cout [Str "dest id["; OutId dstId; Str "]"; Endl] ;;;
    to_cout [OutGraph g; Endl] ;;;
    match Graph.Dijkstra fuel g srcId dstId with
    | None => outOfFuel
    | Some (result, ns) =>
        notes ns ;;;
        to_cout (List.concat
          (List.map (fun vv =>
             [Str "DestId["; OutId (fst vv); Str "] Cost[";
              OutCost (fst (snd vv)); Str "] PrevId[";
              OutId (snd (snd vv)); Str "]"; Endl]) result)) ;;;
        finalPose <- Pose_walk fuel g result srcId (pose this) dstId
                       Matrix4d_Identity ;;
        to_cout [Str "FinalPose["; OutMatrix finalPose; Str "]"; Endl] ;;;
        ret (Matrix4d_Pose finalPose)
    end.

End Link.
End Link.

(** ** Collaborators of [Model.cc]

    [Joint] and [poseInFrame] (of [Utils.hh]) are not part of the sources at
    hand. *)

Class ModelCollaborators `{LinkCollaborators} := {
  Joint : Type;
  Joint_default : Joint;
  Joint_Name : Joint -> string;
  Joint_Load : ElementPtr -> option GraphPtr -> Joint -> Exec (Errors * Joint)
}.

Class PoseCollaborator `{IgnMath} := {
  (* Pose3d poseInFrame(const std::string &src, const std::string &dst,
                        FrameGraph &graph) *)
  poseInFrame : string -> string -> Graph.FrameGraph -> Exec Pose3d
}.

(** ** [Model.cc] *)

Module Model.
Section Model.
Context `{ModelCollaborators}.

Record ModelPrivate := mkModel {
  name : string;
  isStatic : bool;
  selfCollide : bool;
  allowAutoDisable : bool;
  enableWind : bool;
  pose : Pose3d;
  poseFrame : string;
  links : list Link.LinkPrivate;
  joints : list Joint;
  frameGraph : option GraphPtr;
  sdf : ElementPtr
}.

(** [Model::Model()] *)
Definition Model : ModelPrivate :=
  {| name := ""; isStatic := false; selfCollide := false;
     allowAutoDisable := true; enableWind := false;
     pose := Pose3d_Zero; poseFrame := ""; links := []; joints := [];
     frameGraph := None; sdf := None |}.

Definition set_frameGraph (this : ModelPrivate) (x : option GraphPtr) :=
  {| name := name this; isStatic := isStatic this; selfCollide := selfCollide this;
     allowAutoDisable := allowAutoDisable this; enableWind := enableWind this;
     pose := pose this; poseFrame := poseFrame this; links := links this;
     joints := joints this; frameGraph := x; sdf := sdf this |}.

Definition set_sdf (this : ModelPrivate) (x : ElementPtr) :=
  {| name := name this; isStatic := isStatic this; selfCollide := selfCollide this;
     allowAutoDisable := allowAutoDisable this; enableWind := enableWind this;
     pose := pose this; poseFrame := poseFrame this; links := links this;
     joints := joints this; frameGraph := frameGraph this; sdf := x |}.

Definition SetName (this : ModelPrivate) (x : string) :=
  {| name := x; isStatic := isStatic this; selfCollide := selfCollide this;
     allowAutoDisable := allowAutoDisable this; enableWind := enableWind this;
     pose := pose this; poseFrame := poseFrame this; links := links this;
     joints := joints this; frameGraph := frameGraph this; sdf := sdf this |}.

Definition SetStatic (this : ModelPrivate) (x : bool) :=
  {| name := name this; isStatic := x; selfCollide := selfCollide this;
     allowAutoDisable := allowAutoDisable this; enableWind := enableWind this;
     pose := pose this; poseFrame := poseFrame this; links := links this;
     joints := joints this; frameGraph := frameGraph this; sdf := sdf this |}.

Definition SetSelfCollide (this : ModelPrivate) (x : bool) :=
  {| name := name this; isStatic := isStatic this; selfCollide := x;
     allowAutoDisable := allowAutoDisable this; enableWind := enableWind this;
     pose := pose this; poseFrame := poseFrame this; links := links this;
     joints := joints this; frameGraph := frameGraph this; sdf := sdf this |}.

Definition SetAllowAutoDisable (this : ModelPrivate) (x : bool) :=
  {| name := name this; isStatic := isStatic this; selfCollide := selfCollide this;
     allowAutoDisable := x; enableWind := enableWind this;
     pose := pose this; poseFrame := poseFrame this; links := links this;
     joints := joints this; frameGraph := frameGraph this; sdf := sdf this |}.

Definition SetEnableWind (this : ModelPrivate) (x : bool) :=
  {| name := name this; isStatic := isStatic this; selfCollide := selfCollide this;
     allowAutoDisable := allowAutoDisable this; enableWind := x;
     pose := pose this; poseFrame := poseFrame this; links := links this;
     joints := joints this; frameGraph := frameGraph this; sdf := sdf this |}.

Definition SetPose (this : ModelPrivate) (x : Pose3d) :=
  {| name := name this; isStatic := isStatic this; selfCollide := selfCollide this;
     allowAutoDisable := allowAutoDisable this; enableWind := enableWind this;
     pose := x; poseFrame := poseFrame this; links := links this;
     joints := joints this; frameGraph := frameGraph this; sdf := sdf this |}.

Definition SetPoseFrame (this : ModelPrivate) (x : string) :=
  {| name := name this; isStatic := isStatic this; selfCollide := selfCollide this;
     allowAutoDisable := allowAutoDisable this; enableWind := enableWind this;
     pose := pose this; poseFrame := x; links := links this;
     joints := joints this; frameGraph := frameGraph this; sdf := sdf this |}.

Definition set_links (this : ModelPrivate) (x : list Link.LinkPrivate) :=
  {| name := name this; isStatic := isStatic this; selfCollide := selfCollide this;
     allowAutoDisable := allowAutoDisable this; enableWind := enableWind this;
     pose := pose this; poseFrame := poseFrame this; links := x;
     joints := joints this; frameGraph := frameGraph this; sdf := sdf this |}.

Definition set_joints (this : ModelPrivate) (x : list Joint) :=
  {| name := name this; isStatic := isStatic this; selfCollide := selfCollide this;
     allowAutoDisable := allowAutoDisable this; enableWind := enableWind this;
     pose := pose this; poseFrame := poseFrame this; links := links this;
     joints := x; frameGraph := frameGraph this; sdf := sdf this |}.

Definition Name (this : ModelPrivate) : string := name this.
Definition PoseFrame (this : ModelPrivate) : string := poseFrame this.
Definition Element (this : ModelPrivate) : ElementPtr := sdf this.

(** [bool Model::Static() const] and the other three flags *)
Definition Static (this : ModelPrivate) : bool := isStatic this.
Definition SelfCollide (this : ModelPrivate) : bool := selfCollide this.
Definition AllowAutoDisable (this : ModelPrivate) : bool := allowAutoDisable this.
Definition EnableWind (this : ModelPrivate) : bool := enableWind this.

(** The loop [while (elem)] over the [<frame>] elements of [Model::Load]:
    a vertex per frame, and the pair of that vertex and its pose frame
    pushed on [edgesToAdd]. *)
Fixpoint Load_frames (gp : GraphPtr) (elems : list ElementRef)
    (edgesToAdd : list (Graph.Vertex * string))
  : Exec (list (Graph.Vertex * string)) :=
  match elems with
  | [] => ret edgesToAdd
  | elem :: elems' =>
      let '(_, poseValue, poseFrame) := loadPose elem Pose3d_Zero "" in
      let frameName := fst (Get_string elem "name" "") in
      vert <- AddVertex gp frameName (Matrix4d_of_Pose poseValue) ;;
      Load_frames gp elems' (edgesToAdd ++ [(vert, poseFrame)])
  end.

(** The loop [for (... &edge : edgesToAdd)] of [Model::Load]: an edge from
    the parent to the frame with [-1] and an edge from the frame to the
    parent with [1]. *)
Fixpoint Load_edges (gp : GraphPtr) (edgesToAdd : list (Graph.Vertex * string))
  : Exec unit :=
  match edgesToAdd with
  | [] => ret tt
  | edge :: rest =>
      g <- deref (Some gp) ;;
      let parentVertices := Graph.Vertices g (snd edge) in
      parentId <- begin_first parentVertices ;;
      AddEdge gp parentId (Graph.Id (fst edge)) (-1) ;;;
      AddEdge gp (Graph.Id (fst edge)) parentId 1 ;;;
      Load_edges gp rest
  end.

(** [Errors Model::Load(ElementPtr _sdf)] *)
Definition Load (_sdf : ElementPtr) (this : ModelPrivate)
  : Exec (Errors * ModelPrivate) :=
  this <- match frameGraph this with
          | Some _ => ret this
          | None => gp <- new_FrameGraph ;; ret (set_frameGraph this (Some gp))
          end ;;
  let this := set_sdf this _sdf in
  match _sdf, frameGraph this with
  | None, _ | _, None => undefined
  | Some e, Some gp =>
      (* Check that the provided SDF element is a <model> *)
      if negb (String.eqb (GetName e) "model") then
        ret ([mkError ELEMENT_INCORRECT_TYPE
                ("Attempting to load a Model, but the provided SDF element is not a "
                 +:+ "<model>.")], this)
      else
        (* Read the model's name *)
        let '(named, n) := loadName e (name this) in
        let this := SetName this n in
        let errors :=
          if named then []
          else [mkError ATTRIBUTE_MISSING
                  "A model name is required, but the name is not set."] in
        let this := SetStatic this (fst (Get_bool e "static" false)) in
        let this := SetSelfCollide this (fst (Get_bool e "self_collide" false)) in
        let this :=
          SetAllowAutoDisable this (fst (Get_bool e "allow_auto_disable" true)) in
        let this := SetEnableWind this (fst (Get_bool e "enable_wind" false)) in
        (* Load the pose. *)
        let '(_, p, _) := loadPose e (pose this) "" in
        let this := SetPose this p in
        AddVertex gp (name this) (Matrix4d_of_Pose (pose this)) ;;;
        (* Load any additional frames *)
        edgesToAdd <- Load_frames gp (elementsFrom (GetElement e "frame") "frame") [] ;;
        (* Load all the links. *)
        ls <- loadUniqueRepeated Link.LinkPrivate Link.Link Link.Load Link.Name
                e "link" (links this) (frameGraph this) ;;
        let this := set_links this (snd ls) in
        let errors := (errors ++ fst ls)%list in
        (* Load all the joints. *)
        js <- loadUniqueRepeated Joint Joint_default Joint_Load Joint_Name
                e "joint" (joints this) (frameGraph this) ;;
        let this := set_joints this (snd js) in
        let errors := (errors ++ fst js)%list in
        Load_edges gp edgesToAdd ;;;
        ret (errors, this)
  end.

(** [Errors Model::Load(ElementPtr _sdf, std::shared_ptr<FrameGraph> _frameGraph)] *)
Definition Load_in (_sdf : ElementPtr) (_frameGraph : option GraphPtr)
    (this : ModelPrivate) : Exec (Errors * ModelPrivate) :=
  Load _sdf (set_frameGraph this _frameGraph).

Definition LinkCount (this : ModelPrivate) : N := N.of_nat (length (links this)).

(** [const Link *Model::LinkByIndex(const uint64_t _index) const] *)
Definition LinkByIndex (this : ModelPrivate) (_index : N)
  : option Link.LinkPrivate :=
  if _index <? N.of_nat (length (links this))
  then links this !! N.to_nat _index
  else None.

Definition LinkNameExists (this : ModelPrivate) (_name : string) : bool :=
  existsb (fun l => String.eqb (Link.Name l) _name) (links this).

Definition JointCount (this : ModelPrivate) : N := N.of_nat (length (joints this)).

Definition JointByIndex (this : ModelPrivate) (_index : N) : option Joint :=
  if _index <? N.of_nat (length (joints this))
  then joints this !! N.to_nat _index
  else None.

Definition JointNameExists (this : ModelPrivate) (_name : string) : bool :=
  existsb (fun j => String.eqb (Joint_Name j) _name) (joints this).

Definition JointByName (this : ModelPrivate) (_name : string) : option Joint :=
  List.find (fun j => String.eqb (Joint_Name j) _name) (joints this).

Definition LinkByName (this : ModelPrivate) (_name : string)
  : option Link.LinkPrivate :=
  List.find (fun l => String.eqb (Link.Name l) _name) (links this).

(** [Pose3d Model::Pose(const std::string &_frame) const] *)
Definition Pose `{!PoseCollaborator} (this : ModelPrivate) (_frame : string)
  : Exec Pose3d :=
  g <- deref (frameGraph this) ;;
  poseInFrame (name this)
              (if String.eqb _frame "" then PoseFrame this else _frame)
              g.

End Model.
End Model.

(** ** Collaborators of [Root.cc]

    [World], [Light], [Actor], the two scoped graphs of [FrameSemantics.hh]
    with their builders and validators, the setters that lend a graph to a
    world or a model, and the version constants of [sdf_config.h] are not
    part of the sources at hand.  A scoped graph is built once on a new graph
    and only read afterwards, so a builder returns the graph it has built. *)

Class RootCollaborators `{ModelCollaborators} := {
  SDF_VERSION : string;
  SDF_PROTOCOL_VERSION : string;
  World : Type;
  World_default : World;
  World_Name : World -> string;
  World_Load : ElementPtr -> World -> Errors * World;
  Light : Type;
  Light_default : Light;
  Light_Load : ElementPtr -> Light -> Errors * Light;
  Actor : Type;
  Actor_default : Actor;
  Actor_Load : ElementPtr -> Actor -> Errors * Actor;
  FrameAttachedToGraph : Type;       (* sdf::ScopedGraph<FrameAttachedToGraph> *)
  FrameAttachedToGraph_new : FrameAttachedToGraph;
  PoseRelativeToGraph : Type;        (* sdf::ScopedGraph<PoseRelativeToGraph> *)
  PoseRelativeToGraph_new : PoseRelativeToGraph;
  buildFrameAttachedToGraph_World :
    FrameAttachedToGraph -> World -> Errors * FrameAttachedToGraph;
  buildFrameAttachedToGraph_Model :
    FrameAttachedToGraph -> Model.ModelPrivate -> Errors * FrameAttachedToGraph;
  validateFrameAttachedToGraph : FrameAttachedToGraph -> Errors;
  buildPoseRelativeToGraph_World :
    PoseRelativeToGraph -> World -> Errors * PoseRelativeToGraph;
  buildPoseRelativeToGraph_Model :
    PoseRelativeToGraph -> Model.ModelPrivate -> Errors * PoseRelativeToGraph;
  validatePoseRelativeToGraph : PoseRelativeToGraph -> Errors;
  World_SetFrameAttachedToGraph : World -> FrameAttachedToGraph -> World;
  World_SetPoseRelativeToGraph : World -> PoseRelativeToGraph -> World;
  Model_SetFrameAttachedToGraph :
    Model.ModelPrivate -> FrameAttachedToGraph -> Model.ModelPrivate;
  Model_SetPoseRelativeToGraph :
    Model.ModelPrivate -> PoseRelativeToGraph -> Model.ModelPrivate
}.

(** The parser ([parser.hh]) is not part of the sources at hand either.
    [readFile] gives the parsed document or none, [readString] fills a
    document that [init] has prepared and says whether it could; both
    append to a list of errors that is empty when they are called.  A
    document is used through its root element only ([_sdf->Root()]). *)

Class ParserCollaborators := {
  (* SDFPtr readFile(const std::string &_filename, Errors &_errors) *)
  readFile : string -> option ElementPtr * Errors;
  (* bool readString(const std::string &_xml, SDFPtr _sdf, Errors &_errors) *)
  readString : string -> bool * ElementPtr * Errors
}.

(** ** [Root.cc] *)

Module Root.
Section Root.
Context `{RootCollaborators}.

Record RootPrivate := mkRoot {
  version : string;
  worlds : list World;
  model : option Model.ModelPrivate;     (* std::unique_ptr<Model> *)
  light : option Light;
  actor : option Actor;
  worldFrameAttachedToGraphs : list FrameAttachedToGraph;
  modelFrameAttachedToGraph : FrameAttachedToGraph;
  worldPoseRelativeToGraphs : list PoseRelativeToGraph;
  modelPoseRelativeToGraph : PoseRelativeToGraph;
  sdf : ElementPtr
}.

(** [Root::Root()] *)
Definition Root : RootPrivate :=
  {| version := ""; worlds := []; model := None; light := None; actor := None;
     worldFrameAttachedToGraphs := [];
     modelFrameAttachedToGraph := FrameAttachedToGraph_new;
     worldPoseRelativeToGraphs := [];
     modelPoseRelativeToGraph := PoseRelativeToGraph_new;
     sdf := None |}.

Definition set_sdf (this : RootPrivate) (x : ElementPtr) :=
  {| version := version this; worlds := worlds this; model := model this;
     light := light this; actor := actor this;
     worldFrameAttachedToGraphs := worldFrameAttachedToGraphs this;
     modelFrameAttachedToGraph := modelFrameAttachedToGraph this;
     worldPoseRelativeToGraphs := worldPoseRelativeToGraphs this;
     modelPoseRelativeToGraph := modelPoseRelativeToGraph this; sdf := x |}.

Definition SetVersion (this : RootPrivate) (x : string) :=
  {| version := x; worlds := worlds this; model := model this;
     light := light this; actor := actor this;
     worldFrameAttachedToGraphs := worldFrameAttachedToGraphs this;
     modelFrameAttachedToGraph := modelFrameAttachedToGraph this;
     worldPoseRelativeToGraphs := worldPoseRelativeToGraphs this;
     modelPoseRelativeToGraph := modelPoseRelativeToGraph this; sdf := sdf this |}.

Definition set_model (this : RootPrivate) (x : option Model.ModelPrivate)
    (fa : FrameAttachedToGraph) (pr : PoseRelativeToGraph) :=
  {| version := version this; worlds := worlds this; model := x;
     light := light this; actor := actor this;
     worldFrameAttachedToGraphs := worldFrameAttachedToGraphs this;
     modelFrameAttachedToGraph := fa;
     worldPoseRelativeToGraphs := worldPoseRelativeToGraphs this;
     modelPoseRelativeToGraph := pr; sdf := sdf this |}.

Definition set_light (this : RootPrivate) (x : option Light) :=
  {| version := version this; worlds := worlds this; model := model this;
     light := x; actor := actor this;
     worldFrameAttachedToGraphs := worldFrameAttachedToGraphs this;
     modelFrameAttachedToGraph := modelFrameAttachedToGraph this;
     worldPoseRelativeToGraphs := worldPoseRelativeToGraphs this;
     modelPoseRelativeToGraph := modelPoseRelativeToGraph this; sdf := sdf this |}.

Definition set_actor (this : RootPrivate) (x : option Actor) :=
  {| version := version this; worlds := worlds this; model := model this;
     light := light this; actor := x;
     worldFrameAttachedToGraphs := worldFrameAttachedToGraphs this;
     modelFrameAttachedToGraph := modelFrameAttachedToGraph this;
     worldPoseRelativeToGraphs := worldPoseRelativeToGraphs this;
     modelPoseRelativeToGraph := modelPoseRelativeToGraph this; sdf := sdf this |}.

(** One turn of the world loop stores the two graphs and the world. *)
Definition push_world (this : RootPrivate) (w : World)
    (fa : FrameAttachedToGraph) (pr : PoseRelativeToGraph) :=
  {| version := version this; worlds := worlds this ++ [w]; model := model this;
     light := light this; actor := actor this;
     worldFrameAttachedToGraphs := worldFrameAttachedToGraphs this ++ [fa];
     modelFrameAttachedToGraph := modelFrameAttachedToGraph this;
     worldPoseRelativeToGraphs := worldPoseRelativeToGraphs this ++ [pr];
     modelPoseRelativeToGraph := modelPoseRelativeToGraph this; sdf := sdf this |}.

Definition Version (this : RootPrivate) : string := version this.

Definition WorldCount (this : RootPrivate) : N := N.of_nat (length (worlds this)).

(** [const World *Root::WorldByIndex(const uint64_t _index) const] *)
Definition WorldByIndex (this : RootPrivate) (_index : N) : option World :=
  if _index <? N.of_nat (length (worlds this))
  then worlds this !! N.to_nat _index
  else None.

Definition WorldNameExists (this : RootPrivate) (_name : string) : bool :=
  existsb (fun w => String.eqb (World_Name w) _name) (worlds this).

Definition Model (this : RootPrivate) : option Model.ModelPrivate := model this.
Definition Light (this : RootPrivate) : option Light := light this.
Definition Actor (this : RootPrivate) : option Actor := actor this.
Definition Element (this : RootPrivate) : ElementPtr := sdf this.

(** [addFrameAttachedToGraph(graphList, domObj, errors)] for a world: the
    graph built and validated for the world, and the errors of both
    passes. *)
Definition addFrameAttachedToGraph (_domObj : World)
  : FrameAttachedToGraph * Errors :=
  let '(buildErrors, frameGraph) :=
    buildFrameAttachedToGraph_World FrameAttachedToGraph_new _domObj in
  let validateErrors := validateFrameAttachedToGraph frameGraph in
  (frameGraph, (buildErrors ++ validateErrors)%list).

Definition addPoseRelativeToGraph (_domObj : World)
  : PoseRelativeToGraph * Errors :=
  let '(buildErrors, poseGraph) :=
    buildPoseRelativeToGraph_World PoseRelativeToGraph_new _domObj in
  let validateErrors := validatePoseRelativeToGraph poseGraph in
  (poseGraph, (buildErrors ++ validateErrors)%list).

(** The first half of the body of the loop over the [<world>] elements of
    [Root::Load]: the world is loaded and given its two graphs. *)
Definition Load_world_graphs (elem : ElementRef)
  : Errors * World * FrameAttachedToGraph * PoseRelativeToGraph :=
  let '(worldErrors, world) := World_Load (Some elem) World_default in
  (* Build the graphs. *)
  let '(frameAttachedToGraph, e1) := addFrameAttachedToGraph world in
  let worldErrors := (worldErrors ++ e1)%list in
  let world := World_SetFrameAttachedToGraph world frameAttachedToGraph in
  let '(poseRelativeToGraph, e2) := addPoseRelativeToGraph world in
  let worldErrors := (worldErrors ++ e2)%list in
  let world := World_SetPoseRelativeToGraph world poseRelativeToGraph in
  (worldErrors, world, frameAttachedToGraph, poseRelativeToGraph).

(** The world made of an element, and the errors of making it. *)
Definition loaded_world (elem : ElementRef) : World :=
  snd (fst (fst (Load_world_graphs elem))).

Definition world_errors (elem : ElementRef) : Errors :=
  fst (fst (fst (Load_world_graphs elem))).

(** The body of the loop over the [<world>] elements of [Root::Load]. *)
Definition Load_world (elem : ElementRef) (errors : Errors) (this : RootPrivate)
  : Errors * RootPrivate :=
  let '(worldErrors, world, frameAttachedToGraph, poseRelativeToGraph) :=
    Load_world_graphs elem in
  let errors :=
    match worldErrors with
    | [] =>
        (* Check that the world's name does not exist. *)
        if WorldNameExists this (World_Name world)
        then (errors ++
              [mkError DUPLICATE_NAME
                 ("World with name[" +:+ World_Name world +:+ "] already exists."
                  +:+ " Each world must have a unique name. Skipping this world.")])%list
        else errors
    | _ =>
        (errors ++ worldErrors ++
         [mkError ELEMENT_INVALID "Failed to load a world."])%list
    end in
  (errors, push_world this world frameAttachedToGraph poseRelativeToGraph).

(** [while (elem) { ...; elem = elem->GetNextElement("world"); }] *)
Fixpoint Load_worlds (elems : list ElementRef) (errors : Errors)
    (this : RootPrivate) : Errors * RootPrivate :=
  match elems with
  | [] => (errors, this)
  | elem :: elems' =>
      let '(errors, this) := Load_world elem errors this in
      Load_worlds elems' errors this
  end.

(** The block [if (this->dataPtr->sdf->HasElement("model"))] of [Root::Load]. *)
Definition Load_model (modelElem : ElementPtr) (errors : Errors)
    (this : RootPrivate) : Exec (Errors * RootPrivate) :=
  r <- Model.Load modelElem Model.Model ;;
  let '(loadErrors, m) := r in
  let errors := (errors ++ loadErrors)%list in
  let '(buildErrors, fa) :=
    buildFrameAttachedToGraph_Model FrameAttachedToGraph_new m in
  let errors := (errors ++ buildErrors)%list in
  let errors := (errors ++ validateFrameAttachedToGraph fa)%list in
  let m := Model_SetFrameAttachedToGraph m fa in
  let '(buildPoseErrors, pr) :=
    buildPoseRelativeToGraph_Model PoseRelativeToGraph_new m in
  let errors := (errors ++ buildPoseErrors)%list in
  let errors := (errors ++ validatePoseRelativeToGraph pr)%list in
  let m := Model_SetPoseRelativeToGraph m pr in
  ret (errors, set_model this (Some m) fa pr).

(** [Errors Root::Load(SDFPtr _sdf)], on the root element [_sdf->Root()]. *)
Definition Load (_sdf : ElementPtr) (this : RootPrivate)
  : Exec (Errors * RootPrivate) :=
  let this := set_sdf this _sdf in
  match _sdf with
  | None => undefined
  | Some root =>
      (* Get the SDF version. *)
      let versionPair := Get_string root "version" SDF_VERSION in
      (* Check that the version exists. *)
      if negb (snd versionPair) then
        ret ([mkError ATTRIBUTE_MISSING "SDF does not have a version."], this)
      (* Check that the version is the latest *)
      else if negb (String.eqb SDF_PROTOCOL_VERSION (fst versionPair)) then
        ret ([mkError ATTRIBUTE_INVALID
                ("SDF version attribute[" +:+ fst versionPair +:+ "] should match "
                 +:+ "the latest version[" +:+ SDF_PROTOCOL_VERSION
                 +:+ "] when loading DOM " +:+ "objects.")], this)
      else
        let this := SetVersion this (fst versionPair) in
        (* Read all the worlds *)
        let '(errors, this) :=
          if HasElement root "world"
          then Load_worlds (elementsFrom (GetElement root "world") "world") [] this
          else ([], this) in
        r <- (if HasElement root "model"
              then Load_model (GetElement root "model") errors this
              else ret (errors, this)) ;;
        let '(errors, this) := r in
        (* Load all the lights. *)
        let '(errors, this) :=
          if HasElement root "light" then
            let '(buildErrors, l) := Light_Load (GetElement root "light") Light_default in
            ((errors ++ buildErrors)%list, set_light this (Some l))
          else (errors, this) in
        let '(errors, this) :=
          if HasElement root "actor" then
            let '(buildErrors, a) := Actor_Load (GetElement root "actor") Actor_default in
            ((errors ++ buildErrors)%list, set_actor this (Some a))
          else (errors, this) in
        ret (errors, this)
  end.

(** [Errors Root::Load(const std::string &_filename)] *)
Definition Load_filename `{!ParserCollaborators} (_filename : string)
    (this : RootPrivate) : Exec (Errors * RootPrivate) :=
  (* Read an SDF file, and store the result in sdfParsed. *)
  let '(sdfParsed, errors) := readFile _filename in
  match sdfParsed with
  | None =>
      (* Return if we were not able to read the file. *)
      ret ((errors ++ [mkError FILE_READ ("Unable to read file:" +:+ _filename)])%list,
           this)
  | Some root =>
      r <- Load root this ;;
      let '(loadErrors, this) := r in
      ret ((errors ++ loadErrors)%list, this)
  end.

(** [Errors Root::LoadSdfString(const std::string &_sdf)] *)
Definition LoadSdfString `{!ParserCollaborators} (_sdf : string)
    (this : RootPrivate) : Exec (Errors * RootPrivate) :=
  (* Read an SDF string, and store the result in sdfParsed. *)
  let '(read, sdfParsed, errors) := readString _sdf in
  if negb read then
    ret ((errors ++ [mkError STRING_READ ("Unable to SDF string: " +:+ _sdf)])%list,
         this)
  else
    r <- Load sdfParsed this ;;
    let '(loadErrors, this) := r in
    ret ((errors ++ loadErrors)%list, this).

End Root.
End Root.

(** ** Notions used by the statements *)

Section Notions.
Context `{LinkCollaborators}.

(** A graph as [AddVertex] and [AddEdge] leave it: the counters are
    [uint64_t] values, the ids in use are not [kNullId] and do not exceed the
    counters, and the ends of every edge are vertices. *)
Definition graph_ok (g : Graph.FrameGraph) : bool :=
  (Graph.nextVertexId g <=? MAX_UI64)
  && (Graph.nextEdgeId g <=? MAX_UI64)
  && forallb (fun v => (Graph.Id v <=? Graph.nextVertexId g)
                       && (Graph.Id v <? kNullId)) (Graph.vertices g)
  && forallb (fun e => (Graph.EId e <=? Graph.nextEdgeId g)
                       && (Graph.EId e <? kNullId)
                       && bool_decide (is_Some (Graph.findVertex g (Graph.Tail e)))
                       && bool_decide (is_Some (Graph.findVertex g (Graph.Head e))))
             (Graph.edges g).

(** An edge without its id: tail, head and sign. *)
Definition arrow (e : Graph.DirectedEdge) : VertexId * VertexId * Z :=
  (Graph.Tail e, Graph.Head e, Graph.EData e).

(** The two arrows of a parent/child relation. *)
Definition relation_arrows (parentId childId : VertexId)
  : list (VertexId * VertexId * Z) :=
  [(parentId, childId, (-1)%Z); (childId, parentId, 1%Z)].


(** A run's output appended to earlier output, the store as it was. *)
Definition after {A} (env : Env) (o : outcome A) : outcome A :=
  match o with
  | Returns a e =>
      Returns a {| store := store env; cout := cout env ++ cout e;
                   cerr := cerr env ++ cerr e |}
  | Undefined => Undefined
  | OutOfFuel => OutOfFuel
  end.

(** What a run returned, and the environment it left. *)
Definition returned {A} (o : outcome A) : option A :=
  match o with
  | Returns a _ => Some a
  | _ => None
  end.

Definition left_env {A} (o : outcome A) : option Env :=
  match o with
  | Returns _ e => Some e
  | _ => None
  end.

(** A computation that leaves the store alone and whose value and output
    do not depend on the environment. *)
Definition writes_only {A} (m : Exec A) : Prop :=
  exists o : outcome A, forall env, m env = after env o.

(** The vertices that the directed edges reach from [src]. *)
Inductive reachable (g : Graph.FrameGraph) (src : VertexId) : VertexId -> Prop :=
  | reach_here : reachable g src src
  | reach_edge (e : Graph.DirectedEdge) :
      reachable g src (Graph.Tail e) ->
      In e (Graph.edges g) ->
      reachable g src (Graph.Head e).

(** A search state is sound when every vertex with a cost or in the queue
    can be reached, and complete when every vertex has an entry. *)
Definition dist_sound (g : Graph.FrameGraph) (src : VertexId)
    (dist : Graph.DistMap) : Prop :=
  forall k c p, Graph.dist_find dist k = Some (c, p) ->
                (c = MAX_D /\ p = kNullId) \/ reachable g src k.

Definition pq_sound (g : Graph.FrameGraph) (src : VertexId)
    (pq : list Graph.CostInfo) : Prop :=
  forall x, In x pq -> reachable g src (snd x).

Definition dist_complete (g : Graph.FrameGraph) (dist : Graph.DistMap) : Prop :=
  forall v, In v (Graph.vertices g) -> is_Some (Graph.dist_find dist (Graph.Id v)).

(** No edge of the graph leaves the vertex [id] to enter it again. *)
Definition no_self_edge (g : Graph.FrameGraph) (id : VertexId) : bool :=
  forallb (fun e => negb ((Graph.Tail e =? id) && (Graph.Head e =? id)))
          (Graph.edges g).

(** The first line that [Link::Pose] writes to [std::cout]. *)
Definition Pose_header (name frame : string) : list Chunk :=
  [Str "Source["; Str name; Str "] Dest["; Str frame; Str "]"; Endl].

(** What [Link::Pose] does once it holds the graph: the first line on
    [std::cout], and the rest. *)
Definition Pose_rest (fuel : nat) (name : string) (pose : Pose3d)
    (_frame : string) (g : Graph.FrameGraph) : Exec Pose3d :=
  srcId <- begin_first (Graph.Vertices g name) ;;
  to_cout [Str "source id["; OutId srcId; Str "]"; Endl] ;;;
  dstId <- begin_first (Graph.Vertices g _frame) ;;
  to_cout [Str "dest id["; OutId dstId; Str "]"; Endl] ;;;
  to_cout [OutGraph g; Endl] ;;;
  match Graph.Dijkstra fuel g srcId dstId with
  | None => outOfFuel
  | Some (result, ns) =>
      notes ns ;;;
      to_cout (List.concat
        (List.map (fun vv =>
           [Str "DestId["; OutId (fst vv); Str "] Cost[";
            OutCost (fst (snd vv)); Str "] PrevId[";
            OutId (snd (snd vv)); Str "]"; Endl]) result)) ;;;
      finalPose <- Link.Pose_walk fuel g result srcId pose dstId Matrix4d_Identity ;;
      to_cout [Str "FinalPose["; OutMatrix finalPose; Str "]"; Endl] ;;;
      ret (Matrix4d_Pose finalPose)
  end.

Definition Pose_on (fuel : nat) (name : string) (pose : Pose3d)
    (_frame : string) (g : Graph.FrameGraph) : Exec Pose3d :=
  to_cout (Pose_header name _frame) ;;; Pose_rest fuel name pose _frame g.

(** [Link::Pose] for a link with that name and stored pose over the graph
    [g], started with both streams empty. *)
Definition Pose_run (fuel : nat) (name : string) (pose : Pose3d)
    (g : Graph.FrameGraph) (frame : string) : outcome Pose3d :=
  Link.Pose fuel
    {| Link.name := name; Link.pose := pose; Link.poseFrame := "";
       Link.visuals := []; Link.collisions := [];
       Link.inertial := Inertiald_default; Link.frameGraph := Some 0%nat;
       Link.sdf := None |}
    frame {| store := [g]; cout := []; cerr := [] |}.

End Notions.

Section ModelNotions.
Context `{ModelCollaborators}.

Definition Link_tag_message : string :=
  "Attempting to load a Link, but the provided SDF element is not a "
  +:+ "<link>.".

Definition Model_tag_message : string :=
  "Attempting to load a Model, but the provided SDF element is not a "
  +:+ "<model>.".

(** The model with the graph that [Model::Load] makes sure of before
    anything else. *)
Definition with_graph (m : Model.ModelPrivate) (env : Env)
  : Model.ModelPrivate * Env :=
  match Model.frameGraph m with
  | Some _ => (m, env)
  | None =>
      (Model.set_frameGraph m (Some (length (store env))),
       {| store := store env ++ [Graph.empty]; cout := cout env;
          cerr := cerr env |})
  end.

End ModelNotions.

(** ** Notions about the graph as the loaders build it *)

Section GraphNotions.
Context `{IgnMath}.

(** Every edge has the weight that [AddEdge] gives by default. *)
Definition unit_weights (g : Graph.FrameGraph) : bool :=
  forallb (fun e => Graph.Weight e =? 1) (Graph.edges g).

(** [g'] is [g] with vertices and edges added at the end of the maps, well
    formed if [g] is. *)
Definition extends (g g' : Graph.FrameGraph) : Prop :=
  (exists vs, Graph.vertices g' = (Graph.vertices g ++ vs)%list)
  /\ (exists es, Graph.edges g' = (Graph.edges g ++ es)%list)
  /\ (graph_ok g = true -> graph_ok g' = true)
  /\ (unit_weights g = true -> unit_weights g' = true).

(** A computation that, when it returns, has written nothing to
    [std::cout], has left every graph but the one at [gp] as it was, and
    has only extended that one. *)
Definition grows {A} (gp : GraphPtr) (m : Exec A) : Prop :=
  forall env a env',
    m env = Returns a env' ->
    cout env' = cout env
    /\ length (store env') = length (store env)
    /\ (forall p, p <> gp -> store env' !! p = store env !! p)
    /\ (forall g, store env !! gp = Some g ->
                  exists g', store env' !! gp = Some g' /\ extends g g').

End GraphNotions.

(** ** Notions about the search of [Link::Pose] *)

Section SearchNotions.
Context `{IgnMath}.

(** The search has found a path to [k]. *)
Definition finite_at (dist : Graph.DistMap) (k : VertexId) : bool :=
  match Graph.dist_find dist k with
  | Some (Finite _, _) => true
  | _ => false
  end.

(** The number of vertices to which a path has been found. *)
Definition settled (g : Graph.FrameGraph) (dist : Graph.DistMap) : nat :=
  length (List.filter (fun v => finite_at dist (Graph.Id v)) (Graph.vertices g)).

(** How far the cost of [k] can still fall. *)
Definition slack (g : Graph.FrameGraph) (dist : Graph.DistMap) (k : VertexId) : nat :=
  match Graph.dist_find dist k with
  | Some (Finite c, _) => N.to_nat c
  | _ => length (Graph.vertices g)
  end.

(** What bounds the turns that the loop of the search has left: the
    length of the queue and the slack of every vertex. *)
Definition potential (g : Graph.FrameGraph) (dist : Graph.DistMap)
    (pq : list Graph.CostInfo) : nat :=
  (length pq
   + list_sum (List.map (fun v => slack g dist (Graph.Id v)) (Graph.vertices g)))%nat.

(** Fuel with which the search and the walk of [Link::Pose] end. *)
Definition enough_fuel (g : Graph.FrameGraph) : nat :=
  (length (Graph.vertices g) * length (Graph.vertices g) + 2)%nat.

(** One turn of the loop over the edges that leave [u]. *)
Definition relax_one (u : VertexId) (s : Graph.DistMap * list Graph.CostInfo)
    (edge : Graph.DirectedEdge) : Graph.DistMap * list Graph.CostInfo :=
  let v := Graph.From edge u in
  let weight := Graph.Weight edge in
  if Cost_gt (fst (Graph.dist_at (fst s) v))
             (Cost_add (fst (Graph.dist_at (fst s) u)) weight)
  then (Graph.dist_set (fst s) v (Cost_add (fst (Graph.dist_at (fst s) u)) weight, u),
        Graph.pq_push (Cost_add (fst (Graph.dist_at (fst s) u)) weight, v) (snd s))
  else s.

(** What holds of the costs and the queue in every turn of the search from
    [src]: every vertex has an entry; the source has cost [0] and itself
    as previous vertex; any other vertex with a cost has a previous vertex
    of lower cost and an edge from it; a vertex without a cost has no
    previous vertex; the queue holds vertices with a cost; and a cost is
    less than the number of vertices that have one. *)
Definition search_inv (g : Graph.FrameGraph) (src : VertexId)
    (dist : Graph.DistMap) (pq : list Graph.CostInfo) : Prop :=
  (forall v, In v (Graph.vertices g) -> is_Some (Graph.dist_find dist (Graph.Id v)))
  /\ Graph.dist_find dist src = Some (Finite 0, src)
  /\ (forall k c p,
         Graph.dist_find dist k = Some (Finite c, p) -> k <> src ->
         1 <= c
         /\ (exists c' p', Graph.dist_find dist p = Some (Finite c', p') /\ c' + 1 <= c)
         /\ (exists e, In e (Graph.edges g) /\ Graph.Tail e = p /\ Graph.Head e = k))
  /\ (forall k p, Graph.dist_find dist k = Some (MAX_D, p) -> p = kNullId)
  /\ (forall x, In x pq -> finite_at dist (snd x) = true)
  /\ (forall k c p,
         Graph.dist_find dist k = Some (Finite c, p) ->
         (N.to_nat c < settled g dist)%nat).

(** Every vertex with a cost is in the queue, or all the edges that leave
    it lead to vertices with a cost. *)
Definition queued_or_closed (g : Graph.FrameGraph) (dist : Graph.DistMap)
    (pq : list Graph.CostInfo) : Prop :=
  forall u, finite_at dist u = true ->
            (exists x, In x pq /\ snd x = u)
            \/ (forall e, In e (Graph.edges g) -> Graph.Tail e = u ->
                          finite_at dist (Graph.Head e) = true).

(** [m * x] or [m * x.Inverse()], as the walk of [Link::Pose] composes. *)
Definition compose (inverse : bool) (m x : Matrix4d) : Matrix4d :=
  if inverse then Matrix4d_mul m (Matrix4d_Inverse x) else Matrix4d_mul m x.

End SearchNotions.

(** ** An instance for examples

    Translations with integer components stand for the rigid transforms
    (matrix product is the sum of the translations, inversion the opposite),
    and the loaders that are not part of the sources at hand are written from
    the specification. *)

Module Example.

Inductive Matrix := Translate (x y z : Z) | AllZero.

Definition Matrix_mul (a b : Matrix) : Matrix :=
  match a, b with
  | Translate x y z, Translate x' y' z' =>
      Translate (x + x') (y + y') (z + z')
  | _, _ => AllZero
  end.

Definition Matrix_Inverse (a : Matrix) : Matrix :=
  match a with
  | Translate x y z => Translate (- x) (- y) (- z)
  | AllZero => AllZero
  end.

Definition Matrix_Pose (a : Matrix) : Z * Z * Z :=
  match a with
  | Translate x y z => (x, y, z)
  | AllZero => (0, 0, 0)
  end%Z.

(** The inertia check of [ignition::math] is not part of this instance:
    the documents of the examples have no [<inertial>], and the default
    mass matrix is valid. *)
Definition Math : IgnMath :=
  {| Pose3d := Z * Z * Z;
     Matrix4d := Matrix;
     Pose3d_Zero := (0, 0, 0)%Z;
     Matrix4d_Identity := Translate 0 0 0;
     Matrix4d_default := AllZero;
     Matrix4d_of_Pose := fun p => Translate (fst (fst p)) (snd (fst p)) (snd p);
     Matrix4d_Pose := Matrix_Pose;
     Matrix4d_mul := Matrix_mul;
     Matrix4d_Inverse := Matrix_Inverse;
     Double := string;
     Double_of_text := fun s => s;
     Double_0 := "0";
     Double_1 := "1";
     Inertiald := unit;
     Inertiald_default := tt;
     Inertiald_SetMassMatrix := fun i _ _ _ => (true, i);
     Inertiald_SetPose := fun i _ => i |}.

#[local] Existing Instance Math.

(** Decimal integers separated by spaces. *)
Fixpoint digits (s : string) (acc : Z) : option Z :=
  match s with
  | EmptyString => Some acc
  | String c s' =>
      let n := Z.of_nat (Ascii.nat_of_ascii c) in
      if (48 <=? n)%Z && (n <=? 57)%Z then digits s' (10 * acc + (n - 48))%Z
      else None
  end.

Definition parse_Z (s : string) : option Z :=
  match s with
  | EmptyString => None
  | String "-"%char s' => match s' with
                     | EmptyString => None
                     | _ => option_map Z.opp (digits s' 0%Z)
                     end
  | _ => digits s 0%Z
  end.

Fixpoint words (s : string) (cur : string) : list string :=
  match s with
  | EmptyString => match cur with EmptyString => [] | _ => [cur] end
  | String " "%char s' =>
      match cur with
      | EmptyString => words s' EmptyString
      | _ => cur :: words s' EmptyString
      end
  | String c s' => words s' (cur +:+ String c EmptyString)
  end.

Definition parse_pose (s : string) : option (Z * Z * Z) :=
  match List.map parse_Z (words s EmptyString) with
  | Some x :: Some y :: Some z :: _ => Some (x, y, z)
  | _ => None
  end.

(** Modelled from the spec: [loadName] of [Utils.hh]; the name is the
    [name] attribute, required of every frame. *)
Definition spec_loadName (e : ElementRef) (old : string) : bool * string :=
  let '(v, present) := Get_string e "name" "" in (present, v).

(** Modelled from the spec: [loadPose] of [Utils.hh]; the local pose is the
    text of the [<pose>] child and its reference frame the optional
    [relative_to] attribute of that child; without a pose the outputs keep
    their values. *)
Definition spec_loadPose (e : ElementRef) (oldPose : Z * Z * Z) (oldFrame : string)
  : bool * (Z * Z * Z) * string :=
  let poseElem :=
    if String.eqb (GetName e) "pose" then Some e else GetElement e "pose" in
  match poseElem with
  | None => (false, oldPose, oldFrame)
  | Some pe =>
      match parse_pose (text (element pe)) with
      | Some p => (true, p, fst (Get_string pe "relative_to" ""))
      | None => (false, oldPose, oldFrame)
      end
  end.

(** Modelled from the spec: the loaders of [Visual], [Collision] and
    [Joint], which are not part of the sources at hand, reduced to what
    every loader does: a wrong tag is fatal ([ElementIncorrectType]), a
    missing name is reported ([AttributeMissing]). *)
Definition spec_Load (expected : string) (_sdf : ElementPtr)
    (_frameGraph : option GraphPtr) (this : string) : Exec (Errors * string) :=
  match _sdf with
  | None => undefined
  | Some e =>
      if negb (String.eqb (GetName e) expected) then
        ret ([mkError ELEMENT_INCORRECT_TYPE
                ("The provided SDF element is not a <" +:+ expected +:+ ">.")],
             this)
      else
        let '(named, n) := spec_loadName e this in
        ret (if named then []
             else [mkError ATTRIBUTE_MISSING "A name is required."], n)
  end.

(** Modelled from the spec: [loadUniqueRepeated] of [Utils.hh], the pattern
    "load each, detect duplicate names among siblings, append name-based
    lookup tables", in which a later sibling with a name already seen is
    reported ([DuplicateName]) and skipped, and the errors of a child are
    appended to the list. *)
Fixpoint spec_loadUniqueRepeated_loop (Class : Type) (default : Class)
    (Load : ElementPtr -> option GraphPtr -> Class -> Exec (Errors * Class))
    (Name : Class -> string) (elems : list ElementRef) (names : list string)
    (errors : Errors) (objs : list Class) (fg : option GraphPtr)
  : Exec (Errors * list Class) :=
  match elems with
  | [] => ret (errors, objs)
  | elem :: rest =>
      r <- Load (Some elem) fg default ;;
      match fst r with
      | [] =>
          let name := Name (snd r) in
          if existsb (String.eqb name) names then
            spec_loadUniqueRepeated_loop Class default Load Name rest names
              (errors ++ [mkError DUPLICATE_NAME
                 (name +:+ " already exists. Each element must have a unique name.")])%list
              objs fg
          else
            spec_loadUniqueRepeated_loop Class default Load Name rest
              (name :: names) errors (objs ++ [snd r]) fg
      | loadErrors =>
          spec_loadUniqueRepeated_loop Class default Load Name rest names
            (errors ++ loadErrors)%list objs fg
      end
  end.

Definition spec_loadUniqueRepeated (Class : Type) (default : Class)
    (Load : ElementPtr -> option GraphPtr -> Class -> Exec (Errors * Class))
    (Name : Class -> string) (_sdf : ElementRef) (_sdfName : string)
    (objs : list Class) (fg : option GraphPtr) : Exec (Errors * list Class) :=
  spec_loadUniqueRepeated_loop Class default Load Name
    (elementsFrom (GetElement _sdf _sdfName) _sdfName) [] [] objs fg.

Definition ForLink : LinkCollaborators :=
  {| Visual := string; Visual_default := ""; Visual_Name := fun v => v;
     Visual_Load := spec_Load "visual";
     Collision := string; Collision_default := ""; Collision_Name := fun c => c;
     Collision_Load := spec_Load "collision";
     loadName := spec_loadName;
     loadPose := spec_loadPose;
     loadUniqueRepeated := spec_loadUniqueRepeated |}.

#[local] Existing Instance ForLink.

Definition ForModel : ModelCollaborators :=
  {| Joint := string; Joint_default := ""; Joint_Name := fun j => j;
     Joint_Load := spec_Load "joint" |}.

#[local] Existing Instance ForModel.

(** Modelled from the spec: a scope's graph as the list of its edges, from
    a frame to the frame it names.  Validation reports a name that is
    neither a frame of the scope nor the scope itself, and a frame that is
    reached again by following the edges from it (a cycle). *)
Definition Edges := list (string * string).

Fixpoint comes_back (edges : Edges) (fuel : nat) (start cur : string) : bool :=
  match fuel with
  | O => false
  | S fuel' =>
      match assoc cur edges with
      | None => false
      | Some next =>
          String.eqb next start || comes_back edges fuel' start next
      end
  end.

Definition spec_validate (cycle : ErrorCode) (scope : string) (edges : Edges)
  : Errors :=
  (List.map (fun e => mkError UNRESOLVED_NAME
               ("The frame [" +:+ snd e +:+ "] named by [" +:+ fst e
                +:+ "] does not exist."))
     (List.filter (fun e => negb (String.eqb (snd e) scope)
                            && negb (existsb (fun f => String.eqb (fst f) (snd e)) edges))
                  edges)
   ++
   List.map (fun e => mkError cycle ("The frame [" +:+ fst e +:+ "] is in a cycle."))
     (List.filter (fun e => comes_back edges (length edges) (fst e) (fst e)) edges))%list.

(** The frames of a scope: every [<frame>] child with its [attached_to]
    attribute and the [relative_to] attribute of its pose; an absent name
    means the scope itself. *)
Definition frames_of (scope : string) (e : Element) : Edges * Edges :=
  let frames := List.filter (fun c => String.eqb (tag c) "frame") (children e) in
  let target (t : string) := if String.eqb t "" then scope else t in
  (List.map (fun c => (fst (Element_Get c "name" ""),
                       target (fst (Element_Get c "attached_to" "")))) frames,
   List.map (fun c => (fst (Element_Get c "name" ""),
                       target (match firstNamed "pose" (children c) with
                               | Some (pe, _) => fst (Element_Get pe "relative_to" "")
                               | None => ""
                               end))) frames).

(** Modelled from the spec: a world, reduced to its name and its frames. *)
Record SpecWorld := {
  world_name : string;
  world_frames : Edges * Edges;
  world_attached_to : Edges;     (* the graphs lent by the root *)
  world_relative_to : Edges
}.

Definition spec_World_Load (_sdf : ElementPtr) (this : SpecWorld)
  : Errors * SpecWorld :=
  match _sdf with
  | None => ([], this)
  | Some e =>
      if negb (String.eqb (GetName e) "world") then
        ([mkError ELEMENT_INCORRECT_TYPE
            "The provided SDF element is not a <world>."], this)
      else
        let '(named, n) := spec_loadName e (world_name this) in
        (if named then []
         else [mkError ATTRIBUTE_MISSING "A world name is required."],
         {| world_name := n; world_frames := frames_of n (element e);
            world_attached_to := world_attached_to this;
            world_relative_to := world_relative_to this |})
  end.

(** Modelled from the spec: lights and actors, reduced to their names. *)
Definition spec_Load_plain (expected : string) (_sdf : ElementPtr) (this : string)
  : Errors * string :=
  match _sdf with
  | None => ([], this)
  | Some e =>
      if negb (String.eqb (GetName e) expected) then
        ([mkError ELEMENT_INCORRECT_TYPE
            ("The provided SDF element is not a <" +:+ expected +:+ ">.")], this)
      else
        let '(named, n) := spec_loadName e this in
        (if named then [] else [mkError ATTRIBUTE_MISSING "A name is required."], n)
  end.

Definition model_frames (m : Model.ModelPrivate) : Edges * Edges :=
  match Model.sdf m with
  | Some e => frames_of (Model.name m) (element e)
  | None => ([], [])
  end.

Definition ForRoot : RootCollaborators :=
  {| SDF_VERSION := "1.7";
     SDF_PROTOCOL_VERSION := "1.7";
     World := SpecWorld;
     World_default := {| world_name := ""; world_frames := ([], []);
                         world_attached_to := []; world_relative_to := [] |};
     World_Name := world_name;
     World_Load := spec_World_Load;
     Light := string; Light_default := ""; Light_Load := spec_Load_plain "light";
     Actor := string; Actor_default := ""; Actor_Load := spec_Load_plain "actor";
     FrameAttachedToGraph := string * Edges;
     FrameAttachedToGraph_new := ("", []);
     PoseRelativeToGraph := string * Edges;
     PoseRelativeToGraph_new := ("", []);
     buildFrameAttachedToGraph_World :=
       fun _ w => ([], (world_name w, fst (world_frames w)));
     buildFrameAttachedToGraph_Model :=
       fun _ m => ([], (Model.name m, fst (model_frames m)));
     validateFrameAttachedToGraph :=
       fun g => spec_validate FRAME_ATTACHED_TO_CYCLE (fst g) (snd g);
     buildPoseRelativeToGraph_World :=
       fun _ w => ([], (world_name w, snd (world_frames w)));
     buildPoseRelativeToGraph_Model :=
       fun _ m => ([], (Model.name m, snd (model_frames m)));
     validatePoseRelativeToGraph :=
       fun g => spec_validate POSE_RELATIVE_TO_CYCLE (fst g) (snd g);
     World_SetFrameAttachedToGraph :=
       fun w g => {| world_name := world_name w; world_frames := world_frames w;
                     world_attached_to := snd g;
                     world_relative_to := world_relative_to w |};
     World_SetPoseRelativeToGraph :=
       fun w g => {| world_name := world_name w; world_frames := world_frames w;
                     world_attached_to := world_attached_to w;
                     world_relative_to := snd g |};
     Model_SetFrameAttachedToGraph := fun m _ => m;
     Model_SetPoseRelativeToGraph := fun m _ => m |}.

#[local] Existing Instance ForRoot.

(** *** Documents *)

Definition elem (t : string) (a : list (string * string)) (tx : string)
    (c : list Element) : Element :=
  {| tag := t; attributes := a; text := tx; children := c |}.

Definition top (e : Element) : ElementPtr :=
  Some {| element := e; parent := None; following := [] |}.

Definition env0 : Env := {| store := []; cout := []; cerr := [] |}.

(** A model at [5 0 0] with a link [a] at [3 0 0] and two frames that are
    placed relative to each other only. *)
Definition model_doc : Element :=
  elem "model" [("name", "m")] "" [
    elem "pose" [] "5 0 0" [];
    elem "frame" [("name", "f")] ""
      [elem "pose" [("relative_to", "f2")] "1 0 0" []];
    elem "frame" [("name", "f2")] ""
      [elem "pose" [("relative_to", "f")] "0 1 0" []];
    elem "link" [("name", "a")] "" [elem "pose" [] "3 0 0" []]
  ].

(** The link [a] of [model_doc] after [Model::Load], and the store it
    lives in. *)
Definition link_a : Link.LinkPrivate :=
  {| Link.name := "a"; Link.pose := (3, 0, 0)%Z; Link.poseFrame := "m";
     Link.visuals := []; Link.collisions := []; Link.inertial := tt;
     Link.frameGraph := Some 0%nat;
     Link.sdf := GetElement {| element := model_doc; parent := None;
                               following := [] |} "link" |}.

Definition graph_m : Graph.FrameGraph :=
  {| Graph.vertices :=
       [Graph.mkVertex "m" (Translate 5 0 0) 0;
        Graph.mkVertex "f" (Translate 1 0 0) 1;
        Graph.mkVertex "f2" (Translate 0 1 0) 2;
        Graph.mkVertex "a" (Translate 3 0 0) 3];
     Graph.edges :=
       [Graph.mkEdge 0 3 (-1) 1 0; Graph.mkEdge 3 0 1 1 1;
        Graph.mkEdge 2 1 (-1) 1 2; Graph.mkEdge 1 2 1 1 3;
        Graph.mkEdge 1 2 (-1) 1 4; Graph.mkEdge 2 1 1 1 5];
     Graph.nextVertexId := 3;
     Graph.nextEdgeId := 5 |}.

Definition env_m : Env := {| store := [graph_m]; cout := []; cerr := [] |}.

(** A graph with the vertex of a model only, and a link to register. *)
Definition graph_0 : Graph.FrameGraph :=
  {| Graph.vertices := [Graph.mkVertex "m" (Translate 5 0 0) 0];
     Graph.edges := []; Graph.nextVertexId := 0; Graph.nextEdgeId := 0 |}.

Definition link_b : Link.LinkPrivate :=
  {| Link.name := "b"; Link.pose := (1, 1, 1)%Z; Link.poseFrame := "m";
     Link.visuals := []; Link.collisions := []; Link.inertial := tt;
     Link.frameGraph := None; Link.sdf := None |}.

(** The vertices of [m] and [a], and the [edgesToAdd] of [model_doc]. *)
Definition vertex_m : Graph.Vertex := Graph.mkVertex "m" (Translate 5 0 0) 0.

Definition vertex_a : Graph.Vertex := Graph.mkVertex "a" (Translate 3 0 0) 3.



(** A [<joint>] and a [<link>] element, each for the wrong loader. *)
Definition joint_ref : ElementRef :=
  {| element := elem "joint" [("name", "j")] "" []; parent := None;
     following := [] |}.

Definition link_ref : ElementRef :=
  {| element := elem "link" [("name", "a")] "" []; parent := None;
     following := [] |}.

(** A document of another version. *)
Definition old_doc : Element :=
  elem "sdf" [("version", "1.6")] ""
    [elem "world" [("name", "w")] "" []; model_doc].

(** Three worlds: the second and the third share the name of the first; the
    second has two frames placed relative to each other. *)
Definition worlds_doc : Element :=
  elem "sdf" [("version", "1.7")] "" [
    elem "world" [("name", "w")] "" [];
    elem "world" [("name", "w")] "" [
      elem "frame" [("name", "x")] "" [elem "pose" [("relative_to", "y")] "1 0 0" []];
      elem "frame" [("name", "y")] "" [elem "pose" [("relative_to", "x")] "1 0 0" []]
    ];
    elem "world" [("name", "w")] "" [];
    elem "world" [("name", "v")] "" []
  ].

(** Two worlds with one name, the second with a cycle of frames. *)
Definition cycle_doc : Element :=
  elem "sdf" [("version", "1.7")] "" [
    elem "world" [("name", "w")] "" [];
    elem "world" [("name", "w")] "" [
      elem "frame" [("name", "x")] "" [elem "pose" [("relative_to", "y")] "1 0 0" []];
      elem "frame" [("name", "y")] "" [elem "pose" [("relative_to", "x")] "1 0 0" []]
    ]
  ].

(** The [<world>] elements of [worlds_doc], as the loop meets them. *)
Definition world_refs : list ElementRef :=
  elementsFrom (GetElement {| element := worlds_doc; parent := None;
                              following := [] |} "world") "world".

Definition world_ref (n : nat) : ElementRef :=
  nth n world_refs {| element := elem "" [] "" []; parent := None; following := [] |}.

(** *** More documents, and what a run has returned *)

Definition ref (e : Element) : ElementRef :=
  {| element := e; parent := None; following := [] |}.

Definition value_of {A} (default : A) (o : outcome A) : A :=
  match o with
  | Returns a _ => a
  | _ => default
  end.

Definition env_after {A} (o : outcome A) : Env :=
  match o with
  | Returns _ e => e
  | _ => env0
  end.

(** A document without a version. *)
Definition unversioned_doc : Element :=
  elem "sdf" [] "" [elem "world" [("name", "w")] "" []].

(** Two worlds of different names. *)
Definition distinct_doc : Element :=
  elem "sdf" [("version", "1.7")] "" [
    elem "world" [("name", "w")] "" [];
    elem "world" [("name", "v")] "" []
  ].


(** Modelled from the spec: a parser that knows one file and one string. *)
Definition ForParser : ParserCollaborators :=
  {| readFile := fun name =>
       if String.eqb name "worlds.sdf" then (Some (top worlds_doc), [])
       else (None, []);
     readString := fun xml =>
       if String.eqb xml "<sdf version='1.7'/>"
       then (true, top (elem "sdf" [("version", "1.7")] "" []), [])
       else (false, None, []) |}.

(** The [<link>] of [model_doc] as [Model::Load] meets it, a link without
    a name, and a link placed relative to a frame that no graph has. *)
Definition link_elem : ElementRef :=
  {| element := elem "link" [("name", "a")] "" [elem "pose" [] "3 0 0" []];
     parent := Some model_doc; following := [] |}.

Definition nameless_link : ElementRef :=
  {| element := elem "link" [] "" []; parent := None; following := [] |}.

Definition stray_link : ElementRef :=
  {| element := elem "link" [("name", "s")] ""
                  [elem "pose" [("relative_to", "nowhere")] "1 0 0" []];
     parent := Some model_doc; following := [] |}.

Definition env_g0 : Env := {| store := [graph_0]; cout := []; cerr := [] |}.

(** The [<frame>] elements of [model_doc], as the loop meets them. *)
Definition frame_refs : list ElementRef :=
  elementsFrom (GetElement (ref model_doc) "frame") "frame".

(** A model at the origin, placed relative to [w], with a frame [f] at
    [1 0 0] in the model and a link [a] at [3 0 0] in [f]: the link is at
    [4 0 0] in the frame of the model. *)
Definition placed_doc : Element :=
  elem "model" [("name", "m")] "" [
    elem "pose" [("relative_to", "w")] "0 0 0" [];
    elem "frame" [("name", "f")] ""
      [elem "pose" [("relative_to", "m")] "1 0 0" []];
    elem "link" [("name", "a")] "" [elem "pose" [("relative_to", "f")] "3 0 0" []]
  ].

(** The link [a] of [placed_doc] after [Model::Load], and the store it
    lives in. *)
Definition link_p : Link.LinkPrivate :=
  {| Link.name := "a"; Link.pose := (3, 0, 0)%Z; Link.poseFrame := "f";
     Link.visuals := []; Link.collisions := []; Link.inertial := tt;
     Link.frameGraph := Some 0%nat;
     Link.sdf := GetElement (ref placed_doc) "link" |}.

Definition graph_p : Graph.FrameGraph :=
  {| Graph.vertices :=
       [Graph.mkVertex "m" (Translate 0 0 0) 0;
        Graph.mkVertex "f" (Translate 1 0 0) 1;
        Graph.mkVertex "a" (Translate 3 0 0) 2];
     Graph.edges :=
       [Graph.mkEdge 1 2 (-1) 1 0; Graph.mkEdge 2 1 1 1 1;
        Graph.mkEdge 0 1 (-1) 1 2; Graph.mkEdge 1 0 1 1 3];
     Graph.nextVertexId := 2;
     Graph.nextEdgeId := 3 |}.

Definition env_p : Env := {| store := [graph_p]; cout := []; cerr := [] |}.

End Example.

(** * Properties *)

Open Scope list_scope.

(** ** A wrong tag is fatal *)

Section FatalTag.
Context `{ModelCollaborators}.

Lemma eqb_false_of_ne (a b : string) : a <> b -> String.eqb a b = false.
Proof. intros Hne. apply String.eqb_neq. exact Hne. Qed.

(** [Link::Load] on an element that is not a [<link>]: one error, the
    element stored, the stream and the graphs as they were. *)
Lemma Link_Load_wrong_tag (e : ElementRef) (fg : option GraphPtr)
    (l : Link.LinkPrivate) (env : Env) :
  GetName e <> "link" ->
  Link.Load (Some e) fg l env
  = Returns ([mkError ELEMENT_INCORRECT_TYPE Link_tag_message],
             Link.set_sdf l (Some e)) env.
Proof.
  intros Htag. unfold Link.Load.
  rewrite (eqb_false_of_ne _ _ Htag). reflexivity.
Qed.

(** [Model::Load] on an element that is not a [<model>]. *)
Lemma Model_Load_wrong_tag (e : ElementRef) (m : Model.ModelPrivate) (env : Env) :
  GetName e <> "model" ->
  Model.Load (Some e) m env
  = Returns ([mkError ELEMENT_INCORRECT_TYPE Model_tag_message],
             Model.set_sdf (fst (with_graph m env)) (Some e))
            (snd (with_graph m env)).
Proof.
  intros Htag. unfold Model.Load, with_graph, bind.
  destruct (Model.frameGraph m) as [gp|] eqn:Hfg; cbn.
  - rewrite Hfg. rewrite (eqb_false_of_ne _ _ Htag). reflexivity.
  - rewrite (eqb_false_of_ne _ _ Htag). reflexivity.
Qed.

(** The overload of [Model::Load] that is given the graph. *)
Lemma Model_Load_in_wrong_tag (e : ElementRef) (fg : option GraphPtr)
    (m : Model.ModelPrivate) (env : Env) :
  GetName e <> "model" ->
  Model.Load_in (Some e) fg m env
  = Returns ([mkError ELEMENT_INCORRECT_TYPE Model_tag_message],
             Model.set_sdf (fst (with_graph (Model.set_frameGraph m fg) env))
                           (Some e))
            (snd (with_graph (Model.set_frameGraph m fg) env)).
Proof. intros Htag. unfold Model.Load_in. apply Model_Load_wrong_tag. exact Htag. Qed.

(** C7: a loader given an element with another tag returns at once with
    exactly one error, [ELEMENT_INCORRECT_TYPE], and loads nothing of the
    subtree: the link is as before but for the stored element, and so are
    the streams and the graphs; the model keeps its name, flags, pose,
    links and joints, no vertex or edge is added to a graph, and nothing is
    written. *)
Theorem Load_wrong_tag_single_error
    (eL eM : ElementRef) (fg : option GraphPtr)
    (l : Link.LinkPrivate) (m : Model.ModelPrivate) (env : Env) :
  GetName eL <> "link" ->
  GetName eM <> "model" ->
  (exists msg,
      Link.Load (Some eL) fg l env
      = Returns ([mkError ELEMENT_INCORRECT_TYPE msg], Link.set_sdf l (Some eL)) env)
  /\
  (exists msg m' env',
      Model.Load (Some eM) m env
      = Returns ([mkError ELEMENT_INCORRECT_TYPE msg], m') env'
      /\ Model.name m' = Model.name m
      /\ Model.pose m' = Model.pose m
      /\ Model.links m' = Model.links m
      /\ Model.joints m' = Model.joints m
      /\ (Model.isStatic m', Model.selfCollide m', Model.allowAutoDisable m',
          Model.enableWind m')
         = (Model.isStatic m, Model.selfCollide m, Model.allowAutoDisable m,
            Model.enableWind m)
      /\ cout env' = cout env /\ cerr env' = cerr env
      /\ (forall p g, store env !! p = Some g -> store env' !! p = Some g)
      /\ (forall p g, store env' !! p = Some g ->
                      store env !! p = Some g \/ g = Graph.empty))
  /\
  (forall _frameGraph : option GraphPtr,
      exists msg m' env',
        Model.Load_in (Some eM) _frameGraph m env
        = Returns ([mkError ELEMENT_INCORRECT_TYPE msg], m') env'
        /\ Model.name m' = Model.name m
        /\ Model.links m' = Model.links m
        /\ Model.joints m' = Model.joints m
        /\ cout env' = cout env /\ cerr env' = cerr env
        /\ (forall p g, store env !! p = Some g -> store env' !! p = Some g)).
Proof.
  intros HL HM. split; [|split].
  - exists Link_tag_message. apply Link_Load_wrong_tag; assumption.
  - exists Model_tag_message.
    exists (Model.set_sdf (fst (with_graph m env)) (Some eM)).
    exists (snd (with_graph m env)).
    split; [apply Model_Load_wrong_tag; assumption|].
    unfold with_graph.
    destruct (Model.frameGraph m) as [gp|]; cbn;
      repeat split; try reflexivity; try (intros p g Hp; auto).
    + apply lookup_app_l_Some. exact Hp.
    + destruct (decide (p < length (store env))%nat) as [Hlt|Hge].
      * left. rewrite lookup_app_l in Hp by exact Hlt. exact Hp.
      * right. rewrite lookup_app_r in Hp by lia.
        destruct (p - length (store env))%nat; cbn in Hp; [|discriminate].
        congruence.
  - intros given. eexists _, _, _.
    split; [apply Model_Load_in_wrong_tag; assumption|].
    unfold with_graph. destruct given as [gp|]; cbn;
      repeat split; try reflexivity; try (intros p g Hp; auto).
    apply lookup_app_l_Some. exact Hp.
Qed.

End FatalTag.

(** ** What a failed load leaves behind *)

Section FailedLoad.
Context `{ModelCollaborators}.

(** C10 (as amended): when [Link::Load] or [Model::Load] fails on the tag,
    [Element()] returns the rejected element and the name, pose, pose
    frame, children and flags are as they were; the link keeps its graph
    pointer too, but the model does not always: [Model::Load] gives a model
    without a graph a new empty one before it looks at the tag, and the
    overload that is given a graph stores it first. *)
Theorem failed_Load_keeps_all_but_element_and_graph
    (eL eM : ElementRef) (fg : option GraphPtr)
    (l : Link.LinkPrivate) (m : Model.ModelPrivate) (env : Env) :
  GetName eL <> "link" ->
  GetName eM <> "model" ->
  (exists errors l',
      Link.Load (Some eL) fg l env = Returns (errors, l') env
      /\ Link.Element l' = Some eL
      /\ Link.name l' = Link.name l
      /\ Link.pose l' = Link.pose l
      /\ Link.poseFrame l' = Link.poseFrame l
      /\ Link.visuals l' = Link.visuals l
      /\ Link.collisions l' = Link.collisions l
      /\ Link.inertial l' = Link.inertial l
      /\ Link.frameGraph l' = Link.frameGraph l)
  /\
  (exists errors m' env',
      Model.Load (Some eM) m env = Returns (errors, m') env'
      /\ Model.Element m' = Some eM
      /\ Model.name m' = Model.name m
      /\ Model.isStatic m' = Model.isStatic m
      /\ Model.selfCollide m' = Model.selfCollide m
      /\ Model.allowAutoDisable m' = Model.allowAutoDisable m
      /\ Model.enableWind m' = Model.enableWind m
      /\ Model.pose m' = Model.pose m
      /\ Model.poseFrame m' = Model.poseFrame m
      /\ Model.links m' = Model.links m
      /\ Model.joints m' = Model.joints m
      /\ match Model.frameGraph m with
         | Some gp => Model.frameGraph m' = Some gp /\ store env' = store env
         | None =>
             exists gp, Model.frameGraph m' = Some gp
                        /\ store env !! gp = None
                        /\ store env' !! gp = Some Graph.empty
         end)
  /\
  (forall gp : GraphPtr,
      exists errors m',
        Model.Load_in (Some eM) (Some gp) m env = Returns (errors, m') env
        /\ Model.Element m' = Some eM
        /\ Model.frameGraph m' = Some gp
        /\ Model.name m' = Model.name m
        /\ Model.pose m' = Model.pose m
        /\ Model.poseFrame m' = Model.poseFrame m
        /\ Model.links m' = Model.links m
        /\ Model.joints m' = Model.joints m).
Proof.
  intros HL HM. split; [|split].
  - eexists _, _. split; [apply Link_Load_wrong_tag; assumption|].
    cbn. repeat split; reflexivity.
  - eexists _, _, _. split; [apply Model_Load_wrong_tag; assumption|].
    unfold with_graph.
    destruct (Model.frameGraph m) as [gp|] eqn:Hfg; cbn;
      repeat split; try reflexivity; try assumption.
    exists (length (store env)). repeat split.
    + apply lookup_ge_None. lia.
    + rewrite lookup_app_r by lia. rewrite Nat.sub_diag. reflexivity.
  - intros gp. eexists _, _.
    split; [apply (Model_Load_in_wrong_tag eM (Some gp) m env HM)|].
    cbn. repeat split; reflexivity.
Qed.

End FailedLoad.

(** ** The version check of [Root::Load] *)

Section Version.
Context `{RootCollaborators}.

Lemma Root_Load_version_mismatch (root : ElementRef) (v : string)
    (r : Root.RootPrivate) (env : Env) :
  Get_string root "version" SDF_VERSION = (v, true) ->
  v <> SDF_PROTOCOL_VERSION ->
  exists msg,
    Root.Load (Some root) r env
    = Returns ([mkError ATTRIBUTE_INVALID msg], Root.set_sdf r (Some root)) env.
Proof.
  intros Hget Hne. unfold Root.Load. rewrite Hget. cbn [fst snd negb].
  assert (String.eqb SDF_PROTOCOL_VERSION v = false) as ->.
  { apply String.eqb_neq. congruence. }
  cbn. eexists. reflexivity.
Qed.

(** C4: a document whose [version] attribute is present and is not the
    protocol version makes [Root::Load] return exactly one error,
    [ATTRIBUTE_INVALID], at once: the root has no world, model, light or
    actor, and nothing was loaded into a graph or written. *)
Theorem Load_version_mismatch_single_error
    (root : ElementRef) (v : string) (env : Env) :
  Get_string root "version" SDF_VERSION = (v, true) ->
  v <> SDF_PROTOCOL_VERSION ->
  exists msg r',
    Root.Load (Some root) Root.Root env
    = Returns ([mkError ATTRIBUTE_INVALID msg], r') env
    /\ Root.WorldCount r' = 0
    /\ (forall i, Root.WorldByIndex r' i = None)
    /\ Root.Model r' = None
    /\ Root.Light r' = None
    /\ Root.Actor r' = None
    /\ Root.Version r' = "".
Proof.
  intros Hget Hne.
  destruct (Root_Load_version_mismatch root v Root.Root env Hget Hne) as [msg Hrun].
  exists msg, (Root.set_sdf Root.Root (Some root)).
  split; [exact Hrun|].
  repeat split; try reflexivity.
  intros i. unfold Root.WorldByIndex. cbn.
  destruct (i <? N.of_nat 0); reflexivity.
Qed.

End Version.

(** ** The accessors by index *)

Section ByIndex.
Context `{RootCollaborators}.

Lemma lookup_is_nth_error {A} (vec : list A) (n : nat) :
  vec !! n = nth_error vec n.
Proof.
  revert n. induction vec as [|x vec IH]; intros [|n]; cbn; auto.
Qed.

(** [vec[i]] guarded by [i < vec.size()]. *)
Lemma guarded_index {A} (vec : list A) (i : N) :
  (N.of_nat (length vec) <= i ->
   (if i <? N.of_nat (length vec) then vec !! N.to_nat i else None) = None)
  /\ (i < N.of_nat (length vec) ->
      exists x, (if i <? N.of_nat (length vec) then vec !! N.to_nat i else None)
                = Some x
                /\ nth_error vec (N.to_nat i) = Some x).
Proof.
  split; intros Hi.
  - apply N.ltb_ge in Hi. rewrite Hi. reflexivity.
  - pose proof Hi as Hlt. apply N.ltb_lt in Hlt. rewrite Hlt.
    destruct (vec !! N.to_nat i) as [x|] eqn:Hx.
    + exists x. split; [reflexivity|].
      rewrite <- Hx. symmetry. apply lookup_is_nth_error.
    + apply lookup_ge_None in Hx. lia.
Qed.

Lemma Load_world_worlds (elem : ElementRef) (errors : Errors)
    (r : Root.RootPrivate) :
  Root.worlds (snd (Root.Load_world elem errors r))
  = Root.worlds r ++ [Root.loaded_world elem].
Proof.
  unfold Root.Load_world, Root.loaded_world.
  destruct (Root.Load_world_graphs elem) as [[[we w] fa] pr]. reflexivity.
Qed.

(** The loop stores the worlds in the order of the elements. *)
Lemma Load_worlds_worlds (elems : list ElementRef) (errors : Errors)
    (r : Root.RootPrivate) :
  Root.worlds (snd (Root.Load_worlds elems errors r))
  = Root.worlds r ++ List.map Root.loaded_world elems.
Proof.
  revert errors r. induction elems as [|elem elems IH]; intros errors r; cbn.
  - rewrite app_nil_r. reflexivity.
  - pose proof (Load_world_worlds elem errors r) as Hw.
    destruct (Root.Load_world elem errors r) as [errors' r'].
    rewrite IH. cbn in Hw. rewrite Hw, <- app_assoc. reflexivity.
Qed.

(** C9: every accessor by index is total and checks its bound: at or past
    the count it returns the null pointer, below the count it returns the
    element at that position of the vector, and the worlds are in the
    vector in the order in which [Root::Load] loaded them. *)
Theorem ByIndex_bounds_checked
    (m : Model.ModelPrivate) (l : Link.LinkPrivate) (r : Root.RootPrivate)
    (i : N) :
  ((Model.LinkCount m <= i -> Model.LinkByIndex m i = None)
   /\ (i < Model.LinkCount m ->
       exists x, Model.LinkByIndex m i = Some x
                 /\ nth_error (Model.links m) (N.to_nat i) = Some x))
  /\ ((Model.JointCount m <= i -> Model.JointByIndex m i = None)
      /\ (i < Model.JointCount m ->
          exists x, Model.JointByIndex m i = Some x
                    /\ nth_error (Model.joints m) (N.to_nat i) = Some x))
  /\ ((Link.VisualCount l <= i -> Link.VisualByIndex l i = None)
      /\ (i < Link.VisualCount l ->
          exists x, Link.VisualByIndex l i = Some x
                    /\ nth_error (Link.visuals l) (N.to_nat i) = Some x))
  /\ ((Link.CollisionCount l <= i -> Link.CollisionByIndex l i = None)
      /\ (i < Link.CollisionCount l ->
          exists x, Link.CollisionByIndex l i = Some x
                    /\ nth_error (Link.collisions l) (N.to_nat i) = Some x))
  /\ ((Root.WorldCount r <= i -> Root.WorldByIndex r i = None)
      /\ (i < Root.WorldCount r ->
          exists x, Root.WorldByIndex r i = Some x
                    /\ nth_error (Root.worlds r) (N.to_nat i) = Some x))
  /\ (forall (elems : list ElementRef) (elem : ElementRef),
         nth_error elems (N.to_nat i) = Some elem ->
         Root.WorldByIndex (snd (Root.Load_worlds elems [] Root.Root)) i
         = Some (Root.loaded_world elem)).
Proof.
  repeat apply conj; try apply guarded_index.
  intros elems elem Hnth.
  unfold Root.WorldByIndex. rewrite Load_worlds_worlds. cbn [Root.worlds Root.Root app].
  rewrite length_map.
  assert (N.to_nat i < length elems)%nat as Hlen.
  { apply nth_error_Some. congruence. }
  assert ((i <? N.of_nat (length elems)) = true) as ->.
  { apply N.ltb_lt. lia. }
  rewrite list_lookup_fmap.
  rewrite <- lookup_is_nth_error in Hnth. rewrite Hnth. reflexivity.
Qed.

End ByIndex.

(** ** Worlds that share a name *)

Section DuplicateWorlds.
Context `{RootCollaborators}.

Lemma hasCode_app (c : ErrorCode) (a b : Errors) :
  hasCode c (a ++ b) = hasCode c a || hasCode c b.
Proof. unfold hasCode. apply existsb_app. Qed.

Lemma Load_worlds_app (pre post : list ElementRef) (errors : Errors)
    (r : Root.RootPrivate) :
  Root.Load_worlds (pre ++ post) errors r
  = Root.Load_worlds post (fst (Root.Load_worlds pre errors r))
                          (snd (Root.Load_worlds pre errors r)).
Proof.
  revert errors r. induction pre as [|e pre IH]; intros errors r; cbn.
  - reflexivity.
  - destruct (Root.Load_world e errors r) as [errors' r']. apply IH.
Qed.

(** Errors are only ever appended. *)
Lemma Load_world_errors (elem : ElementRef) (errors : Errors)
    (r : Root.RootPrivate) :
  exists more, fst (Root.Load_world elem errors r) = errors ++ more.
Proof.
  unfold Root.Load_world.
  destruct (Root.Load_world_graphs elem) as [[[we w] fa] pr].
  destruct we as [|e we]; cbn.
  - destruct (Root.WorldNameExists r (World_Name w)).
    + eexists. reflexivity.
    + exists []. rewrite app_nil_r. reflexivity.
  - eexists. reflexivity.
Qed.

Lemma Load_worlds_errors (elems : list ElementRef) (errors : Errors)
    (r : Root.RootPrivate) :
  exists more, fst (Root.Load_worlds elems errors r) = errors ++ more.
Proof.
  revert errors r. induction elems as [|e elems IH]; intros errors r; cbn.
  - exists []. rewrite app_nil_r. reflexivity.
  - destruct (Load_world_errors e errors r) as [m1 Hm1].
    destruct (Root.Load_world e errors r) as [errors' r']. cbn in Hm1. subst errors'.
    destruct (IH (errors ++ m1) r') as [m2 Hm2].
    exists (m1 ++ m2). rewrite Hm2, app_assoc. reflexivity.
Qed.

Lemma WorldNameExists_app (r : Root.RootPrivate) (ws : list World) (n : string) :
  existsb (fun w => String.eqb (World_Name w) n) (Root.worlds r ++ ws)
  = Root.WorldNameExists r n
    || existsb (fun w => String.eqb (World_Name w) n) ws.
Proof. unfold Root.WorldNameExists. apply existsb_app. Qed.

(** C8 (as amended): of two sibling [<world>] elements that make worlds of
    one name, the later one, when it loads without an error of its own or
    of its graphs, is reported with [DUPLICATE_NAME]; the answers of the
    lookup by name are the same after it as before it; and the loop goes
    on: every world element that follows is loaded and stored. *)
Theorem duplicate_world_name_reported
    (pre mid post : list ElementRef) (e1 e2 : ElementRef)
    (errors : Errors) (r : Root.RootPrivate) :
  World_Name (Root.loaded_world e1) = World_Name (Root.loaded_world e2) ->
  Root.world_errors e2 = [] ->
  let before := snd (Root.Load_worlds (pre ++ e1 :: mid) errors r) in
  let after := snd (Root.Load_worlds ((pre ++ e1 :: mid) ++ [e2]) errors r) in
  let result := Root.Load_worlds ((pre ++ e1 :: mid) ++ e2 :: post) errors r in
  hasCode DUPLICATE_NAME (fst result) = true
  /\ (forall n, Root.WorldNameExists after n = Root.WorldNameExists before n)
  /\ (forall e, In e post -> In (Root.loaded_world e) (Root.worlds (snd result))).
Proof.
  intros Hname Hclean before after result.
  assert (Root.WorldNameExists before (World_Name (Root.loaded_world e2)) = true)
    as Hexists.
  { unfold before, Root.WorldNameExists. rewrite Load_worlds_worlds.
    rewrite map_app. cbn [List.map]. rewrite !existsb_app. cbn [existsb].
    rewrite Hname, String.eqb_refl.
    rewrite orb_true_l, !orb_true_r. reflexivity. }
  split; [|split].
  - unfold result. rewrite Load_worlds_app. cbn [Root.Load_worlds].
    fold before.
    set (errs := fst (Root.Load_worlds (pre ++ e1 :: mid) errors r)).
    assert (hasCode DUPLICATE_NAME (fst (Root.Load_world e2 errs before)) = true)
      as Hdup.
    { unfold Root.Load_world.
      unfold Root.world_errors in Hclean. unfold Root.loaded_world in Hexists.
      destruct (Root.Load_world_graphs e2) as [[[we w] fa] pr].
      cbn in Hclean, Hexists. subst we. rewrite Hexists. cbn [fst].
      rewrite hasCode_app. cbn. apply orb_true_r. }
    destruct (Root.Load_world e2 errs before) as [errs' r'] eqn:Hstep.
    cbn [fst] in Hdup.
    destruct (Load_worlds_errors post errs' r') as [more Hmore].
    rewrite Hmore, hasCode_app, Hdup. reflexivity.
  - intros n. unfold after, before, Root.WorldNameExists.
    rewrite !Load_worlds_worlds. rewrite map_app. cbn [List.map].
    rewrite app_assoc. rewrite existsb_app. cbn [existsb].
    rewrite orb_false_r.
    destruct (String.eqb (World_Name (Root.loaded_world e2)) n) eqn:Hn.
    + apply String.eqb_eq in Hn. subst n.
      unfold before, Root.WorldNameExists in Hexists.
      rewrite Load_worlds_worlds in Hexists. rewrite Hexists. reflexivity.
    + apply orb_false_r.
  - intros e He. unfold result. rewrite Load_worlds_worlds.
    apply in_or_app. right. apply in_map.
    apply in_or_app. right. right. exact He.
Qed.

End DuplicateWorlds.

(** ** Facts about the graph *)

Section GraphFacts.
Context `{IgnMath}.

Lemma findVertex_Some (g : Graph.FrameGraph) (id : VertexId) (v : Graph.Vertex) :
  Graph.findVertex g id = Some v -> In v (Graph.vertices g) /\ Graph.Id v = id.
Proof.
  unfold Graph.findVertex. intros Hf. apply find_some in Hf.
  destruct Hf as [Hin Heq]. split; [exact Hin|]. apply N.eqb_eq. exact Heq.
Qed.

Lemma findVertex_In (g : Graph.FrameGraph) (v : Graph.Vertex) :
  In v (Graph.vertices g) -> is_Some (Graph.findVertex g (Graph.Id v)).
Proof.
  unfold Graph.findVertex. intros Hin.
  destruct (List.find _ _) as [w|] eqn:Hf; [eexists; reflexivity|].
  exfalso. pose proof (find_none _ _ Hf v Hin) as Hn. cbn in Hn.
  rewrite N.eqb_refl in Hn. discriminate.
Qed.

Lemma findEdge_Some (g : Graph.FrameGraph) (id : EdgeId) (e : Graph.DirectedEdge) :
  Graph.findEdge g id = Some e -> In e (Graph.edges g) /\ Graph.EId e = id.
Proof.
  unfold Graph.findEdge. intros Hf. apply find_some in Hf.
  destruct Hf as [Hin Heq]. split; [exact Hin|]. apply N.eqb_eq. exact Heq.
Qed.

(** The ids in use do not exceed the counters. *)
Definition vertex_ids_ok (g : Graph.FrameGraph) : Prop :=
  forall v, In v (Graph.vertices g) ->
            Graph.Id v <= Graph.nextVertexId g /\ Graph.Id v < kNullId.

Definition edge_ids_ok (g : Graph.FrameGraph) : Prop :=
  forall e, In e (Graph.edges g) -> Graph.EId e <= Graph.nextEdgeId g.

Definition edge_ends_ok (g : Graph.FrameGraph) : Prop :=
  forall e, In e (Graph.edges g) ->
            Graph.EId e < kNullId
            /\ is_Some (Graph.findVertex g (Graph.Tail e))
            /\ is_Some (Graph.findVertex g (Graph.Head e)).

Lemma graph_ok_spec (g : Graph.FrameGraph) :
  graph_ok g = true
  <-> Graph.nextVertexId g <= MAX_UI64
      /\ Graph.nextEdgeId g <= MAX_UI64
      /\ vertex_ids_ok g /\ edge_ids_ok g /\ edge_ends_ok g.
Proof.
  unfold graph_ok, vertex_ids_ok, edge_ids_ok, edge_ends_ok.
  rewrite !andb_true_iff, !forallb_forall, !N.leb_le.
  split.
  - intros [[[Hnv Hne] Hv] He].
    split; [exact Hnv|]. split; [exact Hne|]. split; [|split].
    + intros v Hin. specialize (Hv v Hin). apply andb_true_iff in Hv.
      destruct Hv as [Hle Hlt].
      split; [apply N.leb_le|apply N.ltb_lt]; assumption.
    + intros e Hin. specialize (He e Hin). rewrite !andb_true_iff in He.
      apply N.leb_le. tauto.
    + intros e Hin. specialize (He e Hin). rewrite !andb_true_iff in He.
      destruct He as [[[_ Hlt] Ht] Hh]. split; [apply N.ltb_lt; exact Hlt|].
      split; eapply bool_decide_eq_true_1; eassumption.
  - intros [Hnv [Hne [Hv [Hei Hee]]]].
    split; [split; [split; [exact Hnv|exact Hne]|]|].
    + intros v Hin. destruct (Hv v Hin) as [Hle Hlt].
      apply andb_true_iff. split; [apply N.leb_le|apply N.ltb_lt]; assumption.
    + intros e Hin. specialize (Hei e Hin). destruct (Hee e Hin) as [Hlt [Ht Hh]].
      rewrite !andb_true_iff. repeat split.
      * apply N.leb_le. assumption.
      * apply N.ltb_lt. assumption.
      * apply bool_decide_eq_true_2. assumption.
      * apply bool_decide_eq_true_2. assumption.
Qed.

Lemma graph_ok_vertices (g : Graph.FrameGraph) :
  graph_ok g = true -> vertex_ids_ok g.
Proof. intros Hok. apply graph_ok_spec in Hok. tauto. Qed.

Lemma graph_ok_edges (g : Graph.FrameGraph) :
  graph_ok g = true -> edge_ids_ok g.
Proof. intros Hok. apply graph_ok_spec in Hok. tauto. Qed.

(** The counter walk stops at once or after one step when no id in use
    exceeds the counter. *)
Lemma NextId_loop_spec (used : N -> bool) (fuel : nat) (next : N) :
  (forall i, used i = true -> i <= next) ->
  next + 1 < MAX_UI64 ->
  (2 <= fuel)%nat \/ ((1 <= fuel)%nat /\ used next = false) ->
  let id := Graph.NextId_loop used fuel next in
  used id = false /\ next <= id /\ id <= next + 1.
Proof.
  intros Hused Hroom Hfuel. cbn zeta.
  destruct fuel as [|fuel]; [lia|]. cbn [Graph.NextId_loop].
  destruct (used next) eqn:Hn; cbn [andb].
  - assert ((next <? MAX_UI64) = true) as -> by (apply N.ltb_lt; lia).
    destruct fuel as [|fuel]; [destruct Hfuel as [Hf|[_ Hf]]; [lia|discriminate]|].
    cbn [Graph.NextId_loop].
    destruct (used (next + 1)) eqn:Hn1.
    + apply Hused in Hn1. lia.
    + cbn [andb]. repeat split; [exact Hn1|lia|lia].
  - repeat split; [exact Hn|lia|lia].
Qed.

Lemma NextVertexId_spec (g : Graph.FrameGraph) :
  vertex_ids_ok g ->
  Graph.nextVertexId g + 1 < kNullId ->
  Graph.findVertex g (Graph.NextVertexId g) = None
  /\ Graph.nextVertexId g <= Graph.NextVertexId g
  /\ Graph.NextVertexId g <= Graph.nextVertexId g + 1.
Proof.
  intros Hok Hroom. unfold Graph.NextVertexId.
  set (used := fun i => bool_decide (is_Some (Graph.findVertex g i))).
  assert (forall i, used i = true -> i <= Graph.nextVertexId g) as Hused.
  { intros i Hi. unfold used in Hi. apply bool_decide_eq_true in Hi.
    destruct Hi as [v Hv]. apply findVertex_Some in Hv.
    destruct Hv as [Hin <-]. apply Hok. exact Hin. }
  assert ((2 <= S (length (Graph.vertices g)))%nat
          \/ ((1 <= S (length (Graph.vertices g)))%nat
              /\ used (Graph.nextVertexId g) = false)) as Hfuel.
  { destruct (Graph.vertices g) as [|v vs] eqn:Hvs.
    - right. split; [cbn; lia|]. unfold used, Graph.findVertex.
      rewrite Hvs. reflexivity.
    - left. cbn. lia. }
  destruct (NextId_loop_spec used _ _ Hused Hroom Hfuel) as [Hfree [Hlo Hhi]].
  repeat split; try assumption.
  unfold used in Hfree. apply bool_decide_eq_false in Hfree.
  destruct (Graph.findVertex g _) eqn:Hf; [|reflexivity].
  exfalso. apply Hfree. eexists. reflexivity.
Qed.

Lemma NextEdgeId_spec (g : Graph.FrameGraph) :
  edge_ids_ok g ->
  Graph.nextEdgeId g + 1 < kNullId ->
  Graph.findEdge g (Graph.NextEdgeId g) = None
  /\ Graph.nextEdgeId g <= Graph.NextEdgeId g
  /\ Graph.NextEdgeId g <= Graph.nextEdgeId g + 1.
Proof.
  intros Hok Hroom. unfold Graph.NextEdgeId.
  set (used := fun i => bool_decide (is_Some (Graph.findEdge g i))).
  assert (forall i, used i = true -> i <= Graph.nextEdgeId g) as Hused.
  { intros i Hi. unfold used in Hi. apply bool_decide_eq_true in Hi.
    destruct Hi as [e He]. apply findEdge_Some in He.
    destruct He as [Hin <-]. apply Hok. exact Hin. }
  assert ((2 <= S (length (Graph.edges g)))%nat
          \/ ((1 <= S (length (Graph.edges g)))%nat
              /\ used (Graph.nextEdgeId g) = false)) as Hfuel.
  { destruct (Graph.edges g) as [|e es] eqn:Hes.
    - right. split; [cbn; lia|]. unfold used, Graph.findEdge.
      rewrite Hes. reflexivity.
    - left. cbn. lia. }
  destruct (NextId_loop_spec used _ _ Hused Hroom Hfuel) as [Hfree [Hlo Hhi]].
  repeat split; try assumption.
  unfold used in Hfree. apply bool_decide_eq_false in Hfree.
  destruct (Graph.findEdge g _) eqn:Hf; [|reflexivity].
  exfalso. apply Hfree. eexists. reflexivity.
Qed.

(** [AddVertex] where there is room: the vertex goes to the end of the
    map under a new id. *)
Lemma AddVertex_spec (g : Graph.FrameGraph) (name : string) (data : Matrix4d) :
  vertex_ids_ok g ->
  Graph.nextVertexId g + 1 < kNullId ->
  exists id,
    Graph.AddVertex g name data
    = (Graph.mkVertex name data id,
       {| Graph.vertices := Graph.vertices g ++ [Graph.mkVertex name data id];
          Graph.edges := Graph.edges g;
          Graph.nextVertexId := id;
          Graph.nextEdgeId := Graph.nextEdgeId g |},
       [])
    /\ Graph.findVertex g id = None
    /\ id <= Graph.nextVertexId g + 1.
Proof.
  intros Hok Hroom.
  destruct (NextVertexId_spec g Hok Hroom) as [Hfree [Hlo Hhi]].
  exists (Graph.NextVertexId g). unfold Graph.AddVertex.
  assert ((Graph.NextVertexId g =? kNullId) = false) as ->.
  { apply N.eqb_neq. lia. }
  rewrite Hfree. repeat split; try reflexivity; exact Hhi.
Qed.

(** [AddEdge] between two vertices where there is room: the edge goes to
    the end of the map. *)
Lemma AddEdge_spec (g : Graph.FrameGraph) (tail head : VertexId) (data : Z) :
  edge_ids_ok g ->
  Graph.nextEdgeId g + 1 < kNullId ->
  is_Some (Graph.findVertex g tail) ->
  is_Some (Graph.findVertex g head) ->
  exists id,
    Graph.AddEdge g tail head data
    = (Graph.mkEdge tail head data 1 id,
       {| Graph.vertices := Graph.vertices g;
          Graph.edges := Graph.edges g ++ [Graph.mkEdge tail head data 1 id];
          Graph.nextVertexId := Graph.nextVertexId g;
          Graph.nextEdgeId := id |},
       [])
    /\ Graph.nextEdgeId g <= id
    /\ id <= Graph.nextEdgeId g + 1.
Proof.
  intros Hok Hroom [vt Ht] [vh Hh].
  destruct (NextEdgeId_spec g Hok Hroom) as [Hfree [Hlo Hhi]].
  exists (Graph.NextEdgeId g). unfold Graph.AddEdge.
  assert ((Graph.NextEdgeId g =? kNullId) = false) as ->.
  { apply N.eqb_neq. lia. }
  rewrite Ht, Hh. repeat split; try reflexivity; assumption.
Qed.

Lemma NextId_loop_bounds (used : N -> bool) (fuel : nat) (next : N) :
  next <= MAX_UI64 ->
  next <= Graph.NextId_loop used fuel next
  /\ Graph.NextId_loop used fuel next <= MAX_UI64.
Proof.
  revert next. induction fuel as [|fuel IH]; intros next Hle; cbn.
  - lia.
  - destruct (used next && (next <? MAX_UI64)) eqn:Hstep; [|lia].
    apply andb_prop in Hstep. destruct Hstep as [_ Hlt]. apply N.ltb_lt in Hlt.
    destruct (IH (next + 1)) as [Hlo Hhi]; lia.
Qed.

Lemma find_app_Some {A} (f : A -> bool) (l1 l2 : list A) (x : A) :
  List.find f l1 = Some x -> List.find f (l1 ++ l2) = Some x.
Proof.
  induction l1 as [|y l1 IH]; cbn; [discriminate|].
  destruct (f y); [trivial|exact IH].
Qed.

Lemma findVertex_snoc (g : Graph.FrameGraph)
    (vs : list Graph.Vertex) (es : list Graph.DirectedEdge) (nv ne id : N) :
  is_Some (Graph.findVertex g id) ->
  is_Some (Graph.findVertex
             {| Graph.vertices := Graph.vertices g ++ vs; Graph.edges := es;
                Graph.nextVertexId := nv; Graph.nextEdgeId := ne |} id).
Proof.
  unfold Graph.findVertex. cbn. intros [w Hw].
  exists w. apply find_app_Some. exact Hw.
Qed.

(** The graph without vertices is well formed, and [AddVertex] and
    [AddEdge] keep a graph well formed, whether they add or refuse. *)
Lemma graph_ok_empty : graph_ok Graph.empty = true.
Proof. reflexivity. Qed.

Lemma AddVertex_graph_ok (g : Graph.FrameGraph) (name : string) (data : Matrix4d) :
  graph_ok g = true ->
  graph_ok (snd (fst (Graph.AddVertex g name data))) = true.
Proof.
  intros Hok. apply graph_ok_spec in Hok.
  destruct Hok as [Hnv [Hne [Hv [Hei Hee]]]].
  assert (Graph.nextVertexId g <= Graph.NextVertexId g
          /\ Graph.NextVertexId g <= MAX_UI64) as [Hlo Hhi].
  { unfold Graph.NextVertexId. apply NextId_loop_bounds. exact Hnv. }
  assert (forall vs id,
             is_Some (Graph.findVertex g id) ->
             is_Some (Graph.findVertex
                        {| Graph.vertices := Graph.vertices g ++ vs;
                           Graph.edges := Graph.edges g;
                           Graph.nextVertexId := Graph.NextVertexId g;
                           Graph.nextEdgeId := Graph.nextEdgeId g |} id)) as Hfind.
  { intros vs id. apply findVertex_snoc. }
  assert (graph_ok {| Graph.vertices := Graph.vertices g;
                      Graph.edges := Graph.edges g;
                      Graph.nextVertexId := Graph.NextVertexId g;
                      Graph.nextEdgeId := Graph.nextEdgeId g |} = true) as Hrefused.
  { apply graph_ok_spec. unfold vertex_ids_ok, edge_ids_ok, edge_ends_ok.
    cbn [Graph.vertices Graph.edges Graph.nextVertexId Graph.nextEdgeId].
    split; [exact Hhi|]. split; [exact Hne|]. split; [|split].
    - intros v Hin. destruct (Hv v Hin). split; [lia|assumption].
    - exact Hei.
    - intros e Hin. destruct (Hee e Hin) as [Hlt [Ht Hh]].
      split; [exact Hlt|]. split; [exact Ht|exact Hh]. }
  unfold Graph.AddVertex.
  destruct (Graph.NextVertexId g =? kNullId) eqn:Hnull; [exact Hrefused|].
  destruct (Graph.findVertex g (Graph.NextVertexId g)); [exact Hrefused|].
  apply N.eqb_neq in Hnull. cbn [fst snd].
  apply graph_ok_spec. unfold vertex_ids_ok, edge_ids_ok, edge_ends_ok.
    cbn [Graph.vertices Graph.edges Graph.nextVertexId Graph.nextEdgeId].
  split; [exact Hhi|]. split; [exact Hne|]. split; [|split].
  - intros v Hin. apply in_app_or in Hin. destruct Hin as [Hin|[<-|[]]].
    + destruct (Hv v Hin). lia.
    + cbn [Graph.Id]. unfold kNullId in *. lia.
  - exact Hei.
  - intros e Hin. destruct (Hee e Hin) as [Hlt [Ht Hh]].
    split; [exact Hlt|]. split; apply Hfind; assumption.
Qed.

Lemma AddEdge_graph_ok (g : Graph.FrameGraph) (tail head : VertexId) (data : Z) :
  graph_ok g = true ->
  graph_ok (snd (fst (Graph.AddEdge g tail head data))) = true.
Proof.
  intros Hok. apply graph_ok_spec in Hok.
  destruct Hok as [Hnv [Hne [Hv [Hei Hee]]]].
  assert (Graph.nextEdgeId g <= Graph.NextEdgeId g
          /\ Graph.NextEdgeId g <= MAX_UI64) as [Hlo Hhi].
  { unfold Graph.NextEdgeId. apply NextId_loop_bounds. exact Hne. }
  assert (graph_ok {| Graph.vertices := Graph.vertices g;
                      Graph.edges := Graph.edges g;
                      Graph.nextVertexId := Graph.nextVertexId g;
                      Graph.nextEdgeId := Graph.NextEdgeId g |} = true) as Hrefused.
  { apply graph_ok_spec. unfold vertex_ids_ok, edge_ids_ok, edge_ends_ok.
    cbn [Graph.vertices Graph.edges Graph.nextVertexId Graph.nextEdgeId].
    split; [exact Hnv|]. split; [exact Hhi|]. split; [exact Hv|]. split.
    - intros e Hin. specialize (Hei e Hin). lia.
    - exact Hee. }
  unfold Graph.AddEdge.
  destruct (Graph.NextEdgeId g =? kNullId) eqn:Hnull; [exact Hrefused|].
  destruct (Graph.findVertex g tail) as [vt|] eqn:Ht; [|exact Hrefused].
  destruct (Graph.findVertex g head) as [vh|] eqn:Hh; [|exact Hrefused].
  apply N.eqb_neq in Hnull. cbn [fst snd].
  apply graph_ok_spec. unfold vertex_ids_ok, edge_ids_ok, edge_ends_ok.
    cbn [Graph.vertices Graph.edges Graph.nextVertexId Graph.nextEdgeId].
  split; [exact Hnv|]. split; [exact Hhi|]. split; [exact Hv|]. split.
  - intros e Hin. apply in_app_or in Hin. destruct Hin as [Hin|[<-|[]]].
    + specialize (Hei e Hin). lia.
    + cbn [Graph.EId]. lia.
  - intros e Hin. apply in_app_or in Hin. destruct Hin as [Hin|[<-|[]]].
    + exact (Hee e Hin).
    + cbn [Graph.EId Graph.Tail Graph.Head]. unfold kNullId in *. split; [lia|].
      unfold Graph.findVertex in *. cbn [Graph.vertices]. rewrite Ht, Hh.
      split; eexists; reflexivity.
Qed.

End GraphFacts.

(** ** The two edges of a parent/child relation *)

Section Relations.
Context `{ModelCollaborators}.

Lemma lookup_insert_same (st : list Graph.FrameGraph) (gp : GraphPtr)
    (g g' : Graph.FrameGraph) :
  st !! gp = Some g -> <[gp := g']> st !! gp = Some g'.
Proof. intros Hg. apply list_lookup_insert_eq. eapply lookup_lt_Some. exact Hg. Qed.

Lemma AddVertex_run (gp : GraphPtr) (env : Env) (g : Graph.FrameGraph)
    (name : string) (data : Matrix4d) :
  store env !! gp = Some g ->
  vertex_ids_ok g ->
  Graph.nextVertexId g + 1 < kNullId ->
  exists id,
    AddVertex gp name data env
    = Returns (Graph.mkVertex name data id)
        {| store := <[gp := {| Graph.vertices :=
                                 Graph.vertices g ++ [Graph.mkVertex name data id];
                               Graph.edges := Graph.edges g;
                               Graph.nextVertexId := id;
                               Graph.nextEdgeId := Graph.nextEdgeId g |}]>
                      (store env);
           cout := cout env; cerr := cerr env |}
    /\ Graph.findVertex g id = None.
Proof.
  intros Hg Hok Hroom.
  destruct (AddVertex_spec g name data Hok Hroom) as [id [Heq [Hfree _]]].
  exists id. split; [|exact Hfree].
  unfold AddVertex, bind, deref. rewrite Hg, Heq.
  destruct env as [st co ce]. cbn. rewrite app_nil_r. reflexivity.
Qed.

Lemma AddEdge_run (gp : GraphPtr) (env : Env) (g : Graph.FrameGraph)
    (tail head : VertexId) (data : Z) :
  store env !! gp = Some g ->
  edge_ids_ok g ->
  Graph.nextEdgeId g + 1 < kNullId ->
  is_Some (Graph.findVertex g tail) ->
  is_Some (Graph.findVertex g head) ->
  exists id,
    AddEdge gp tail head data env
    = Returns (Graph.mkEdge tail head data 1 id)
        {| store := <[gp := {| Graph.vertices := Graph.vertices g;
                               Graph.edges :=
                                 Graph.edges g ++ [Graph.mkEdge tail head data 1 id];
                               Graph.nextVertexId := Graph.nextVertexId g;
                               Graph.nextEdgeId := id |}]>
                      (store env);
           cout := cout env; cerr := cerr env |}
    /\ Graph.nextEdgeId g <= id /\ id <= Graph.nextEdgeId g + 1.
Proof.
  intros Hg Hok Hroom Ht Hh.
  destruct (AddEdge_spec g tail head data Hok Hroom Ht Hh) as [id [Heq Hid]].
  exists id. split; [|exact Hid].
  unfold AddEdge, bind, deref. rewrite Hg, Heq.
  destruct env as [st co ce]. cbn. rewrite app_nil_r. reflexivity.
Qed.

Lemma edge_ids_ok_snoc (g : Graph.FrameGraph) (e : Graph.DirectedEdge) :
  edge_ids_ok g ->
  Graph.nextEdgeId g <= Graph.EId e ->
  edge_ids_ok {| Graph.vertices := Graph.vertices g;
                 Graph.edges := Graph.edges g ++ [e];
                 Graph.nextVertexId := Graph.nextVertexId g;
                 Graph.nextEdgeId := Graph.EId e |}.
Proof.
  intros Hok Hle e' Hin. cbn in *. apply in_app_or in Hin.
  destruct Hin as [Hin|[<-|[]]].
  - specialize (Hok e' Hin). lia.
  - lia.
Qed.

(** The two [AddEdge] calls of a relation, followed by [k]. *)
Lemma relation_run {B} (gp : GraphPtr) (env : Env) (g : Graph.FrameGraph)
    (parentId childId : VertexId) (k : Exec B) :
  store env !! gp = Some g ->
  edge_ids_ok g ->
  Graph.nextEdgeId g + 2 < kNullId ->
  is_Some (Graph.findVertex g parentId) ->
  is_Some (Graph.findVertex g childId) ->
  exists g',
    (AddEdge gp parentId childId (-1) ;;; AddEdge gp childId parentId 1 ;;; k) env
    = k {| store := <[gp := g']> (store env); cout := cout env; cerr := cerr env |}
    /\ Graph.vertices g' = Graph.vertices g
    /\ Graph.nextVertexId g' = Graph.nextVertexId g
    /\ List.map arrow (Graph.edges g')
       = List.map arrow (Graph.edges g) ++ relation_arrows parentId childId
    /\ edge_ids_ok g'
    /\ Graph.nextEdgeId g' <= Graph.nextEdgeId g + 2.
Proof.
  intros Hg Hok Hroom Hp Hc.
  destruct (AddEdge_run gp env g parentId childId (-1) Hg Hok ltac:(lia) Hp Hc)
    as [id1 [Hrun1 [Hlo1 Hhi1]]].
  set (g1 := {| Graph.vertices := Graph.vertices g;
                Graph.edges := Graph.edges g ++ [Graph.mkEdge parentId childId (-1) 1 id1];
                Graph.nextVertexId := Graph.nextVertexId g;
                Graph.nextEdgeId := id1 |}) in *.
  set (env1 := {| store := <[gp := g1]> (store env); cout := cout env;
                  cerr := cerr env |}) in *.
  assert (store env1 !! gp = Some g1) as Hg1.
  { eapply lookup_insert_same. exact Hg. }
  assert (edge_ids_ok g1) as Hok1.
  { apply (edge_ids_ok_snoc g (Graph.mkEdge parentId childId (-1) 1 id1) Hok).
    exact Hlo1. }
  destruct (AddEdge_run gp env1 g1 childId parentId 1 Hg1 Hok1
              ltac:(cbn; lia) Hc Hp) as [id2 [Hrun2 [Hlo2 Hhi2]]].
  eexists. split.
  - unfold bind at 1. rewrite Hrun1. unfold bind at 1. rewrite Hrun2.
    cbn [store cout cerr env1]. rewrite list_insert_insert_eq. reflexivity.
  - cbn. repeat split.
    + rewrite !map_app. cbn. rewrite <- app_assoc. reflexivity.
    + apply (edge_ids_ok_snoc g1 (Graph.mkEdge childId parentId 1 1 id2) Hok1).
      exact Hlo2.
    + cbn in Hhi2. lia.
Qed.

Lemma Vertices_In (g : Graph.FrameGraph) (name : string) (v : Graph.Vertex)
    (rest : list Graph.Vertex) :
  Graph.Vertices g name = v :: rest -> In v (Graph.vertices g).
Proof.
  unfold Graph.Vertices. intros Hv.
  assert (In v (List.filter (fun v => String.eqb (Graph.Name v) name) (Graph.vertices g)))
    as Hin by (rewrite Hv; left; reflexivity).
  apply filter_In in Hin. tauto.
Qed.



(** The block of [Link::Load] that registers the link. *)
Lemma Load_frameGraph_run (gp : GraphPtr) (this : Link.LinkPrivate) (env : Env)
    (g : Graph.FrameGraph) (pv : Graph.Vertex) (rest : list Graph.Vertex) :
  store env !! gp = Some g ->
  vertex_ids_ok g ->
  edge_ids_ok g ->
  Graph.nextVertexId g + 1 < kNullId ->
  Graph.nextEdgeId g + 2 < kNullId ->
  Graph.Vertices g (Link.poseFrame this) = pv :: rest ->
  exists g' child,
    Link.Load_frameGraph gp this env
    = Returns (Link.set_frameGraph this (Some gp))
        {| store := <[gp := g']> (store env); cout := cout env; cerr := cerr env |}
    /\ Graph.vertices g' = Graph.vertices g ++ [child]
    /\ Graph.Name child = Link.name this
    /\ Graph.Data child = Matrix4d_of_Pose (Link.pose this)
    /\ Graph.findVertex g (Graph.Id child) = None
    /\ List.map arrow (Graph.edges g')
       = List.map arrow (Graph.edges g)
         ++ relation_arrows (Graph.Id pv) (Graph.Id child).
Proof.
  intros Hg Hvok Heok Hvroom Heroom Hparent.
  unfold Link.Load_frameGraph.
  destruct (AddVertex_run gp env g (Link.name this)
              (Matrix4d_of_Pose (Link.pose this)) Hg Hvok Hvroom)
    as [id [Hrun Hfree]].
  set (child := Graph.mkVertex (Link.name this)
                  (Matrix4d_of_Pose (Link.pose this)) id) in *.
  set (g1 := {| Graph.vertices := Graph.vertices g ++ [child];
                Graph.edges := Graph.edges g;
                Graph.nextVertexId := id;
                Graph.nextEdgeId := Graph.nextEdgeId g |}) in *.
  set (env1 := {| store := <[gp := g1]> (store env); cout := cout env;
                  cerr := cerr env |}) in *.
  assert (store env1 !! gp = Some g1) as Hg1.
  { eapply lookup_insert_same. exact Hg. }
  unfold bind at 1. rewrite Hrun.
  unfold bind at 1. unfold deref. rewrite Hg1.
  assert (Graph.Vertices g1 (Link.poseFrame this)
          = pv :: rest ++ List.filter
              (fun v => String.eqb (Graph.Name v) (Link.poseFrame this)) [child])
    as Hparent1.
  { unfold Graph.Vertices in *. cbn [g1 Graph.vertices].
    rewrite List.filter_app, Hparent. reflexivity. }
  rewrite Hparent1. unfold bind at 1. cbn [begin_first ret].
  assert (is_Some (Graph.findVertex g1 (Graph.Id pv))) as Hp.
  { apply findVertex_In. cbn. apply in_or_app. left.
    eapply Vertices_In. exact Hparent. }
  assert (is_Some (Graph.findVertex g1 (Graph.Id child))) as Hc.
  { apply findVertex_In. cbn. apply in_or_app. right. left. reflexivity. }
  destruct (relation_run gp env1 g1 (Graph.Id pv) (Graph.Id child)
              (ret (Link.set_frameGraph this (Some gp))) Hg1 Heok Heroom Hp Hc)
    as [g2 [Hrun2 [Hverts [_ [Harrows _]]]]].
  exists g2, child. split; [|repeat split; try assumption; try reflexivity].
  rewrite Hrun2. cbn [store cout cerr env1 ret].
  rewrite list_insert_insert_eq. reflexivity.
Qed.


End Relations.

(** ** What [Link::Pose] depends on and what it writes *)

Section PoseEffects.
Context `{LinkCollaborators}.

Lemma writes_only_ret {A} (a : A) : writes_only (ret a).
Proof.
  exists (Returns a {| store := []; cout := []; cerr := [] |}).
  intros [st co ce]. unfold ret. cbn. rewrite !app_nil_r. reflexivity.
Qed.

Lemma writes_only_to_cout (cs : list Chunk) : writes_only (to_cout cs).
Proof.
  exists (Returns tt {| store := []; cout := cs; cerr := [] |}).
  intros [st co ce]. unfold to_cout. cbn. rewrite !app_nil_r. reflexivity.
Qed.

Lemma writes_only_to_cerr (cs : list Chunk) : writes_only (to_cerr cs).
Proof.
  exists (Returns tt {| store := []; cout := []; cerr := cs |}).
  intros [st co ce]. unfold to_cerr. cbn. rewrite !app_nil_r. reflexivity.
Qed.

Lemma writes_only_undefined {A} : writes_only (@undefined _ A).
Proof. exists Undefined. reflexivity. Qed.

Lemma writes_only_outOfFuel {A} : writes_only (@outOfFuel _ A).
Proof. exists OutOfFuel. reflexivity. Qed.

Lemma writes_only_bind {A B} (m : Exec A) (k : A -> Exec B) :
  writes_only m -> (forall a, writes_only (k a)) -> writes_only (bind m k).
Proof.
  intros [om Hm] Hk. destruct om as [a e1| |].
  - destruct (Hk a) as [ok Hok]. destruct ok as [b ek| |].
    + exists (Returns b {| store := []; cout := cout e1 ++ cout ek;
                           cerr := cerr e1 ++ cerr ek |}).
      intros env. unfold bind. rewrite Hm. cbn. rewrite Hok. cbn.
      rewrite !app_assoc. reflexivity.
    + exists Undefined. intros env. unfold bind. rewrite Hm. cbn.
      rewrite Hok. reflexivity.
    + exists OutOfFuel. intros env. unfold bind. rewrite Hm. cbn.
      rewrite Hok. reflexivity.
  - exists Undefined. intros env. unfold bind. rewrite Hm. reflexivity.
  - exists OutOfFuel. intros env. unfold bind. rewrite Hm. reflexivity.
Qed.

Lemma writes_only_begin_first (m : list Graph.Vertex) :
  writes_only (begin_first m).
Proof.
  destruct m; cbn; [apply writes_only_undefined|apply writes_only_ret].
Qed.

Lemma writes_only_notes (ns : list Graph.Note) : writes_only (notes ns).
Proof. apply writes_only_to_cerr. Qed.

Ltac writes :=
  repeat first
    [ apply writes_only_ret
    | apply writes_only_to_cout
    | apply writes_only_to_cerr
    | apply writes_only_notes
    | apply writes_only_begin_first
    | apply writes_only_undefined
    | apply writes_only_outOfFuel
    | apply writes_only_bind; [|intros ?] ].

Lemma writes_only_Pose_walk (fuel : nat) (g : Graph.FrameGraph)
    (result : Graph.DistMap) (srcId : VertexId) (pose : Pose3d) :
  forall (key : VertexId) (finalPose : Matrix4d),
    writes_only (Link.Pose_walk fuel g result srcId pose key finalPose).
Proof.
  induction fuel as [|fuel IH]; intros key finalPose; cbn [Link.Pose_walk].
  - writes.
  - destruct (Graph.dist_find result key) as [[c nextVertex]|]; [|writes].
    destruct (negb _); [|writes].
    apply writes_only_bind; [writes|intros _].
    destruct (nextVertex =? srcId); [writes|apply IH].
Qed.

Lemma Pose_unfold (fuel : nat) (this : Link.LinkPrivate) (_frame : string)
    (env : Env) (gp : GraphPtr) (g : Graph.FrameGraph) :
  _frame <> "" ->
  Link.frameGraph this = Some gp ->
  store env !! gp = Some g ->
  Link.Pose fuel this _frame env
  = Pose_on fuel (Link.name this) (Link.pose this) _frame g env.
Proof.
  intros Hframe Hgp Hg. unfold Link.Pose.
  rewrite (proj2 (String.eqb_neq _ _) Hframe).
  unfold bind at 1. unfold deref. rewrite Hgp, Hg. reflexivity.
Qed.

Lemma writes_only_Pose_rest (fuel : nat) (name : string) (pose : Pose3d)
    (_frame : string) (g : Graph.FrameGraph) :
  writes_only (Pose_rest fuel name pose _frame g).
Proof.
  unfold Pose_rest.
  do 5 (apply writes_only_bind; [writes|intros ?]).
  destruct (Graph.Dijkstra _ _ _ _) as [[result ns]|]; [|writes].
  apply writes_only_bind; [writes|intros _].
  apply writes_only_bind; [writes|intros _].
  apply writes_only_bind; [apply writes_only_Pose_walk|intros ?].
  writes.
Qed.

End PoseEffects.

Section PoseTrace.
Context `{LinkCollaborators}.

Lemma after_after {A} (env env0 : Env) (o : outcome A) :
  cout env0 = [] -> cerr env0 = [] ->
  after env (after env0 o) = after env o.
Proof.
  intros Hco Hce. destruct o as [a e| |]; cbn; [|reflexivity|reflexivity].
  rewrite Hco, Hce. reflexivity.
Qed.

(** C1 (as amended): [Link::Pose] with a frame name leaves the graphs as
    they are, and the pose it returns and what it writes are those of
    [Pose_run]: they depend on the name and stored pose of the link, the
    graph and the frame name only.  But the call is not silent: a call that
    returns has appended to [std::cout] a trace that starts with the line
    naming source and destination. *)
Theorem Pose_depends_on_graph_and_writes_trace
    (fuel : nat) (this : Link.LinkPrivate) (_frame : string) (env : Env)
    (gp : GraphPtr) (g : Graph.FrameGraph) :
  _frame <> "" ->
  Link.frameGraph this = Some gp ->
  store env !! gp = Some g ->
  Link.Pose fuel this _frame env
  = after env (Pose_run fuel (Link.name this) (Link.pose this) g _frame)
  /\ (forall p env',
         Link.Pose fuel this _frame env = Returns p env' ->
         store env' = store env
         /\ exists more,
              cout env' = cout env ++ Pose_header (Link.name this) _frame ++ more).
Proof.
  intros Hframe Hgp Hg.
  destruct (writes_only_Pose_rest fuel (Link.name this) (Link.pose this) _frame g)
    as [o Ho].
  assert (forall e, Pose_on fuel (Link.name this) (Link.pose this) _frame g e
                    = after e (after {| store := []; cout := Pose_header (Link.name this) _frame;
                                        cerr := [] |} o)) as Hon.
  { intros [st co ce]. unfold Pose_on, bind, to_cout. cbn [store cout cerr].
    rewrite Ho. destruct o as [a e| |]; cbn; [|reflexivity|reflexivity].
    rewrite <- app_assoc. reflexivity. }
  split.
  - rewrite (Pose_unfold fuel this _frame env gp g Hframe Hgp Hg).
    unfold Pose_run.
    erewrite (Pose_unfold fuel _ _frame {| store := [g]; cout := []; cerr := [] |}
                0%nat g Hframe); [|reflexivity|reflexivity].
    cbn [Link.name Link.pose]. rewrite !Hon.
    destruct o as [a e| |]; reflexivity.
  - intros p env' Hrun.
    rewrite (Pose_unfold fuel this _frame env gp g Hframe Hgp Hg), Hon in Hrun.
    destruct o as [a e| |]; cbn in Hrun; [|discriminate|discriminate].
    injection Hrun as _ <-. cbn. split; [reflexivity|].
    exists (cout e). reflexivity.
Qed.

End PoseTrace.

(** ** The pose of a frame in itself *)

Section OwnFrame.
Context `{LinkCollaborators}.

Lemma dist_find_set (d : Graph.DistMap) (k : VertexId) (ci : Graph.CostInfo) :
  Graph.dist_find (Graph.dist_set d k ci) k = Some ci.
Proof.
  unfold Graph.dist_find.
  induction d as [|[k' ci'] d IH]; cbn.
  - rewrite N.eqb_refl. reflexivity.
  - destruct (k' =? k) eqn:Hk; cbn.
    + rewrite N.eqb_refl. reflexivity.
    + destruct (k <? k'); cbn.
      * rewrite N.eqb_refl. reflexivity.
      * rewrite Hk. exact IH.
Qed.

(** The search from a vertex to itself stops at once. *)
Lemma Dijkstra_same (fuel : nat) (g : Graph.FrameGraph) (id : VertexId) :
  is_Some (Graph.findVertex g id) ->
  id <> kNullId ->
  exists result,
    Graph.Dijkstra (S fuel) g id id = Some (result, [])
    /\ Graph.dist_find result id = Some (Finite 0, id).
Proof.
  intros [v Hv] Hid. unfold Graph.Dijkstra. rewrite Hv.
  assert (bool_decide (Some v = None) = false) as ->.
  { apply bool_decide_eq_false. congruence. }
  rewrite andb_false_r. cbn [Graph.Dijkstra_loop snd].
  rewrite N.eqb_refl. rewrite (proj2 (N.eqb_neq _ _) Hid). cbn [negb andb].
  eexists. split; [reflexivity|]. apply dist_find_set.
Qed.

(** Without an edge from the vertex to itself there is no edge to find. *)
Lemma EdgeFromVertices_same (g : Graph.FrameGraph) (id : VertexId) :
  no_self_edge g id = true ->
  id <> kNullId ->
  Graph.EdgeFromVertices g id id = Graph.NullEdge.
Proof.
  intros Hno Hid. unfold Graph.EdgeFromVertices, Graph.adjList.
  destruct (Graph.findVertex g id); [|reflexivity].
  destruct (List.find _ _) as [e|] eqn:Hfind; [|reflexivity].
  exfalso. apply find_some in Hfind. destruct Hfind as [Hin Hfrom].
  apply filter_In in Hin. destruct Hin as [Hin _].
  unfold no_self_edge in Hno. rewrite forallb_forall in Hno.
  specialize (Hno e Hin). unfold Graph.From in Hfrom.
  destruct (id =? Graph.Tail e) eqn:Ht; cbn [negb] in Hfrom.
  - apply N.eqb_eq in Ht. rewrite <- Ht, N.eqb_refl in Hno.
    rewrite Hfrom in Hno. discriminate.
  - apply N.eqb_eq in Hfrom. unfold kNullId in *. congruence.
Qed.

(** C3: for a link that is a vertex of its graph, with a name, and without
    an edge from its vertex to itself, [Link::Pose] called with the name of
    the link returns the pose of the identity matrix. *)
Theorem Pose_in_own_frame_is_identity
    (fuel : nat) (this : Link.LinkPrivate) (env : Env)
    (gp : GraphPtr) (g : Graph.FrameGraph)
    (v : Graph.Vertex) (rest : list Graph.Vertex) :
  Link.name this <> "" ->
  Link.frameGraph this = Some gp ->
  store env !! gp = Some g ->
  graph_ok g = true ->
  Graph.Vertices g (Link.name this) = v :: rest ->
  no_self_edge g (Graph.Id v) = true ->
  exists env',
    Link.Pose (S fuel) this (Link.name this) env
    = Returns (Matrix4d_Pose Matrix4d_Identity) env'.
Proof.
  intros Hname Hgp Hg Hok Hv Hno.
  assert (In v (Graph.vertices g)) as Hin.
  { unfold Graph.Vertices in Hv.
    assert (In v (List.filter (fun v => String.eqb (Graph.Name v) (Link.name this))
                    (Graph.vertices g))) as Hf by (rewrite Hv; left; reflexivity).
    apply filter_In in Hf. tauto. }
  assert (Graph.Id v <> kNullId) as Hid.
  { destruct (graph_ok_vertices g Hok v Hin) as [_ Hlt]. lia. }
  destruct (Dijkstra_same fuel g (Graph.Id v) (findVertex_In g v Hin) Hid)
    as [result [Hsearch Hprev]].
  rewrite (Pose_unfold (S fuel) this (Link.name this) env gp g Hname Hgp Hg).
  unfold Pose_on, Pose_rest. rewrite Hv. cbn [begin_first].
  unfold bind, to_cout, ret. cbn [store cout cerr].
  rewrite Hsearch. unfold notes, to_cerr. cbn [store cout cerr List.map].
  cbn [Link.Pose_walk]. rewrite Hprev.
  rewrite (EdgeFromVertices_same g (Graph.Id v) Hno Hid).
  rewrite N.eqb_refl. cbn [negb]. unfold bind, to_cerr, ret. cbn [store cout cerr].
  eexists. reflexivity.
Qed.

End OwnFrame.

(** ** The empty frame name *)

Section EmptyFrame.
Context `{ModelCollaborators} `{!PoseCollaborator}.

(** [Model::Load] never assigns the pose frame of the model. *)
Lemma Model_Load_poseFrame (e : ElementPtr) (m m' : Model.ModelPrivate)
    (errors : Errors) (env env' : Env) :
  Model.Load e m env = Returns (errors, m') env' ->
  Model.poseFrame m' = Model.poseFrame m.
Proof.
  unfold Model.Load. unfold bind at 1.
  set (m1 := match Model.frameGraph m with
             | Some _ => ret m
             | None => gp <- new_FrameGraph ;; ret (Model.set_frameGraph m (Some gp))
             end env).
  assert (forall m2 env2, m1 = Returns m2 env2 ->
                          Model.poseFrame m2 = Model.poseFrame m) as Hm1.
  { unfold m1. destruct (Model.frameGraph m); cbn; intros m2 env2 Heq;
      injection Heq as <- _; reflexivity. }
  destruct m1 as [m2 env2| |]; [|discriminate|discriminate].
  specialize (Hm1 m2 env2 eq_refl).
  destruct e as [e|]; [|discriminate].
  destruct (Model.frameGraph (Model.set_sdf m2 (Some e))) as [gp|]; [|discriminate].
  destruct (negb _).
  - intros Heq. injection Heq as _ <- _. exact Hm1.
  - destruct (loadName e _) as [named n].
    destruct (loadPose e _ _) as [[found p] f].
    unfold bind.
    repeat match goal with
           | |- match ?x with Returns _ _ => _ | Undefined => _ | OutOfFuel => _ end
                = _ -> _ =>
               destruct x as [? ?| |]; [|discriminate|discriminate]
           end.
    intros Heq. injection Heq as _ <- _. exact Hm1.
Qed.

(** The empty frame name, for every link and every model.  [Link::Pose]
    returns the stored pose of the link as it is, without reading the
    graph or the pose frame of the link; [Model::Pose] hands the pose frame
    of the model to [poseInFrame], and [Model::Load] leaves that pose frame
    as it was. *)
Lemma Pose_of_empty_frame
    (fuel : nat) (l : Link.LinkPrivate) (m : Model.ModelPrivate) (env : Env) :
  Link.Pose fuel l "" env = Returns (Link.pose l) env
  /\ Model.Pose m "" env
     = (g <- deref (Model.frameGraph m) ;;
        poseInFrame (Model.name m) (Model.PoseFrame m) g) env
  /\ (forall e errors m' env',
         Model.Load e m env = Returns (errors, m') env' ->
         Model.PoseFrame m' = Model.PoseFrame m).
Proof.
  split; [reflexivity|]. split; [reflexivity|].
  intros e errors m' env' Hload.
  eapply Model_Load_poseFrame. exact Hload.
Qed.

End EmptyFrame.

(** ** Vertices that are not connected *)

Section Unconnected.
Context `{LinkCollaborators}.

(** A key that the search has left without a previous vertex ends the walk
    of [Link::Pose] in its error case: a line on [std::cerr], and the
    matrix composed so far is returned. *)
Lemma Pose_walk_without_previous (fuel : nat) (g : Graph.FrameGraph)
    (result : Graph.DistMap) (srcId : VertexId) (pose : Pose3d)
    (key : VertexId) (finalPose : Matrix4d) (c : Cost) (env : Env) :
  graph_ok g = true ->
  Graph.dist_find result key = Some (c, kNullId) ->
  Link.Pose_walk (S fuel) g result srcId pose key finalPose env
  = Returns finalPose
      {| store := store env; cout := cout env;
         cerr := cerr env ++ [Str "ERRROR!"; Endl] |}.
Proof.
  intros Hok Hprev. cbn [Link.Pose_walk]. rewrite Hprev.
  assert (Graph.EdgeFromVertices g kNullId key = Graph.NullEdge) as ->.
  { unfold Graph.EdgeFromVertices, Graph.adjList.
    destruct (Graph.findVertex g kNullId) as [v|] eqn:Hv; [|reflexivity].
    exfalso. apply findVertex_Some in Hv. destruct Hv as [Hin Hid].
    destruct (graph_ok_vertices g Hok v Hin) as [_ Hlt]. lia. }
  rewrite N.eqb_refl. reflexivity.
Qed.

End Unconnected.

(** ** The search does not reach what the edges do not reach *)

Section Search.
Context `{LinkCollaborators}.

Lemma dist_find_set_other (d : Graph.DistMap) (k k' : VertexId)
    (ci : Graph.CostInfo) :
  k' <> k ->
  Graph.dist_find (Graph.dist_set d k ci) k' = Graph.dist_find d k'.
Proof.
  intros Hne. unfold Graph.dist_find.
  assert ((k =? k') = false) as Hkk by (apply N.eqb_neq; congruence).
  induction d as [|[k0 c0] d IH]; cbn.
  - rewrite Hkk. reflexivity.
  - destruct (k0 =? k) eqn:Hk0; cbn.
    + apply N.eqb_eq in Hk0. subst k0. rewrite Hkk. reflexivity.
    + destruct (k <? k0); cbn.
      * rewrite Hkk. reflexivity.
      * destruct (k0 =? k'); [reflexivity|exact IH].
Qed.

Lemma In_pq_push (x y : Graph.CostInfo) (pq : list Graph.CostInfo) :
  In x (Graph.pq_push y pq) -> x = y \/ In x pq.
Proof.
  induction pq as [|z pq IH]; cbn.
  - intros [<-|[]]. left. reflexivity.
  - destruct (Graph.CostInfo_le y z); cbn.
    + intros [<-|Hin]; [left; reflexivity|right; exact Hin].
    + intros [<-|Hin]; [right; left; reflexivity|].
      destruct (IH Hin) as [->|Hin']; [left; reflexivity|right; right; exact Hin'].
Qed.

(** An edge that leaves [u] is an edge of the graph with tail [u]. *)
Lemma IncidentsFrom_edge (g : Graph.FrameGraph) (u : VertexId)
    (e : Graph.DirectedEdge) :
  In e (Graph.IncidentsFrom g u) ->
  In e (Graph.edges g) /\ Graph.Tail e = u /\ Graph.From e u = Graph.Head e.
Proof.
  unfold Graph.IncidentsFrom, Graph.adjList.
  destruct (Graph.findVertex g u); [|intros []].
  intros Hin. apply filter_In in Hin. destruct Hin as [Hin Hfrom].
  apply filter_In in Hin. destruct Hin as [Hin _].
  split; [exact Hin|]. unfold Graph.From in *.
  destruct (u =? Graph.Tail e) eqn:Ht; cbn [negb] in *.
  - apply N.eqb_eq in Ht. split; [congruence|reflexivity].
  - rewrite N.eqb_refl in Hfrom. discriminate.
Qed.

Lemma dist_set_sound (g : Graph.FrameGraph) (src v : VertexId)
    (dist : Graph.DistMap) (ci : Graph.CostInfo) :
  dist_sound g src dist -> reachable g src v ->
  dist_sound g src (Graph.dist_set dist v ci).
Proof.
  intros Hd Hv k c p Hk. destruct (N.eq_dec k v) as [->|Hne].
  - right. exact Hv.
  - rewrite dist_find_set_other in Hk by exact Hne. eapply Hd. exact Hk.
Qed.

Lemma dist_set_complete (g : Graph.FrameGraph) (v : VertexId)
    (dist : Graph.DistMap) (ci : Graph.CostInfo) :
  dist_complete g dist -> dist_complete g (Graph.dist_set dist v ci).
Proof.
  intros Hd w Hw. destruct (N.eq_dec (Graph.Id w) v) as [<-|Hne].
  - rewrite dist_find_set. eexists. reflexivity.
  - rewrite dist_find_set_other by exact Hne. apply Hd. exact Hw.
Qed.

Lemma Dijkstra_relax_sound (g : Graph.FrameGraph) (src u : VertexId)
    (es : list Graph.DirectedEdge) :
  reachable g src u ->
  (forall e, In e es -> In e (Graph.IncidentsFrom g u)) ->
  forall dist pq,
    dist_sound g src dist -> pq_sound g src pq -> dist_complete g dist ->
    dist_sound g src (fst (Graph.Dijkstra_relax u es dist pq))
    /\ pq_sound g src (snd (Graph.Dijkstra_relax u es dist pq))
    /\ dist_complete g (fst (Graph.Dijkstra_relax u es dist pq)).
Proof.
  intros Hu. induction es as [|e es IH]; intros Hes dist pq Hd Hq Hc;
    cbn [Graph.Dijkstra_relax].
  - repeat split; assumption.
  - assert (forall e', In e' es -> In e' (Graph.IncidentsFrom g u)) as Hes'.
    { intros e' Hin. apply Hes. right. exact Hin. }
    destruct (IncidentsFrom_edge g u e (Hes e (or_introl eq_refl)))
      as [Hin [Htail Hfrom]].
    assert (reachable g src (Graph.From e u)) as Hv.
    { rewrite Hfrom. apply reach_edge; [rewrite Htail; exact Hu|exact Hin]. }
    destruct (Cost_gt _ _).
    + apply (IH Hes').
      * apply dist_set_sound; assumption.
      * intros x Hx. apply In_pq_push in Hx. destruct Hx as [->|Hx].
        -- exact Hv.
        -- apply Hq. exact Hx.
      * apply dist_set_complete. exact Hc.
    + apply (IH Hes'); assumption.
Qed.

Lemma Dijkstra_loop_sound (g : Graph.FrameGraph) (src to : VertexId) (fuel : nat) :
  forall dist pq result,
    dist_sound g src dist -> pq_sound g src pq -> dist_complete g dist ->
    Graph.Dijkstra_loop fuel g to dist pq = Some result ->
    dist_sound g src result /\ dist_complete g result.
Proof.
  induction fuel as [|fuel IH]; intros dist pq result Hd Hq Hc;
    cbn [Graph.Dijkstra_loop]; [discriminate|].
  destruct pq as [|top rest].
  - intros Heq. injection Heq as <-. split; assumption.
  - destruct (negb (to =? kNullId) && (to =? snd top)).
    + intros Heq. injection Heq as <-. split; assumption.
    + assert (reachable g src (snd top)) as Hu by (apply Hq; left; reflexivity).
      assert (pq_sound g src rest) as Hrest.
      { intros x Hx. apply Hq. right. exact Hx. }
      destruct (Dijkstra_relax_sound g src (snd top)
                  (Graph.IncidentsFrom g (snd top)) Hu (fun e He => He)
                  dist rest Hd Hrest Hc) as [Hd' [Hq' Hc']].
      destruct (Graph.Dijkstra_relax _ _ dist rest) as [dist' pq'].
      apply IH; assumption.
Qed.

(** A vertex of the graph that the edges do not reach from the source is
    left by the search at [MAX_D] without a previous vertex. *)
Lemma Dijkstra_unreachable (fuel : nat) (g : Graph.FrameGraph)
    (src dst : VertexId) (result : Graph.DistMap) (ns : list Graph.Note) :
  is_Some (Graph.findVertex g src) ->
  is_Some (Graph.findVertex g dst) ->
  ~ reachable g src dst ->
  Graph.Dijkstra fuel g src dst = Some (result, ns) ->
  ns = [] /\ Graph.dist_find result dst = Some (MAX_D, kNullId).
Proof.
  intros [vs Hs] [vd Hd] Hno. unfold Graph.Dijkstra. rewrite Hs, Hd.
  assert (bool_decide (Some vd = None) = false) as ->.
  { apply bool_decide_eq_false. congruence. }
  rewrite andb_false_r.
  set (dist0 := List.map (fun v => (Graph.Id v, (MAX_D, kNullId))) (Graph.vertices g)).
  destruct (Graph.Dijkstra_loop _ _ _ _ _) as [dist|] eqn:Hloop; [|discriminate].
  intros Heq. injection Heq as <- <-. split; [reflexivity|].
  assert (dist_sound g src dist0) as Hsound0.
  { intros k c p Hk. left. unfold Graph.dist_find in Hk.
    destruct (List.find (fun q : N * Graph.CostInfo => fst q =? k) dist0)
      as [[k' ci]|] eqn:Hf; [|discriminate].
    apply find_some in Hf. destruct Hf as [Hin _]. unfold dist0 in Hin.
    apply in_map_iff in Hin. destruct Hin as [v [Hv _]].
    cbn in Hk. injection Hv as _ <-. injection Hk as <- <-. tauto. }
  assert (dist_complete g dist0) as Hcomplete0.
  { intros v Hv. unfold Graph.dist_find.
    destruct (List.find (fun q : N * Graph.CostInfo => fst q =? Graph.Id v) dist0)
      as [p|] eqn:Hf; [eexists; reflexivity|].
    exfalso.
    assert (In (Graph.Id v, (MAX_D, kNullId)) dist0) as Hin.
    { unfold dist0. apply in_map_iff. exists v. tauto. }
    pose proof (find_none _ _ Hf _ Hin) as Hnone. cbn in Hnone.
    rewrite N.eqb_refl in Hnone. discriminate. }
  assert (pq_sound g src [(Finite 0, src)]) as Hqueue0.
  { intros x [<-|[]]. apply reach_here. }
  destruct (Dijkstra_loop_sound g src dst fuel _ _ dist
              (dist_set_sound g src src dist0 (Finite 0, src) Hsound0
                 (reach_here g src))
              Hqueue0
              (dist_set_complete g src dist0 (Finite 0, src) Hcomplete0)
              Hloop) as [Hsound Hcomplete].
  apply findVertex_Some in Hd. destruct Hd as [Hin <-].
  destruct (Hcomplete vd Hin) as [[c p] Hentry].
  destruct (Hsound _ _ _ Hentry) as [[-> ->]|Hreach]; [exact Hentry|].
  contradiction.
Qed.

(** For a frame that the edges do not reach from the link, [Link::Pose]
    returns the pose of the identity matrix whenever the search has the fuel
    to finish. *)
Lemma Pose_of_unreachable_frame
    (fuel : nat) (this : Link.LinkPrivate) (_frame : string) (env : Env)
    (gp : GraphPtr) (g : Graph.FrameGraph)
    (vs vd : Graph.Vertex) (rs rd : list Graph.Vertex) :
  _frame <> "" ->
  Link.frameGraph this = Some gp ->
  store env !! gp = Some g ->
  graph_ok g = true ->
  Graph.Vertices g (Link.name this) = vs :: rs ->
  Graph.Vertices g _frame = vd :: rd ->
  ~ reachable g (Graph.Id vs) (Graph.Id vd) ->
  Link.Pose fuel this _frame env = OutOfFuel
  \/ exists env',
       Link.Pose fuel this _frame env
       = Returns (Matrix4d_Pose Matrix4d_Identity) env'
       /\ cerr env' = cerr env ++ [Str "ERRROR!"; Endl].
Proof.
  intros Hframe Hgp Hg Hok Hvs Hvd Hno.
  assert (forall n v r, Graph.Vertices g n = v :: r -> In v (Graph.vertices g))
    as Hmember.
  { intros n v r Hv. unfold Graph.Vertices in Hv.
    assert (In v (List.filter (fun w => String.eqb (Graph.Name w) n)
                    (Graph.vertices g))) as Hf by (rewrite Hv; left; reflexivity).
    apply filter_In in Hf. tauto. }
  rewrite (Pose_unfold fuel this _frame env gp g Hframe Hgp Hg).
  unfold Pose_on, Pose_rest. rewrite Hvs, Hvd. cbn [begin_first].
  unfold bind, to_cout, ret. cbn [store cout cerr].
  destruct (Graph.Dijkstra fuel g (Graph.Id vs) (Graph.Id vd))
    as [[result ns]|] eqn:Hsearch; [|left; reflexivity].
  right.
  destruct (Dijkstra_unreachable fuel g _ _ result ns
              (findVertex_In g vs (Hmember _ _ _ Hvs))
              (findVertex_In g vd (Hmember _ _ _ Hvd)) Hno Hsearch)
    as [-> Hprev].
  destruct fuel as [|fuel].
  { unfold Graph.Dijkstra in Hsearch.
    destruct (Graph.findVertex g (Graph.Id vs)); [|discriminate].
    destruct (negb _ && _); discriminate. }
  unfold notes, to_cerr. cbn [store cout cerr List.map].
  rewrite (Pose_walk_without_previous fuel g result (Graph.Id vs) (Link.pose this)
             (Graph.Id vd) Matrix4d_Identity MAX_D _ Hok Hprev).
  cbn [store cout cerr]. eexists. split; [reflexivity|].
  cbn [cerr]. rewrite app_nil_r. reflexivity.
Qed.

End Search.

(** ** The whole of [Root::Load] *)

Section RootLoad.
Context `{RootCollaborators}.

Lemma firstNamed_filter (name : string) (l : list Element) :
  match firstNamed name l with
  | Some (c, rest) =>
      List.filter (fun c => String.eqb (tag c) name) l
      = c :: List.filter (fun c => String.eqb (tag c) name) rest
  | None => List.filter (fun c => String.eqb (tag c) name) l = []
  end.
Proof.
  induction l as [|c l IH]; cbn; [reflexivity|].
  destruct (String.eqb (tag c) name); [reflexivity|exact IH].
Qed.

Lemma siblingsNamed_elements (name : string) (par : option Element)
    (l : list Element) :
  List.map element (siblingsNamed name par l)
  = List.filter (fun c => String.eqb (tag c) name) l.
Proof.
  induction l as [|c l IH]; cbn; [reflexivity|].
  destruct (String.eqb (tag c) name); cbn; [f_equal|]; exact IH.
Qed.

(** The idiom of [GetElement] and [GetNextElement] visits the children
    with that tag, each once, in the order of the document. *)
Lemma elementsFrom_children (e : ElementRef) (name : string) :
  List.map element (elementsFrom (GetElement e name) name)
  = List.filter (fun c => String.eqb (tag c) name) (children (element e)).
Proof.
  unfold GetElement.
  pose proof (firstNamed_filter name (children (element e))) as Hf.
  destruct (firstNamed name (children (element e))) as [[c rest]|].
  - cbn. rewrite siblingsNamed_elements. symmetry. exact Hf.
  - cbn. symmetry. exact Hf.
Qed.

Lemma HasElement_GetElement (e : ElementRef) (name : string) :
  HasElement e name = false -> GetElement e name = None.
Proof.
  unfold HasElement, GetElement.
  destruct (firstNamed name (children (element e))) as [[c rest]|];
    [discriminate|reflexivity].
Qed.

(** The world loop writes the three vectors only. *)
Lemma Load_world_fields (elem : ElementRef) (errors : Errors)
    (r : Root.RootPrivate) :
  let r' := snd (Root.Load_world elem errors r) in
  Root.version r' = Root.version r /\ Root.model r' = Root.model r
  /\ Root.light r' = Root.light r /\ Root.actor r' = Root.actor r
  /\ Root.sdf r' = Root.sdf r
  /\ Root.modelFrameAttachedToGraph r' = Root.modelFrameAttachedToGraph r
  /\ Root.modelPoseRelativeToGraph r' = Root.modelPoseRelativeToGraph r
  /\ length (Root.worldFrameAttachedToGraphs r')
     = S (length (Root.worldFrameAttachedToGraphs r))
  /\ length (Root.worldPoseRelativeToGraphs r')
     = S (length (Root.worldPoseRelativeToGraphs r)).
Proof.
  unfold Root.Load_world.
  destruct (Root.Load_world_graphs elem) as [[[we w] fa] pr]. cbn.
  rewrite !length_app. cbn. repeat split; lia.
Qed.

Lemma Load_worlds_fields (elems : list ElementRef) (errors : Errors)
    (r : Root.RootPrivate) :
  let r' := snd (Root.Load_worlds elems errors r) in
  Root.version r' = Root.version r /\ Root.model r' = Root.model r
  /\ Root.light r' = Root.light r /\ Root.actor r' = Root.actor r
  /\ Root.sdf r' = Root.sdf r
  /\ Root.modelFrameAttachedToGraph r' = Root.modelFrameAttachedToGraph r
  /\ Root.modelPoseRelativeToGraph r' = Root.modelPoseRelativeToGraph r
  /\ length (Root.worldFrameAttachedToGraphs r')
     = (length (Root.worldFrameAttachedToGraphs r) + length elems)%nat
  /\ length (Root.worldPoseRelativeToGraphs r')
     = (length (Root.worldPoseRelativeToGraphs r) + length elems)%nat.
Proof.
  revert errors r. induction elems as [|elem elems IH]; intros errors r; cbn.
  - repeat split; lia.
  - pose proof (Load_world_fields elem errors r) as Hw. cbn zeta in Hw.
    destruct (Root.Load_world elem errors r) as [errors' r1]. cbn [snd] in Hw.
    specialize (IH errors' r1). cbn zeta in IH.
    destruct Hw as (Hw1 & Hw2 & Hw3 & Hw4 & Hw5 & Hw6 & Hw7 & Hfa & Hpr).
    destruct IH as (Hi1 & Hi2 & Hi3 & Hi4 & Hi5 & Hi6 & Hi7 & Hfa' & Hpr').
    repeat split; try congruence; lia.
Qed.

(** What [Root::Load] has done when it returns from a document of the
    protocol version. *)
Lemma Root_Load_inv (root : ElementRef) (r r' : Root.RootPrivate)
    (errors : Errors) (env env' : Env) :
  Get_string root "version" SDF_VERSION = (SDF_PROTOCOL_VERSION, true) ->
  Root.Load (Some root) r env = Returns (errors, r') env' ->
  let w := Root.Load_worlds (elementsFrom (GetElement root "world") "world") []
             (Root.SetVersion (Root.set_sdf r (Some root)) SDF_PROTOCOL_VERSION) in
  exists modelErrors,
    errors
    = fst w ++ modelErrors
      ++ (if HasElement root "light"
          then fst (Light_Load (GetElement root "light") Light_default) else [])
      ++ (if HasElement root "actor"
          then fst (Actor_Load (GetElement root "actor") Actor_default) else [])
    /\ Root.worlds r' = Root.worlds (snd w)
    /\ Root.worldFrameAttachedToGraphs r' = Root.worldFrameAttachedToGraphs (snd w)
    /\ Root.worldPoseRelativeToGraphs r' = Root.worldPoseRelativeToGraphs (snd w)
    /\ Root.version r' = SDF_PROTOCOL_VERSION
    /\ Root.sdf r' = Some root
    /\ Root.light r'
       = (if HasElement root "light"
          then Some (snd (Light_Load (GetElement root "light") Light_default))
          else Root.light r)
    /\ Root.actor r'
       = (if HasElement root "actor"
          then Some (snd (Actor_Load (GetElement root "actor") Actor_default))
          else Root.actor r)
    /\ (if HasElement root "model"
        then exists loadErrors m,
               Model.Load (GetElement root "model") Model.Model env
               = Returns (loadErrors, m) env'
               /\ let fa := buildFrameAttachedToGraph_Model FrameAttachedToGraph_new m in
                  let m1 := Model_SetFrameAttachedToGraph m (snd fa) in
                  let pr := buildPoseRelativeToGraph_Model PoseRelativeToGraph_new m1 in
                  modelErrors
                  = loadErrors ++ fst fa ++ validateFrameAttachedToGraph (snd fa)
                    ++ fst pr ++ validatePoseRelativeToGraph (snd pr)
                  /\ Root.model r' = Some (Model_SetPoseRelativeToGraph m1 (snd pr))
        else Root.model r' = Root.model r /\ env' = env /\ modelErrors = []).
Proof.
  intros Hver Heq. revert Heq. unfold Root.Load. rewrite Hver. cbn [fst snd negb].
  rewrite String.eqb_refl. cbn [negb].
  set (r0 := Root.SetVersion (Root.set_sdf r (Some root)) SDF_PROTOCOL_VERSION).
  assert ((if HasElement root "world"
           then Root.Load_worlds (elementsFrom (GetElement root "world") "world") [] r0
           else ([], r0))
          = Root.Load_worlds (elementsFrom (GetElement root "world") "world") [] r0)
    as ->.
  { destruct (HasElement root "world") eqn:Hw; [reflexivity|].
    rewrite (HasElement_GetElement _ _ Hw). reflexivity. }
  pose proof (Load_worlds_fields (elementsFrom (GetElement root "world") "world")
                [] r0) as Hfields.
  cbn zeta in Hfields.
  destruct (Root.Load_worlds _ [] r0) as [ew rw]. cbn [fst snd] in *.
  destruct Hfields as (Hv & Hm & Hl & Ha & Hs & _).
  intros Heq. cbn zeta. revert Heq. unfold bind.
  destruct (HasElement root "model") eqn:HM.
  - unfold Root.Load_model, bind.
    destruct (Model.Load (GetElement root "model") Model.Model env)
      as [[lm m] env1| |]; [|discriminate|discriminate].
    destruct (buildFrameAttachedToGraph_Model _ m) as [be fa] eqn:Hfa.
    destruct (buildPoseRelativeToGraph_Model _ _) as [bpe pr] eqn:Hpr.
    cbn [ret]. intros Heq.
    exists (lm ++ be ++ validateFrameAttachedToGraph fa ++ bpe
            ++ validatePoseRelativeToGraph pr).
    destruct (HasElement root "light");
      [destruct (Light_Load _ _) as [le l]|];
      (destruct (HasElement root "actor");
       [destruct (Actor_Load _ _) as [ae a]|]);
      unfold ret in Heq; injection Heq as <- <- <-;
      (split; [cbn [fst snd]; rewrite ?app_nil_r, <- ?app_assoc; reflexivity|]);
      cbn [Root.worlds Root.worldFrameAttachedToGraphs Root.worldPoseRelativeToGraphs
           Root.version Root.sdf Root.light Root.actor Root.model
           Root.set_light Root.set_actor Root.set_model fst snd];
      (repeat (split; [first [assumption|reflexivity]|]));
      (exists lm, m; split; [reflexivity|]; cbn zeta; rewrite Hfa; cbn [fst snd];
       rewrite Hpr; cbn [fst snd]; split; reflexivity).
  - cbn [ret]. intros Heq. exists [].
    destruct (HasElement root "light");
      [destruct (Light_Load _ _) as [le l]|];
      (destruct (HasElement root "actor");
       [destruct (Actor_Load _ _) as [ae a]|]);
      unfold ret in Heq; injection Heq as <- <- <-;
      (split; [cbn [fst snd app]; rewrite ?app_nil_r, <- ?app_assoc; reflexivity|]);
      cbn [Root.worlds Root.worldFrameAttachedToGraphs Root.worldPoseRelativeToGraphs
           Root.version Root.sdf Root.light Root.actor Root.model
           Root.set_light Root.set_actor Root.set_model fst snd];
      repeat split; first [assumption|reflexivity].
Qed.


Lemma Root_Load_without_model (root : ElementRef) (r : Root.RootPrivate)
    (env : Env) :
  HasElement root "model" = false ->
  exists errors r', Root.Load (Some root) r env = Returns (errors, r') env.
Proof.
  intros HM. unfold Root.Load.
  destruct (negb (snd (Get_string root "version" SDF_VERSION)));
    [eexists _, _; reflexivity|].
  destruct (negb (String.eqb _ _)); [eexists _, _; reflexivity|].
  destruct (if HasElement root "world" then _ else _) as [ew rw].
  rewrite HM. unfold bind, ret.
  destruct (HasElement root "light");
    [destruct (Light_Load _ _) as [le l]|];
    (destruct (HasElement root "actor");
     [destruct (Actor_Load _ _) as [ae a]|]);
    eexists _, _; reflexivity.
Qed.

(** X1: a document whose root has no version makes [Root::Load] return at
    once with exactly one error, [ATTRIBUTE_MISSING]: the element is stored
    and nothing else is read, loaded or written. *)
Theorem Load_without_version_single_error
    (root : ElementRef) (r : Root.RootPrivate) (env : Env) :
  snd (Get_string root "version" SDF_VERSION) = false ->
  exists r',
    Root.Load (Some root) r env
    = Returns ([mkError ATTRIBUTE_MISSING "SDF does not have a version."], r') env
    /\ Root.Element r' = Some root
    /\ Root.Version r' = Root.Version r
    /\ Root.worlds r' = Root.worlds r
    /\ Root.Model r' = Root.Model r
    /\ Root.Light r' = Root.Light r
    /\ Root.Actor r' = Root.Actor r.
Proof.
  intros Hver. exists (Root.set_sdf r (Some root)).
  split; [|repeat split].
  unfold Root.Load. rewrite Hver. reflexivity.
Qed.

(** X2: [Root::Load] stores a world for every [<world>] child of the root
    element, in the order of the document and after the worlds the root
    held before; a world is stored whether or not its load reported errors
    or its name was taken.  So the count grows by the number of [<world>]
    children. *)
Theorem Load_stores_every_world
    (root : ElementRef) (r r' : Root.RootPrivate) (errors : Errors)
    (env env' : Env) :
  Get_string root "version" SDF_VERSION = (SDF_PROTOCOL_VERSION, true) ->
  Root.Load (Some root) r env = Returns (errors, r') env' ->
  Root.worlds r'
  = Root.worlds r
    ++ List.map Root.loaded_world (elementsFrom (GetElement root "world") "world")
  /\ List.map element (elementsFrom (GetElement root "world") "world")
     = List.filter (fun c => String.eqb (tag c) "world") (children (element root))
  /\ Root.WorldCount r'
     = Root.WorldCount r
       + N.of_nat (length (List.filter (fun c => String.eqb (tag c) "world")
                                       (children (element root))))
  /\ Root.Version r' = SDF_PROTOCOL_VERSION.
Proof.
  intros Hver Hrun.
  destruct (Root_Load_inv root r r' errors env env' Hver Hrun)
    as (me & _ & Hworlds & _ & _ & Hversion & _).
  rewrite Load_worlds_worlds in Hworlds. cbn [Root.worlds Root.SetVersion Root.set_sdf] in Hworlds.
  split; [exact Hworlds|]. split; [apply elementsFrom_children|].
  split; [|exact Hversion].
  unfold Root.WorldCount. rewrite Hworlds, length_app, length_map.
  rewrite <- elementsFrom_children, length_map. lia.
Qed.

Lemma existsb_app_map {A B} (f : B -> bool) (g : A -> B) (l1 : list B) (l2 : list A) :
  existsb f (l1 ++ List.map g l2) = true
  <-> existsb f l1 = true \/ exists x, In x l2 /\ f (g x) = true.
Proof.
  rewrite existsb_app, orb_true_iff. split; intros [Hl|Hr]; try (left; exact Hl); right.
  - apply existsb_exists in Hr. destruct Hr as [y [Hin Hy]].
    apply in_map_iff in Hin. destruct Hin as [x [<- Hx]]. exists x. tauto.
  - destruct Hr as [x [Hx Hf]]. apply existsb_exists. exists (g x).
    split; [apply in_map; exact Hx|exact Hf].
Qed.

(** X3: after [Root::Load] has returned, [WorldNameExists] answers true
    for exactly the names it answered true for before and the names of the
    worlds made of the [<world>] children. *)
Theorem WorldNameExists_after_Load
    (root : ElementRef) (r r' : Root.RootPrivate) (errors : Errors)
    (env env' : Env) (n : string) :
  Get_string root "version" SDF_VERSION = (SDF_PROTOCOL_VERSION, true) ->
  Root.Load (Some root) r env = Returns (errors, r') env' ->
  Root.WorldNameExists r' n = true
  <-> Root.WorldNameExists r n = true
      \/ exists elem, In elem (elementsFrom (GetElement root "world") "world")
                      /\ World_Name (Root.loaded_world elem) = n.
Proof.
  intros Hver Hrun.
  destruct (Root_Load_inv root r r' errors env env' Hver Hrun)
    as (me & _ & Hworlds & _).
  rewrite Load_worlds_worlds in Hworlds.
  cbn [Root.worlds Root.SetVersion Root.set_sdf] in Hworlds.
  unfold Root.WorldNameExists at 1. rewrite Hworlds.
  rewrite existsb_app_map. unfold Root.WorldNameExists.
  split; (intros [Hl|[elem [Hin Hn]]]; [left; exact Hl|right; exists elem]);
    (split; [exact Hin|]).
  - apply String.eqb_eq. exact Hn.
  - apply String.eqb_eq. exact Hn.
Qed.

Lemma Load_worlds_clean (elems : list ElementRef) :
  forall (errors : Errors) (r : Root.RootPrivate),
    (forall e, In e elems -> Root.world_errors e = []) ->
    NoDup (List.map (fun e => World_Name (Root.loaded_world e)) elems) ->
    (forall e, In e elems ->
               Root.WorldNameExists r (World_Name (Root.loaded_world e)) = false) ->
    fst (Root.Load_worlds elems errors r) = errors.
Proof.
  induction elems as [|elem elems IH]; intros errors r Hclean Hnodup Hfresh;
    cbn [Root.Load_worlds]; [reflexivity|].
  pose proof (Hclean elem (or_introl eq_refl)) as Hc.
  pose proof (Hfresh elem (or_introl eq_refl)) as Hf.
  pose proof (Load_world_worlds elem errors r) as Hw.
  unfold Root.world_errors, Root.loaded_world in Hc, Hf.
  unfold Root.Load_world in *.
  destruct (Root.Load_world_graphs elem) as [[[we w] fa] pr] eqn:Hg.
  cbn [fst snd] in Hc, Hf, Hw. subst we. rewrite Hf.
  apply IH.
  - intros e He. apply Hclean. right. exact He.
  - cbn in Hnodup. apply NoDup_cons_1_2 in Hnodup. exact Hnodup.
  - intros e He. unfold Root.WorldNameExists. rewrite Hw.
    rewrite existsb_app. cbn [existsb]. rewrite orb_false_r.
    fold (Root.WorldNameExists r (World_Name (Root.loaded_world e))).
    rewrite (Hfresh e (or_intror He)). cbn [orb].
    apply String.eqb_neq. intros Heq.
    cbn in Hnodup. apply NoDup_cons_1_1 in Hnodup. apply Hnodup.
    apply list_elem_of_In. apply in_map_iff. exists e. split; [|exact He].
    symmetry. exact Heq.
Qed.

(** X4: the duplicate check does not fire without a duplicate.  A document
    of worlds only, each loading without an error of its own or of its
    graphs, with names that differ from each other and from the names the
    root already holds, is loaded without any error. *)
Theorem distinct_worlds_load_without_error
    (root : ElementRef) (r : Root.RootPrivate) (env : Env) :
  Get_string root "version" SDF_VERSION = (SDF_PROTOCOL_VERSION, true) ->
  HasElement root "model" = false ->
  HasElement root "light" = false ->
  HasElement root "actor" = false ->
  (forall e, In e (elementsFrom (GetElement root "world") "world") ->
             Root.world_errors e = []) ->
  NoDup (List.map (fun e => World_Name (Root.loaded_world e))
                  (elementsFrom (GetElement root "world") "world")) ->
  (forall e, In e (elementsFrom (GetElement root "world") "world") ->
             Root.WorldNameExists r (World_Name (Root.loaded_world e)) = false) ->
  exists r',
    Root.Load (Some root) r env = Returns ([], r') env
    /\ Root.WorldCount r'
       = Root.WorldCount r
         + N.of_nat (length (elementsFrom (GetElement root "world") "world")).
Proof.
  intros Hver HM HL HA Hclean Hnodup Hfresh.
  destruct (Root_Load_without_model root r env HM) as [errors [r' Hrun]].
  destruct (Root_Load_inv root r r' errors env env Hver Hrun)
    as (me & Herrors & Hworlds & _ & _ & _ & _ & _ & _ & Hmodel).
  rewrite HM in Hmodel. destruct Hmodel as (_ & _ & ->).
  rewrite HL, HA in Herrors. cbn [app] in Herrors. rewrite !app_nil_r in Herrors.
  rewrite Load_worlds_clean in Herrors; [|assumption|assumption|exact Hfresh].
  subst errors. exists r'. split; [exact Hrun|].
  rewrite Load_worlds_worlds in Hworlds.
  cbn [Root.worlds Root.SetVersion Root.set_sdf] in Hworlds.
  unfold Root.WorldCount. rewrite Hworlds, length_app, length_map. lia.
Qed.

Lemma Load_worlds_failed (elems : list ElementRef) (elem : ElementRef) :
  In elem elems ->
  Root.world_errors elem <> [] ->
  forall (errors : Errors) (r : Root.RootPrivate),
  exists pre post,
    fst (Root.Load_worlds elems errors r)
    = pre ++ Root.world_errors elem
      ++ [mkError ELEMENT_INVALID "Failed to load a world."] ++ post.
Proof.
  intros Hin Hfail. induction elems as [|e elems IH]; [destruct Hin|].
  intros errors r. cbn [Root.Load_worlds].
  destruct Hin as [->|Hin].
  - assert (fst (Root.Load_world elem errors r)
            = errors ++ Root.world_errors elem
              ++ [mkError ELEMENT_INVALID "Failed to load a world."]) as Hstep.
    { unfold Root.Load_world, Root.world_errors in *.
      destruct (Root.Load_world_graphs elem) as [[[we w] fa] pr]. cbn [fst snd] in *.
      destruct we as [|x we]; [congruence|reflexivity]. }
    destruct (Root.Load_world elem errors r) as [errors' r1]. cbn [fst] in Hstep.
    destruct (Load_worlds_errors elems errors' r1) as [more Hmore].
    exists errors, more. rewrite Hmore, Hstep. rewrite <- !app_assoc. reflexivity.
  - destruct (Root.Load_world e errors r) as [errors' r1]. apply (IH Hin).
Qed.

(** X5: a world that fails to load (by an error of its own or of one of
    its two graphs) is reported with all of its errors, in their order,
    followed by one [ELEMENT_INVALID] error; and it is stored among the
    worlds all the same. *)
Theorem failed_world_is_reported_and_stored
    (root elem : ElementRef) (r r' : Root.RootPrivate) (errors : Errors)
    (env env' : Env) :
  Get_string root "version" SDF_VERSION = (SDF_PROTOCOL_VERSION, true) ->
  Root.Load (Some root) r env = Returns (errors, r') env' ->
  In elem (elementsFrom (GetElement root "world") "world") ->
  Root.world_errors elem <> [] ->
  (exists pre post,
      errors = pre ++ Root.world_errors elem
               ++ [mkError ELEMENT_INVALID "Failed to load a world."] ++ post)
  /\ In (Root.loaded_world elem) (Root.worlds r')
  /\ Root.WorldNameExists r' (World_Name (Root.loaded_world elem)) = true.
Proof.
  intros Hver Hrun Hin Hfail.
  destruct (Root_Load_inv root r r' errors env env' Hver Hrun)
    as (me & Herrors & Hworlds & _).
  rewrite Load_worlds_worlds in Hworlds.
  cbn [Root.worlds Root.SetVersion Root.set_sdf] in Hworlds.
  assert (In (Root.loaded_world elem) (Root.worlds r')) as Hstored.
  { rewrite Hworlds. apply in_or_app. right. apply in_map. exact Hin. }
  split; [|split; [exact Hstored|]].
  - destruct (Load_worlds_failed _ elem Hin Hfail []
                (Root.SetVersion (Root.set_sdf r (Some root)) SDF_PROTOCOL_VERSION))
      as [pre [post Hw]].
    rewrite Hw in Herrors. eexists pre, _. rewrite Herrors.
    rewrite <- !app_assoc. reflexivity.
  - unfold Root.WorldNameExists. apply existsb_exists.
    exists (Root.loaded_world elem). split; [exact Hstored|apply String.eqb_refl].
Qed.


End RootLoad.

(** ** Reading a file or a string before [Root::Load] *)

Section RootRead.
Context `{RootCollaborators} `{!ParserCollaborators}.

(** X7: when the parser gives no document, [Root::Load] of a file name and
    [Root::LoadSdfString] return the errors of the parser followed by one
    [FILE_READ] or [STRING_READ] error, and the root is left as it was;
    when it gives one, the errors of the parser come before those of
    [Root::Load] of the document, whose root is the result. *)
Theorem read_errors_come_first
    (text : string) (r : Root.RootPrivate) (env : Env) :
  (fst (readFile text) = None ->
   Root.Load_filename text r env
   = Returns (snd (readFile text)
              ++ [mkError FILE_READ ("Unable to read file:" +:+ text)], r) env)
  /\ (fst (fst (readString text)) = false ->
      Root.LoadSdfString text r env
      = Returns (snd (readString text)
                 ++ [mkError STRING_READ ("Unable to SDF string: " +:+ text)], r) env)
  /\ (forall doc loadErrors r' env',
         fst (readFile text) = Some doc ->
         Root.Load doc r env = Returns (loadErrors, r') env' ->
         Root.Load_filename text r env
         = Returns (snd (readFile text) ++ loadErrors, r') env')
  /\ (forall loadErrors r' env',
         fst (fst (readString text)) = true ->
         Root.Load (snd (fst (readString text))) r env = Returns (loadErrors, r') env' ->
         Root.LoadSdfString text r env
         = Returns (snd (readString text) ++ loadErrors, r') env').
Proof.
  unfold Root.Load_filename, Root.LoadSdfString.
  destruct (readFile text) as [parsed fileErrors].
  destruct (readString text) as [[read doc'] stringErrors]. cbn [fst snd].
  split; [|split; [|split]].
  - intros ->. reflexivity.
  - intros ->. reflexivity.
  - intros doc loadErrors r' env' -> Hload. unfold bind. rewrite Hload. reflexivity.
  - intros loadErrors r' env' -> Hload. cbn [negb]. unfold bind.
    rewrite Hload. reflexivity.
Qed.

End RootRead.

(** ** The accessors by name *)

Section ByName.
Context `{ModelCollaborators}.

Lemma find_first {A} (f : A -> bool) (l : list A) (x : A) :
  List.find f l = Some x ->
  f x = true
  /\ exists i : nat,
       l !! i = Some x
       /\ forall (j : nat) (y : A), (j < i)%nat -> l !! j = Some y -> f y = false.
Proof.
  induction l as [|a l IH]; cbn; [discriminate|].
  destruct (f a) eqn:Hfa.
  - intros Heq. injection Heq as <-. split; [exact Hfa|].
    exists 0%nat. split; [reflexivity|]. intros j y Hj. lia.
  - intros Hfind. destruct (IH Hfind) as [Hfx [i [Hi Hbefore]]].
    split; [exact Hfx|]. exists (S i). split; [exact Hi|].
    intros [|j] y Hj; cbn.
    + intros Heq. injection Heq as <-. exact Hfa.
    + apply Hbefore. lia.
Qed.

Lemma existsb_find {A} (f : A -> bool) (l : list A) :
  existsb f l = true <-> is_Some (List.find f l).
Proof.
  induction l as [|a l IH]; cbn.
  - split; [discriminate|intros [x Hx]; discriminate].
  - destruct (f a); cbn; [|exact IH].
    split; [eexists; reflexivity|reflexivity].
Qed.

(** A vector searched by name, against the same vector read by index
    behind the bound check. *)
Lemma ByName_first_match {A} (Name : A -> string) (vec : list A) (n : string) :
  (existsb (fun x => String.eqb (Name x) n) vec = true
   <-> is_Some (List.find (fun x => String.eqb (Name x) n) vec))
  /\ (forall x,
         List.find (fun x => String.eqb (Name x) n) vec = Some x ->
         Name x = n
         /\ exists i : N,
              (if i <? N.of_nat (length vec) then vec !! N.to_nat i else None) = Some x
              /\ forall (j : N) (y : A),
                   j < i ->
                   (if j <? N.of_nat (length vec) then vec !! N.to_nat j else None)
                   = Some y ->
                   Name y <> n)
  /\ (List.find (fun x => String.eqb (Name x) n) vec = None ->
      forall (i : N) (y : A),
        (if i <? N.of_nat (length vec) then vec !! N.to_nat i else None) = Some y ->
        Name y <> n).
Proof.
  split; [apply existsb_find|]. split.
  - intros x Hfind. apply find_first in Hfind.
    destruct Hfind as [Hname [i [Hi Hbefore]]].
    split; [apply String.eqb_eq; exact Hname|].
    exists (N.of_nat i). rewrite Nat2N.id.
    assert (i < length vec)%nat as Hlt by (eapply lookup_lt_Some; exact Hi).
    assert ((N.of_nat i <? N.of_nat (length vec)) = true) as ->
      by (apply N.ltb_lt; lia).
    split; [exact Hi|].
    intros j y Hj Hy. destruct (j <? N.of_nat (length vec)); [|discriminate].
    apply String.eqb_neq. apply (Hbefore (N.to_nat j) y); [lia|exact Hy].
  - intros Hnone i y Hy.
    destruct (i <? N.of_nat (length vec)); [|discriminate].
    apply String.eqb_neq.
    apply (find_none _ _ Hnone y).
    rewrite lookup_is_nth_error in Hy. eapply nth_error_In. exact Hy.
Qed.

(** X8: [Link::VisualNameExists] and [Link::CollisionNameExists] answer
    true exactly when [VisualByName] and [CollisionByName] return an
    element; the element returned carries the name asked for and is the
    first one with that name in the order of [VisualByIndex] and
    [CollisionByIndex]; the null pointer is returned only when no element
    at any index carries the name. *)
Theorem Link_ByName_returns_first_match (l : Link.LinkPrivate) (n : string) :
  ((Link.VisualNameExists l n = true <-> is_Some (Link.VisualByName l n))
   /\ (forall v,
          Link.VisualByName l n = Some v ->
          Visual_Name v = n
          /\ exists i : N,
               Link.VisualByIndex l i = Some v
               /\ forall (j : N) (w : Visual),
                    j < i -> Link.VisualByIndex l j = Some w -> Visual_Name w <> n)
   /\ (Link.VisualByName l n = None ->
       forall (i : N) (w : Visual),
         Link.VisualByIndex l i = Some w -> Visual_Name w <> n))
  /\
  ((Link.CollisionNameExists l n = true <-> is_Some (Link.CollisionByName l n))
   /\ (forall c,
          Link.CollisionByName l n = Some c ->
          Collision_Name c = n
          /\ exists i : N,
               Link.CollisionByIndex l i = Some c
               /\ forall (j : N) (w : Collision),
                    j < i -> Link.CollisionByIndex l j = Some w ->
                    Collision_Name w <> n)
   /\ (Link.CollisionByName l n = None ->
       forall (i : N) (w : Collision),
         Link.CollisionByIndex l i = Some w -> Collision_Name w <> n)).
Proof.
  split.
  - exact (ByName_first_match Visual_Name (Link.visuals l) n).
  - exact (ByName_first_match Collision_Name (Link.collisions l) n).
Qed.

(** X9: the same for the links and joints of a model. *)
Theorem Model_ByName_returns_first_match (m : Model.ModelPrivate) (n : string) :
  ((Model.LinkNameExists m n = true <-> is_Some (Model.LinkByName m n))
   /\ (forall l,
          Model.LinkByName m n = Some l ->
          Link.Name l = n
          /\ exists i : N,
               Model.LinkByIndex m i = Some l
               /\ forall (j : N) (w : Link.LinkPrivate),
                    j < i -> Model.LinkByIndex m j = Some w -> Link.Name w <> n)
   /\ (Model.LinkByName m n = None ->
       forall (i : N) (w : Link.LinkPrivate),
         Model.LinkByIndex m i = Some w -> Link.Name w <> n))
  /\
  ((Model.JointNameExists m n = true <-> is_Some (Model.JointByName m n))
   /\ (forall j0,
          Model.JointByName m n = Some j0 ->
          Joint_Name j0 = n
          /\ exists i : N,
               Model.JointByIndex m i = Some j0
               /\ forall (j : N) (w : Joint),
                    j < i -> Model.JointByIndex m j = Some w -> Joint_Name w <> n)
   /\ (Model.JointByName m n = None ->
       forall (i : N) (w : Joint),
         Model.JointByIndex m i = Some w -> Joint_Name w <> n)).
Proof.
  split.
  - exact (ByName_first_match Link.Name (Model.links m) n).
  - exact (ByName_first_match Joint_Name (Model.joints m) n).
Qed.

End ByName.

(** ** The whole of [Link::Load] *)

Section LinkLoad.
Context `{LinkCollaborators}.

Lemma bind_Returns {A B} (m : Exec A) (k : A -> Exec B) (env env' : Env) (b : B) :
  bind m k env = Returns b env' ->
  exists a env1, m env = Returns a env1 /\ k a env1 = Returns b env'.
Proof.
  unfold bind. destruct (m env) as [a env1| |]; [|discriminate|discriminate].
  intros Hk. exists a, env1. split; [reflexivity|exact Hk].
Qed.

(** The registration block returns the link with the graph pointer set. *)
Lemma Load_frameGraph_result (gp : GraphPtr) (this this' : Link.LinkPrivate)
    (env env' : Env) :
  Link.Load_frameGraph gp this env = Returns this' env' ->
  this' = Link.set_frameGraph this (Some gp).
Proof.
  unfold Link.Load_frameGraph. intros Hrun.
  apply bind_Returns in Hrun. destruct Hrun as (vert & env1 & _ & Hrun).
  apply bind_Returns in Hrun. destruct Hrun as (g & env2 & _ & Hrun).
  apply bind_Returns in Hrun. destruct Hrun as (pid & env3 & _ & Hrun).
  apply bind_Returns in Hrun. destruct Hrun as (e1 & env4 & _ & Hrun).
  apply bind_Returns in Hrun. destruct Hrun as (e2 & env5 & _ & Hrun).
  unfold ret in Hrun. injection Hrun as <- _. reflexivity.
Qed.

(** The inertial part reads the element and the inertial of the link, and
    names the link in its message. *)
Lemma Load_inertial_fields (e : ElementRef) (this : Link.LinkPrivate) :
  let r := snd (Link.Load_inertial e this) in
  Link.name r = Link.name this /\ Link.pose r = Link.pose this
  /\ Link.poseFrame r = Link.poseFrame this
  /\ Link.visuals r = Link.visuals this
  /\ Link.collisions r = Link.collisions this
  /\ Link.frameGraph r = Link.frameGraph this
  /\ Link.sdf r = Link.sdf this.
Proof.
  unfold Link.Load_inertial.
  destruct (match GetElement e "inertial" with Some _ => _ | None => _ end)
    as [[[mass xxyyzz] xyxzyz] inertiaPose].
  destruct (Inertiald_SetMassMatrix _ _ _ _) as [valid inertial1].
  cbn. repeat split.
Qed.

Lemma Load_inertial_same (e : ElementRef) (this this2 : Link.LinkPrivate) :
  Link.inertial this = Link.inertial this2 ->
  Link.name this = Link.name this2 ->
  fst (Link.Load_inertial e this) = fst (Link.Load_inertial e this2)
  /\ Link.inertial (snd (Link.Load_inertial e this))
     = Link.inertial (snd (Link.Load_inertial e this2)).
Proof.
  intros Hi Hn. unfold Link.Load_inertial, Link.Name. rewrite Hi, Hn.
  destruct (match GetElement e "inertial" with Some _ => _ | None => _ end)
    as [[[mass xxyyzz] xyxzyz] inertiaPose].
  destruct (Inertiald_SetMassMatrix _ _ _ _) as [valid inertial1].
  cbn. split; reflexivity.
Qed.

(** What [Link::Load] has done when it returns from a [<link>]. *)
Lemma Link_Load_inv (e : ElementRef) (fg : option GraphPtr)
    (l l' : Link.LinkPrivate) (errors : Errors) (env env' : Env) :
  GetName e = "link" ->
  Link.Load (Some e) fg l env = Returns (errors, l') env' ->
  let named := fst (loadName e (Link.name l)) in
  let n := snd (loadName e (Link.name l)) in
  let p := snd (fst (loadPose e (Link.pose l) (Link.poseFrame l))) in
  let f := snd (loadPose e (Link.pose l) (Link.poseFrame l)) in
  Link.name l' = n
  /\ Link.pose l' = p
  /\ Link.poseFrame l'
     = match parent e with
       | Some par => if String.eqb f "" then fst (Element_Get par "name" "") else f
       | None => f
       end
  /\ Link.sdf l' = Some e
  /\ Link.frameGraph l'
     = match fg with Some gp => Some gp | None => Link.frameGraph l end
  /\ Link.inertial l' = Link.inertial (snd (Link.Load_inertial e l))
  /\ exists vis coll env1 env2,
       loadUniqueRepeated Visual Visual_default Visual_Load Visual_Name
         e "visual" (Link.visuals l) fg env1 = Returns vis env2
       /\ loadUniqueRepeated Collision Collision_default Collision_Load
            Collision_Name e "collision" (Link.collisions l) fg env2
          = Returns coll env'
       /\ (fg = None -> env1 = env)
       /\ Link.visuals l' = snd vis
       /\ Link.collisions l' = snd coll
       /\ errors
          = (if named then []
             else [mkError ATTRIBUTE_MISSING
                     "A link name is required, but the name is not set."])
            ++ fst vis ++ fst coll ++ fst (Link.Load_inertial e (Link.SetName l n)).
Proof.
  intros Htag. unfold Link.Load. rewrite Htag, String.eqb_refl. cbn [negb].
  cbn [Link.set_sdf Link.name].
  destruct (loadName e (Link.name l)) as [named n] eqn:Hname.
  cbn [Link.set_sdf Link.SetName Link.name Link.pose Link.poseFrame].
  destruct (loadPose e (Link.pose l) (Link.poseFrame l)) as [[found p] f] eqn:Hpose.
  cbn [fst snd].
  set (this1 := match parent e with
                | Some par => _
                | None => _
                end).
  intros Hrun.
  apply bind_Returns in Hrun. destruct Hrun as (this2 & env1 & Hgraph & Hrun).
  apply bind_Returns in Hrun. destruct Hrun as (vis & env2 & Hvis & Hrun).
  apply bind_Returns in Hrun. destruct Hrun as (coll & env3 & Hcoll & Hrun).
  assert (this2 = match fg with
                  | Some gp => Link.set_frameGraph this1 (Some gp)
                  | None => this1
                  end) as Hthis2.
  { destruct fg as [gp|].
    - eapply Load_frameGraph_result. exact Hgraph.
    - unfold ret in Hgraph. injection Hgraph as <- _. reflexivity. }
  set (this4 := Link.set_collisions (Link.set_visuals this2 (snd vis)) (snd coll)) in *.
  pose proof (Load_inertial_fields e this4) as Hfields. cbn zeta in Hfields.
  assert (Link.inertial this4 = Link.inertial l /\ Link.name this4 = n
          /\ Link.pose this4 = p /\ Link.sdf this4 = Some e
          /\ Link.frameGraph this4
             = match fg with Some gp => Some gp | None => Link.frameGraph l end
          /\ Link.poseFrame this4
             = match parent e with
               | Some par => if String.eqb f "" then fst (Element_Get par "name" "") else f
               | None => f
               end) as (Hi4 & Hn4 & Hp4 & Hs4 & Hg4 & Hf4).
  { unfold this4. rewrite Hthis2. unfold this1.
    destruct fg as [gp|]; destruct (parent e) as [par|]; cbn;
      try destruct (String.eqb f ""); cbn; repeat split. }
  pose proof (Load_inertial_same e this4 (Link.SetName l n) Hi4 Hn4) as [Hie _].
  pose proof (Load_inertial_same e this4 l Hi4) as Hii.
  destruct (Link.Load_inertial e this4) as [inertiaErrors this5] eqn:Hin.
  cbn [fst snd] in *.
  assert (Link.visuals this2 = Link.visuals l
          /\ Link.collisions (Link.set_visuals this2 (snd vis)) = Link.collisions l
          /\ Link.visuals this4 = snd vis /\ Link.collisions this4 = snd coll)
    as (Hv2 & Hc2 & Hv4 & Hc4).
  { unfold this4. rewrite Hthis2. unfold this1.
    destruct fg as [gp|]; destruct (parent e) as [par|]; cbn;
      try destruct (String.eqb f ""); cbn; repeat split. }
  rewrite Hv2 in Hvis. rewrite Hc2 in Hcoll.
  assert (fg = None -> env1 = env) as Henv1.
  { intros ->. unfold ret in Hgraph. injection Hgraph as _ <-. reflexivity. }
  unfold ret in Hrun. injection Hrun as <- <- <-.
  destruct Hfields as (F1 & F2 & F3 & F4 & F5 & F6 & F7).
  split; [congruence|]. split; [congruence|]. split; [congruence|].
  split; [congruence|]. split; [congruence|]. split.
  - clear Hie.
    unfold Link.Load_inertial in *.
    rewrite Hi4 in Hin.
    destruct (match GetElement e "inertial" with Some _ => _ | None => _ end)
      as [[[mass xxyyzz] xyxzyz] inertiaPose].
    destruct (Inertiald_SetMassMatrix _ _ _ _) as [valid inertial1].
    injection Hin as _ <-. reflexivity.
  - exists vis, coll, env1, env2.
    split; [exact Hvis|]. split; [exact Hcoll|]. split; [exact Henv1|].
    split; [congruence|]. split; [congruence|].
    rewrite <- Hie, <- !app_assoc. reflexivity.
Qed.


(** X10: a [<link>] that [Link::Load] returns from has the name and the
    pose that [loadName] and [loadPose] read from the element, and the
    element itself; when the pose read carries no frame and the element has
    a parent, the pose frame is the [name] attribute of the parent. *)
Theorem Link_Load_places_link_in_parent_frame
    (e : ElementRef) (fg : option GraphPtr) (l l' : Link.LinkPrivate)
    (errors : Errors) (env env' : Env) :
  GetName e = "link" ->
  Link.Load (Some e) fg l env = Returns (errors, l') env' ->
  Link.Name l' = snd (loadName e (Link.name l))
  /\ (forall fuel env2,
         Link.Pose fuel l' "" env2
         = Returns (snd (fst (loadPose e (Link.pose l) (Link.poseFrame l)))) env2)
  /\ Link.PoseFrame l'
     = (let f := snd (loadPose e (Link.pose l) (Link.poseFrame l)) in
        match parent e with
        | Some par => if String.eqb f "" then fst (Element_Get par "name" "") else f
        | None => f
        end)
  /\ Link.Element l' = Some e.
Proof.
  intros Htag Hrun.
  destruct (Link_Load_inv e fg l l' errors env env' Htag Hrun)
    as (Hn & Hp & Hf & Hs & _).
  split; [exact Hn|]. split; [|split; [exact Hf|exact Hs]].
  intros fuel env2. unfold Link.Pose. cbn. rewrite Hp. reflexivity.
Qed.

Lemma Load_inertial_errors (e : ElementRef) (this : Link.LinkPrivate) :
  let massMatrix :=
    match GetElement e "inertial" with
    | Some inertialElem =>
        let mass := Get_double inertialElem "mass" Double_1 in
        match GetElement inertialElem "inertia" with
        | Some inertiaElem =>
            (mass,
             (Get_double inertiaElem "ixx" Double_1,
              Get_double inertiaElem "iyy" Double_1,
              Get_double inertiaElem "izz" Double_1),
             (Get_double inertiaElem "ixy" Double_0,
              Get_double inertiaElem "ixz" Double_0,
              Get_double inertiaElem "iyz" Double_0))
        | None => (mass, (Double_1, Double_1, Double_1), (Double_0, Double_0, Double_0))
        end
    | None => (Double_1, (Double_1, Double_1, Double_1), (Double_0, Double_0, Double_0))
    end in
  fst (Link.Load_inertial e this)
  = (if fst (Inertiald_SetMassMatrix (Link.inertial this) (fst (fst massMatrix))
               (snd (fst massMatrix)) (snd massMatrix))
     then []
     else [mkError LINK_INERTIA_INVALID
             ("A link named " +:+ Link.Name this +:+ " has invalid inertia.")]).
Proof.
  unfold Link.Load_inertial.
  destruct (GetElement e "inertial") as [inertialElem|].
  - destruct (GetElement inertialElem "inertia") as [inertiaElem|];
      cbn [fst snd];
      destruct (Inertiald_SetMassMatrix _ _ _ _) as [[|] inertial1]; reflexivity.
  - cbn [fst snd].
    destruct (Inertiald_SetMassMatrix _ _ _ _) as [[|] inertial1]; reflexivity.
Qed.

(** X11: the errors of [Link::Load], when it returns from a [<link>], are
    exactly these, in this order: the [ATTRIBUTE_MISSING] error if
    [loadName] failed; the errors that [loadUniqueRepeated] returns for
    the visuals; those it returns for the collisions, run where the
    visuals left off; and one [LINK_INERTIA_INVALID] error, which names the
    link, exactly when [SetMassMatrix] refuses the mass matrix read from
    the element (mass [1], moments [1 1 1] and products [0 0 0] where the
    element gives none).  So neither a missing name nor an invalid inertia
    ends the load: the children are loaded and stored all the same. *)
Theorem Link_Load_reports_name_and_inertia
    (e : ElementRef) (fg : option GraphPtr) (l l' : Link.LinkPrivate)
    (errors : Errors) (env env' : Env) :
  GetName e = "link" ->
  Link.Load (Some e) fg l env = Returns (errors, l') env' ->
  let massMatrix :=
    match GetElement e "inertial" with
    | Some inertialElem =>
        let mass := Get_double inertialElem "mass" Double_1 in
        match GetElement inertialElem "inertia" with
        | Some inertiaElem =>
            (mass,
             (Get_double inertiaElem "ixx" Double_1,
              Get_double inertiaElem "iyy" Double_1,
              Get_double inertiaElem "izz" Double_1),
             (Get_double inertiaElem "ixy" Double_0,
              Get_double inertiaElem "ixz" Double_0,
              Get_double inertiaElem "iyz" Double_0))
        | None => (mass, (Double_1, Double_1, Double_1), (Double_0, Double_0, Double_0))
        end
    | None => (Double_1, (Double_1, Double_1, Double_1), (Double_0, Double_0, Double_0))
    end in
  exists vis coll env1 env2,
    loadUniqueRepeated Visual Visual_default Visual_Load Visual_Name
      e "visual" (Link.visuals l) fg env1 = Returns vis env2
    /\ loadUniqueRepeated Collision Collision_default Collision_Load
         Collision_Name e "collision" (Link.collisions l) fg env2
       = Returns coll env'
    /\ (fg = None -> env1 = env)
    /\ Link.visuals l' = snd vis
    /\ Link.collisions l' = snd coll
    /\ errors
       = (if fst (loadName e (Link.name l)) then []
          else [mkError ATTRIBUTE_MISSING
                  "A link name is required, but the name is not set."])
         ++ fst vis ++ fst coll
         ++ (if fst (Inertiald_SetMassMatrix (Link.Inertial l) (fst (fst massMatrix))
                       (snd (fst massMatrix)) (snd massMatrix))
             then []
             else [mkError LINK_INERTIA_INVALID
                     ("A link named " +:+ Link.Name l' +:+ " has invalid inertia.")]).
Proof.
  intros Htag Hrun massMatrix.
  destruct (Link_Load_inv e fg l l' errors env env' Htag Hrun)
    as (Hn & _ & _ & _ & _ & _ & vis & coll & env1 & env2
        & Hvis & Hcoll & Henv1 & Hv & Hc & Herrors).
  exists vis, coll, env1, env2.
  split; [exact Hvis|]. split; [exact Hcoll|]. split; [exact Henv1|].
  split; [exact Hv|]. split; [exact Hc|].
  rewrite Herrors.
  rewrite (Load_inertial_errors e (Link.SetName l (snd (loadName e (Link.name l))))).
  unfold Link.Name, Link.Inertial. rewrite Hn. reflexivity.
Qed.

(** X12: the inertial of a link after [Link::Load].  Without an
    [<inertial>] element the link's inertial is given mass [1], moments
    [1 1 1], products [0 0 0] and the zero pose; with an [<inertial>] that
    has neither [<inertia>] nor [<pose>], the mass is the one read and
    the rest is the same. *)
Theorem Link_Load_default_inertial
    (e : ElementRef) (fg : option GraphPtr) (l l' : Link.LinkPrivate)
    (errors : Errors) (env env' : Env) :
  GetName e = "link" ->
  Link.Load (Some e) fg l env = Returns (errors, l') env' ->
  (GetElement e "inertial" = None ->
   Link.Inertial l'
   = Inertiald_SetPose
       (snd (Inertiald_SetMassMatrix (Link.Inertial l) Double_1
               (Double_1, Double_1, Double_1) (Double_0, Double_0, Double_0)))
       Pose3d_Zero)
  /\ (forall inertialElem,
         GetElement e "inertial" = Some inertialElem ->
         GetElement inertialElem "inertia" = None ->
         GetElement inertialElem "pose" = None ->
         Link.Inertial l'
         = Inertiald_SetPose
             (snd (Inertiald_SetMassMatrix (Link.Inertial l)
                     (Get_double inertialElem "mass" Double_1)
                     (Double_1, Double_1, Double_1) (Double_0, Double_0, Double_0)))
             Pose3d_Zero).
Proof.
  intros Htag Hrun.
  destruct (Link_Load_inv e fg l l' errors env env' Htag Hrun)
    as (_ & _ & _ & _ & _ & Hi & _).
  unfold Link.Inertial. rewrite Hi. unfold Link.Load_inertial. split.
  - intros ->.
    destruct (Inertiald_SetMassMatrix _ _ _ _) as [valid inertial1]. reflexivity.
  - intros inertialElem -> -> ->.
    destruct (Inertiald_SetMassMatrix _ _ _ _) as [valid inertial1]. reflexivity.
Qed.

(** X13: a link loaded without a frame graph has none: every later
    [Link::Pose] with a frame name dereferences the null pointer, and only
    the empty frame name gives a pose, the one read. *)
Theorem Link_Load_without_graph_resolves_no_frame
    (e : ElementRef) (l l' : Link.LinkPrivate) (errors : Errors) (env env' : Env) :
  GetName e = "link" ->
  Link.frameGraph l = None ->
  Link.Load (Some e) None l env = Returns (errors, l') env' ->
  (forall fuel _frame env2,
      _frame <> "" -> Link.Pose fuel l' _frame env2 = Undefined)
  /\ (forall fuel env2, Link.Pose fuel l' "" env2 = Returns (Link.pose l') env2).
Proof.
  intros Htag Hnone Hrun.
  destruct (Link_Load_inv e None l l' errors env env' Htag Hrun)
    as (_ & _ & _ & _ & Hg & _).
  rewrite Hnone in Hg. split.
  - intros fuel _frame env2 Hframe. unfold Link.Pose.
    rewrite (proj2 (String.eqb_neq _ _) Hframe).
    unfold bind, deref. rewrite Hg. reflexivity.
  - reflexivity.
Qed.

Lemma filter_snoc_false {A} (f : A -> bool) (l : list A) (x : A) :
  f x = false -> List.filter f (l ++ [x]) = List.filter f l.
Proof.
  intros Hx. rewrite List.filter_app. cbn. rewrite Hx. apply app_nil_r.
Qed.

(** [AddVertex] adds no vertex of another name, whether it adds or
    refuses. *)
Lemma AddVertex_Vertices_other (g : Graph.FrameGraph) (name other : string)
    (data : Matrix4d) :
  other <> name ->
  Graph.Vertices (snd (fst (Graph.AddVertex g name data))) other
  = Graph.Vertices g other.
Proof.
  intros Hne. unfold Graph.AddVertex.
  destruct (Graph.NextVertexId g =? kNullId); [reflexivity|].
  destruct (Graph.findVertex g (Graph.NextVertexId g)); [reflexivity|].
  unfold Graph.Vertices. cbn [fst snd Graph.vertices].
  apply filter_snoc_false. cbn. apply String.eqb_neq. congruence.
Qed.

(** X14: [Link::Load] with a frame graph in which no vertex carries the
    name of the link's pose frame (and the link is not its own pose frame)
    takes [begin()] of an empty map of vertices and dereferences it: the
    call has no defined result. *)
Theorem Link_Load_unknown_pose_frame_undefined
    (e : ElementRef) (gp : GraphPtr) (l : Link.LinkPrivate) (env : Env)
    (g : Graph.FrameGraph) :
  GetName e = "link" ->
  store env !! gp = Some g ->
  let n := snd (loadName e (Link.name l)) in
  let f := snd (loadPose e (Link.pose l) (Link.poseFrame l)) in
  let poseFrame :=
    match parent e with
    | Some par => if String.eqb f "" then fst (Element_Get par "name" "") else f
    | None => f
    end in
  Graph.Vertices g poseFrame = [] ->
  poseFrame <> n ->
  Link.Load (Some e) (Some gp) l env = Undefined.
Proof.
  intros Htag Hg n f poseFrame Hnone Hne.
  unfold Link.Load. rewrite Htag, String.eqb_refl. cbn [negb].
  cbn [Link.set_sdf Link.name].
  subst n f. destruct (loadName e (Link.name l)) as [named n].
  cbn [Link.set_sdf Link.SetName Link.name Link.pose Link.poseFrame].
  destruct (loadPose e (Link.pose l) (Link.poseFrame l)) as [[found p] f].
  cbn [fst snd] in *.
  set (this1 := match parent e with
                | Some par => _
                | None => _
                end).
  assert (Link.name this1 = n /\ Link.poseFrame this1 = poseFrame) as [Hn Hf].
  { unfold this1, poseFrame. destruct (parent e) as [par|]; cbn;
      try destruct (String.eqb f ""); cbn; split; reflexivity. }
  assert (Link.Load_frameGraph gp this1 env = Undefined) as Hblock.
  { unfold Link.Load_frameGraph. rewrite Hn, Hf.
    unfold bind at 1. unfold AddVertex. unfold bind at 1. unfold deref.
    rewrite Hg.
    pose proof (AddVertex_Vertices_other g n poseFrame
                  (Matrix4d_of_Pose (Link.pose this1)) Hne) as Hsame.
    destruct (Graph.AddVertex g n (Matrix4d_of_Pose (Link.pose this1)))
      as [[v g1] ns]. cbn [fst snd] in Hsame.
    unfold bind, assign, notes, to_cerr, ret. cbn [store cout cerr].
    rewrite (lookup_insert_same _ gp g g1 Hg).
    rewrite Hsame, Hnone. reflexivity. }
  unfold bind at 1. rewrite Hblock. reflexivity.
Qed.

End LinkLoad.

(** ** The loaders only add to their graph *)

Section Growth.
Context `{ModelCollaborators}.

Lemma extends_refl (g : Graph.FrameGraph) : extends g g.
Proof.
  repeat split; try (exists []; rewrite app_nil_r; reflexivity); trivial.
Qed.

Lemma extends_trans (g1 g2 g3 : Graph.FrameGraph) :
  extends g1 g2 -> extends g2 g3 -> extends g1 g3.
Proof.
  intros ([vs Hv] & [es He] & Hok & Hw) ([vs' Hv'] & [es' He'] & Hok' & Hw').
  repeat split.
  - exists (vs ++ vs'). rewrite Hv', Hv, app_assoc. reflexivity.
  - exists (es ++ es'). rewrite He', He, app_assoc. reflexivity.
  - auto.
  - auto.
Qed.

Lemma AddVertex_extends (g : Graph.FrameGraph) (name : string) (data : Matrix4d) :
  extends g (snd (fst (Graph.AddVertex g name data))).
Proof.
  split; [|split; [|split]].
  - unfold Graph.AddVertex.
    destruct (Graph.NextVertexId g =? kNullId);
      [exists []; cbn; rewrite app_nil_r; reflexivity|].
    destruct (Graph.findVertex g (Graph.NextVertexId g));
      [exists []; cbn; rewrite app_nil_r; reflexivity|].
    eexists. reflexivity.
  - exists []. rewrite app_nil_r. unfold Graph.AddVertex.
    destruct (Graph.NextVertexId g =? kNullId); [reflexivity|].
    destruct (Graph.findVertex g (Graph.NextVertexId g)); reflexivity.
  - apply AddVertex_graph_ok.
  - unfold unit_weights, Graph.AddVertex.
    destruct (Graph.NextVertexId g =? kNullId); [trivial|].
    destruct (Graph.findVertex g (Graph.NextVertexId g)); trivial.
Qed.

Lemma AddEdge_extends (g : Graph.FrameGraph) (tail head : VertexId) (data : Z) :
  extends g (snd (fst (Graph.AddEdge g tail head data)))
  /\ Graph.vertices (snd (fst (Graph.AddEdge g tail head data))) = Graph.vertices g.
Proof.
  split; [split; [|split; [|split]]|].
  - exists []. rewrite app_nil_r. unfold Graph.AddEdge.
    destruct (Graph.NextEdgeId g =? kNullId); [reflexivity|].
    destruct (Graph.findVertex g tail); [|reflexivity].
    destruct (Graph.findVertex g head); reflexivity.
  - unfold Graph.AddEdge.
    destruct (Graph.NextEdgeId g =? kNullId);
      [exists []; cbn; rewrite app_nil_r; reflexivity|].
    destruct (Graph.findVertex g tail);
      [|exists []; cbn; rewrite app_nil_r; reflexivity].
    destruct (Graph.findVertex g head);
      [|exists []; cbn; rewrite app_nil_r; reflexivity].
    eexists. reflexivity.
  - apply AddEdge_graph_ok.
  - unfold unit_weights, Graph.AddEdge.
    destruct (Graph.NextEdgeId g =? kNullId); [trivial|].
    destruct (Graph.findVertex g tail); [|trivial].
    destruct (Graph.findVertex g head); [|trivial].
    cbn [fst snd Graph.edges]. intros Hw. rewrite forallb_app, Hw. reflexivity.
  - unfold Graph.AddEdge.
    destruct (Graph.NextEdgeId g =? kNullId); [reflexivity|].
    destruct (Graph.findVertex g tail); [|reflexivity].
    destruct (Graph.findVertex g head); reflexivity.
Qed.

Lemma grows_ret {A} (gp : GraphPtr) (a : A) : grows gp (ret a).
Proof.
  intros env b env' Heq. unfold ret in Heq. injection Heq as _ <-.
  repeat split. intros g Hg. exists g. split; [exact Hg|apply extends_refl].
Qed.

Lemma grows_bind {A B} (gp : GraphPtr) (m : Exec A) (k : A -> Exec B) :
  grows gp m -> (forall a, grows gp (k a)) -> grows gp (bind m k).
Proof.
  intros Hm Hk env b env' Hrun.
  apply bind_Returns in Hrun. destruct Hrun as (a & env1 & Hrun1 & Hrun2).
  destruct (Hm env a env1 Hrun1) as (Hc1 & Hl1 & Ho1 & Hg1).
  destruct (Hk a env1 b env' Hrun2) as (Hc2 & Hl2 & Ho2 & Hg2).
  split; [congruence|]. split; [congruence|]. split.
  - intros p Hp. rewrite Ho2, Ho1 by exact Hp. reflexivity.
  - intros g Hg. destruct (Hg1 g Hg) as (g1 & Hs1 & He1).
    destruct (Hg2 g1 Hs1) as (g2 & Hs2 & He2).
    exists g2. split; [exact Hs2|]. eapply extends_trans; eassumption.
Qed.

Lemma grows_deref (gp : GraphPtr) (p : option GraphPtr) : grows gp (deref p).
Proof.
  intros env g env' Heq. unfold deref in Heq.
  destruct p as [i|]; [|discriminate].
  destruct (store env !! i); [|discriminate].
  injection Heq as _ <-.
  repeat split. intros g0 Hg. exists g0. split; [exact Hg|apply extends_refl].
Qed.

Lemma grows_begin_first (gp : GraphPtr) (m : list Graph.Vertex) :
  grows gp (begin_first m).
Proof. destruct m; cbn; [intros env a env' Heq; discriminate|apply grows_ret]. Qed.

Lemma grows_AddVertex (gp : GraphPtr) (name : string) (data : Matrix4d) :
  grows gp (AddVertex gp name data).
Proof.
  intros env v env' Hrun. unfold AddVertex, bind, deref in Hrun.
  destruct (store env !! gp) as [g|] eqn:Hg; [|discriminate].
  pose proof (AddVertex_extends g name data) as Hext.
  destruct (Graph.AddVertex g name data) as [[v' g'] ns]. cbn [fst snd] in Hext.
  unfold assign, notes, to_cerr, ret in Hrun. cbn [store cout cerr] in Hrun.
  injection Hrun as _ <-. cbn [store cout cerr].
  split; [reflexivity|]. split; [apply length_insert|]. split.
  - intros p Hp. apply list_lookup_insert_ne. congruence.
  - intros g0 Hg0. exists g'. split; [eapply lookup_insert_same; exact Hg|].
    congruence.
Qed.

Lemma grows_AddEdge (gp : GraphPtr) (tail head : VertexId) (data : Z) :
  grows gp (AddEdge gp tail head data).
Proof.
  intros env v env' Hrun. unfold AddEdge, bind, deref in Hrun.
  destruct (store env !! gp) as [g|] eqn:Hg; [|discriminate].
  pose proof (AddEdge_extends g tail head data) as [Hext _].
  destruct (Graph.AddEdge g tail head data) as [[v' g'] ns]. cbn [fst snd] in Hext.
  unfold assign, notes, to_cerr, ret in Hrun. cbn [store cout cerr] in Hrun.
  injection Hrun as _ <-. cbn [store cout cerr].
  split; [reflexivity|]. split; [apply length_insert|]. split.
  - intros p Hp. apply list_lookup_insert_ne. congruence.
  - intros g0 Hg0. exists g'. split; [eapply lookup_insert_same; exact Hg|].
    congruence.
Qed.

Lemma grows_Load_frameGraph (gp : GraphPtr) (this : Link.LinkPrivate) :
  grows gp (Link.Load_frameGraph gp this).
Proof.
  unfold Link.Load_frameGraph.
  apply grows_bind; [apply grows_AddVertex|intros vert].
  apply grows_bind; [apply grows_deref|intros g].
  apply grows_bind; [apply grows_begin_first|intros parentId].
  apply grows_bind; [apply grows_AddEdge|intros _].
  apply grows_bind; [apply grows_AddEdge|intros _].
  apply grows_ret.
Qed.

Lemma grows_Load_frames (gp : GraphPtr) (elems : list ElementRef) :
  forall edgesToAdd, grows gp (Model.Load_frames gp elems edgesToAdd).
Proof.
  induction elems as [|elem elems IH]; intros edgesToAdd; cbn [Model.Load_frames].
  - apply grows_ret.
  - destruct (loadPose elem Pose3d_Zero "") as [[found poseValue] poseFrame].
    apply grows_bind; [apply grows_AddVertex|intros vert]. apply IH.
Qed.

Lemma grows_Load_edges (gp : GraphPtr) (edgesToAdd : list (Graph.Vertex * string)) :
  grows gp (Model.Load_edges gp edgesToAdd).
Proof.
  induction edgesToAdd as [|edge rest IH]; cbn [Model.Load_edges].
  - apply grows_ret.
  - apply grows_bind; [apply grows_deref|intros g].
    apply grows_bind; [apply grows_begin_first|intros parentId].
    apply grows_bind; [apply grows_AddEdge|intros _].
    apply grows_bind; [apply grows_AddEdge|intros _].
    exact IH.
Qed.

(** X15: the code of [Link::Load] and [Model::Load] that works on the
    frame graph only ever adds to it.  When the registration of a link,
    the loop over the [<frame>] elements or the loop over [edgesToAdd]
    returns, the vertices and edges that the graph had are still there, in
    place, followed by the new ones; the graph is well formed and has unit
    weights if it was and had; no other graph of the store has changed; and
    nothing was written to [std::cout]. *)
Theorem loaders_only_extend_their_graph (gp : GraphPtr) :
  (forall this : Link.LinkPrivate, grows gp (Link.Load_frameGraph gp this))
  /\ (forall elems edgesToAdd, grows gp (Model.Load_frames gp elems edgesToAdd))
  /\ (forall edgesToAdd, grows gp (Model.Load_edges gp edgesToAdd)).
Proof.
  split; [apply grows_Load_frameGraph|].
  split; [intros elems; apply grows_Load_frames|apply grows_Load_edges].
Qed.

End Growth.

(** ** The frames of [Model::Load] *)

Section ModelFrames.
Context `{ModelCollaborators}.

Lemma findVertex_app_None (g : Graph.FrameGraph) (vs : list Graph.Vertex)
    (es : list Graph.DirectedEdge) (nv ne id : N) :
  Graph.findVertex {| Graph.vertices := Graph.vertices g ++ vs; Graph.edges := es;
                      Graph.nextVertexId := nv; Graph.nextEdgeId := ne |} id = None ->
  Graph.findVertex g id = None.
Proof.
  intros Hnone. destruct (Graph.findVertex g id) as [v|] eqn:Hv; [|reflexivity].
  exfalso.
  destruct (findVertex_snoc g vs es nv ne id ltac:(eexists; exact Hv)) as [w Hw].
  congruence.
Qed.

(** X16: the loop over the [<frame>] elements of [Model::Load], where the
    ids do not run out: it adds to the graph one vertex for every element,
    in the order of the document, each under a new id and with the name
    and the pose read from the element; it adds no edge; and it returns
    these vertices, each paired with the pose frame read, after the pairs
    it was given. *)
Theorem Load_frames_adds_a_vertex_per_frame
    (gp : GraphPtr) (elems : list ElementRef) :
  forall (edgesToAdd : list (Graph.Vertex * string)) (env : Env)
         (g : Graph.FrameGraph),
    store env !! gp = Some g ->
    graph_ok g = true ->
    Graph.nextVertexId g + N.of_nat (length elems) < kNullId ->
    exists g' verts,
      Model.Load_frames gp elems edgesToAdd env
      = Returns
          (edgesToAdd
           ++ combine verts
                (List.map (fun elem => snd (loadPose elem Pose3d_Zero "")) elems))
          {| store := <[gp := g']> (store env); cout := cout env; cerr := cerr env |}
      /\ Graph.vertices g' = Graph.vertices g ++ verts
      /\ Graph.edges g' = Graph.edges g
      /\ graph_ok g' = true
      /\ List.map Graph.Name verts
         = List.map (fun elem => fst (Get_string elem "name" "")) elems
      /\ List.map Graph.Data verts
         = List.map (fun elem =>
                       Matrix4d_of_Pose (snd (fst (loadPose elem Pose3d_Zero ""))))
                    elems
      /\ (forall v, In v verts -> Graph.findVertex g (Graph.Id v) = None).
Proof.
  induction elems as [|elem elems IH]; intros edgesToAdd env g Hg Hok Hroom.
  - exists g, []. cbn. rewrite !app_nil_r. rewrite list_insert_id by exact Hg.
    destruct env. repeat split; try reflexivity; try assumption.
    intros v [].
  - cbn [Model.Load_frames length] in *.
    destruct (loadPose elem Pose3d_Zero "") as [[found poseValue] poseFrame] eqn:Hpose.
    set (frameName := fst (Get_string elem "name" "")).
    destruct (AddVertex_spec g frameName (Matrix4d_of_Pose poseValue)
                (graph_ok_vertices g Hok) ltac:(lia))
      as (id & Hadd & Hfree & Hid).
    pose proof (AddVertex_graph_ok g frameName (Matrix4d_of_Pose poseValue) Hok)
      as Hok1.
    rewrite Hadd in Hok1. cbn [fst snd] in Hok1.
    set (vert := Graph.mkVertex frameName (Matrix4d_of_Pose poseValue) id) in *.
    set (g1 := {| Graph.vertices := Graph.vertices g ++ [vert];
                  Graph.edges := Graph.edges g;
                  Graph.nextVertexId := id;
                  Graph.nextEdgeId := Graph.nextEdgeId g |}) in *.
    set (env1 := {| store := <[gp := g1]> (store env); cout := cout env;
                    cerr := cerr env |}).
    assert (AddVertex gp frameName (Matrix4d_of_Pose poseValue) env
            = Returns vert env1) as Hrun.
    { unfold AddVertex, bind, deref. rewrite Hg, Hadd.
      unfold assign, notes, to_cerr, ret. cbn [store cout cerr List.map].
      rewrite app_nil_r. reflexivity. }
    assert (store env1 !! gp = Some g1) as Hg1.
    { eapply lookup_insert_same. exact Hg. }
    assert (Graph.nextVertexId g1 + N.of_nat (length elems) < kNullId) as Hroom1.
    { cbn [g1 Graph.nextVertexId]. lia. }
    destruct (IH (edgesToAdd ++ [(vert, poseFrame)]) env1 g1 Hg1 Hok1 Hroom1)
      as (g' & verts & Hrest & Hverts & Hedges & Hok' & Hnames & Hdata & Hfresh).
    exists g', (vert :: verts).
    split; [|split; [|split; [|split; [|split; [|split]]]]].
    + unfold bind. rewrite Hrun, Hrest. cbn [store cout cerr env1 List.map combine].
      rewrite list_insert_insert_eq, <- app_assoc, Hpose. reflexivity.
    + rewrite Hverts. cbn [g1 Graph.vertices]. rewrite <- app_assoc. reflexivity.
    + rewrite Hedges. reflexivity.
    + exact Hok'.
    + cbn [List.map]. rewrite Hnames. reflexivity.
    + cbn [List.map]. rewrite Hdata, Hpose. reflexivity.
    + intros v [<-|Hin]; [exact Hfree|].
      apply (findVertex_app_None g [vert] (Graph.edges g) id (Graph.nextEdgeId g)).
      apply Hfresh. exact Hin.
Qed.

Lemma AddEdge_Returns (gp : GraphPtr) (env : Env) (g : Graph.FrameGraph)
    (tail head : VertexId) (data : Z) :
  store env !! gp = Some g ->
  exists e env' g',
    AddEdge gp tail head data env = Returns e env'
    /\ store env' !! gp = Some g'
    /\ Graph.vertices g' = Graph.vertices g.
Proof.
  intros Hg. unfold AddEdge, bind, deref. rewrite Hg.
  pose proof (AddEdge_extends g tail head data) as [_ Hverts].
  destruct (Graph.AddEdge g tail head data) as [[e g'] ns]. cbn [fst snd] in Hverts.
  unfold assign, notes, to_cerr, ret. cbn [store cout cerr].
  eexists _, _, g'. split; [reflexivity|]. cbn [store].
  split; [eapply lookup_insert_same; exact Hg|exact Hverts].
Qed.

(** X17: the loop over [edgesToAdd] of [Model::Load] has no defined result
    when one of the pairs names a pose frame that no vertex of the graph
    carries (the empty name of a frame without [relative_to] included):
    it takes [begin()] of an empty map of vertices and dereferences it. *)
Theorem Load_edges_unknown_frame_undefined
    (gp : GraphPtr) (vert : Graph.Vertex) (frame : string)
    (post : list (Graph.Vertex * string)) (pre : list (Graph.Vertex * string)) :
  forall (env : Env) (g : Graph.FrameGraph),
    store env !! gp = Some g ->
    Graph.Vertices g frame = [] ->
    Model.Load_edges gp (pre ++ (vert, frame) :: post) env = Undefined.
Proof.
  induction pre as [|[v0 f0] pre IH]; intros env g Hg Hnone.
  - cbn [app Model.Load_edges fst snd]. unfold bind at 1. unfold deref. rewrite Hg.
    rewrite Hnone. reflexivity.
  - cbn [app Model.Load_edges fst snd]. unfold bind at 1. unfold deref. rewrite Hg.
    destruct (Graph.Vertices g f0) as [|pv pvs]; [reflexivity|].
    unfold bind at 1. cbn [begin_first ret].
    destruct (AddEdge_Returns gp env g (Graph.Id pv) (Graph.Id v0) (-1) Hg)
      as (e1 & env1 & g1 & Hrun1 & Hg1 & Hv1).
    unfold bind at 1. rewrite Hrun1.
    destruct (AddEdge_Returns gp env1 g1 (Graph.Id v0) (Graph.Id pv) 1 Hg1)
      as (e2 & env2 & g2 & Hrun2 & Hg2 & Hv2).
    unfold bind at 1. rewrite Hrun2.
    apply (IH env2 g2 Hg2). unfold Graph.Vertices in *. rewrite Hv2, Hv1. exact Hnone.
Qed.

(** What [Model::Load] has done when it returns from a [<model>]. *)
Lemma Model_Load_inv (e : ElementRef) (m m' : Model.ModelPrivate)
    (errors : Errors) (env env' : Env) :
  GetName e = "model" ->
  Model.Load (Some e) m env = Returns (errors, m') env' ->
  Model.name m' = snd (loadName e (Model.name m))
  /\ Model.isStatic m' = fst (Get_bool e "static" false)
  /\ Model.selfCollide m' = fst (Get_bool e "self_collide" false)
  /\ Model.allowAutoDisable m' = fst (Get_bool e "allow_auto_disable" true)
  /\ Model.enableWind m' = fst (Get_bool e "enable_wind" false)
  /\ Model.pose m' = snd (fst (loadPose e (Model.pose m) ""))
  /\ Model.sdf m' = Some e
  /\ is_Some (Model.frameGraph m')
  /\ exists children,
       errors
       = (if fst (loadName e (Model.name m)) then []
          else [mkError ATTRIBUTE_MISSING
                  "A model name is required, but the name is not set."])
         ++ children.
Proof.
  intros Htag Hrun. unfold Model.Load in Hrun.
  apply bind_Returns in Hrun. destruct Hrun as (m1 & env1 & Hfirst & Hrun).
  assert (Model.name m1 = Model.name m /\ Model.pose m1 = Model.pose m
          /\ is_Some (Model.frameGraph m1)) as (Hn1 & Hp1 & Hg1).
  { destruct (Model.frameGraph m) as [gp|] eqn:Hfg.
    - unfold ret in Hfirst. injection Hfirst as <- _.
      rewrite Hfg. repeat split. eexists. reflexivity.
    - apply bind_Returns in Hfirst. destruct Hfirst as (gp & env0 & _ & Hfirst).
      unfold ret in Hfirst. injection Hfirst as <- _. cbn.
      repeat split. eexists. reflexivity. }
  destruct Hg1 as [gp Hgp].
  cbn [Model.set_sdf Model.frameGraph] in Hrun. rewrite Hgp in Hrun.
  rewrite Htag, String.eqb_refl in Hrun. cbn [negb] in Hrun.
  cbn [Model.set_sdf Model.name] in Hrun. rewrite Hn1 in Hrun.
  destruct (loadName e (Model.name m)) as [named n].
  cbn [Model.SetName Model.SetStatic Model.SetSelfCollide Model.SetAllowAutoDisable
       Model.SetEnableWind Model.pose Model.set_sdf] in Hrun.
  rewrite Hp1 in Hrun.
  destruct (loadPose e (Model.pose m) "") as [[found p] f].
  apply bind_Returns in Hrun. destruct Hrun as (v & env2 & _ & Hrun).
  apply bind_Returns in Hrun. destruct Hrun as (edgesToAdd & env3 & _ & Hrun).
  apply bind_Returns in Hrun. destruct Hrun as (ls & env4 & _ & Hrun).
  apply bind_Returns in Hrun. destruct Hrun as (js & env5 & _ & Hrun).
  apply bind_Returns in Hrun. destruct Hrun as (u & env6 & _ & Hrun).
  unfold ret in Hrun. injection Hrun as <- <- _. cbn [fst snd].
  cbn. rewrite Hgp. repeat split.
  - eexists. reflexivity.
  - exists (fst ls ++ fst js). rewrite <- app_assoc. reflexivity.
Qed.

(** X18: a [<model>] that [Model::Load] returns from has the name and the
    pose read by [loadName] and [loadPose], and the four flags as the
    element gives them, each with its default where the element gives
    none ([false], [false], [true], [false]), whatever they were before;
    a missing name is reported first, with [ATTRIBUTE_MISSING], and does
    not stop the load. *)
Theorem Model_Load_reads_name_flags_and_pose
    (e : ElementRef) (m m' : Model.ModelPrivate) (errors : Errors)
    (env env' : Env) :
  GetName e = "model" ->
  Model.Load (Some e) m env = Returns (errors, m') env' ->
  Model.Name m' = snd (loadName e (Model.name m))
  /\ Model.Static m' = fst (Get_bool e "static" false)
  /\ Model.SelfCollide m' = fst (Get_bool e "self_collide" false)
  /\ Model.AllowAutoDisable m' = fst (Get_bool e "allow_auto_disable" true)
  /\ Model.EnableWind m' = fst (Get_bool e "enable_wind" false)
  /\ Model.pose m' = snd (fst (loadPose e (Model.pose m) ""))
  /\ Model.Element m' = Some e
  /\ (forall key default,
         snd (Get_bool e key default) = false -> fst (Get_bool e key default) = default)
  /\ exists children,
       errors
       = (if fst (loadName e (Model.name m)) then []
          else [mkError ATTRIBUTE_MISSING
                  "A model name is required, but the name is not set."])
         ++ children.
Proof.
  intros Htag Hrun.
  destruct (Model_Load_inv e m m' errors env env' Htag Hrun)
    as (Hn & Hs & Hsc & Ha & Hw & Hp & Hsdf & _ & Herrors).
  repeat (split; [assumption|]). split; [|exact Herrors].
  intros key default. unfold Get_bool.
  destruct (Element_Get (element e) key "") as [v [|]]; cbn; [discriminate|reflexivity].
Qed.

End ModelFrames.

(** ** The search of [Link::Pose] ends *)

Section SearchEnds.
Context `{LinkCollaborators}.

Lemma Dijkstra_relax_fold (u : VertexId) (es : list Graph.DirectedEdge) :
  forall dist pq,
    Graph.Dijkstra_relax u es dist pq = fold_left (relax_one u) es (dist, pq).
Proof.
  induction es as [|e es IH]; intros dist pq; cbn [Graph.Dijkstra_relax fold_left].
  - reflexivity.
  - unfold relax_one at 2. cbn [fst snd].
    destruct (Cost_gt _ _); apply IH.
Qed.

Lemma finite_at_set (dist : Graph.DistMap) (v k : VertexId) (c : N) (p : VertexId) :
  finite_at (Graph.dist_set dist v (Finite c, p)) k
  = if k =? v then true else finite_at dist k.
Proof.
  unfold finite_at. destruct (k =? v) eqn:Hk.
  - apply N.eqb_eq in Hk. subst k. rewrite dist_find_set. reflexivity.
  - apply N.eqb_neq in Hk. rewrite dist_find_set_other by exact Hk. reflexivity.
Qed.

Lemma length_pq_push (x : Graph.CostInfo) (pq : list Graph.CostInfo) :
  length (Graph.pq_push x pq) = S (length pq).
Proof.
  induction pq as [|y pq IH]; cbn; [reflexivity|].
  destruct (Graph.CostInfo_le x y); cbn; [reflexivity|]. rewrite IH. reflexivity.
Qed.

Lemma pq_push_In (x y : Graph.CostInfo) (pq : list Graph.CostInfo) :
  In x (Graph.pq_push y pq) <-> x = y \/ In x pq.
Proof.
  split; [apply In_pq_push|].
  induction pq as [|z pq IH]; cbn.
  - intros [->|[]]. left. reflexivity.
  - destruct (Graph.CostInfo_le y z); cbn.
    + intros [->|[->|Hin]]; auto.
    + intros [->|[->|Hin]]; auto.
Qed.

(** The settled vertices after a cost has been set. *)
Lemma settled_set (g : Graph.FrameGraph) (dist : Graph.DistMap)
    (v : VertexId) (c : N) (p : VertexId) :
  (settled g dist <= settled g (Graph.dist_set dist v (Finite c, p)))%nat
  /\ (finite_at dist v = false -> is_Some (Graph.findVertex g v) ->
      (settled g dist < settled g (Graph.dist_set dist v (Finite c, p)))%nat).
Proof.
  unfold settled.
  assert (forall l : list Graph.Vertex,
             (length (List.filter (fun w => finite_at dist (Graph.Id w)) l)
              <= length (List.filter
                           (fun w => finite_at (Graph.dist_set dist v (Finite c, p))
                                       (Graph.Id w)) l))%nat
             /\ (finite_at dist v = false ->
                 (exists w, In w l /\ Graph.Id w = v) ->
                 (length (List.filter (fun w => finite_at dist (Graph.Id w)) l)
                  < length (List.filter
                              (fun w => finite_at (Graph.dist_set dist v (Finite c, p))
                                          (Graph.Id w)) l))%nat)) as Hl.
  { induction l as [|w l [IHle IHlt]]; cbn [List.filter].
    - split; [lia|]. intros _ [w [[] _]].
    - rewrite finite_at_set. destruct (Graph.Id w =? v) eqn:Hw.
      + apply N.eqb_eq in Hw. split.
        * destruct (finite_at dist (Graph.Id w)); cbn [length]; lia.
        * intros Hv _. rewrite Hw, Hv. cbn [length]. lia.
      + apply N.eqb_neq in Hw. split.
        * destruct (finite_at dist (Graph.Id w)); cbn [length]; lia.
        * intros Hv [w' [[<-|Hin] Hid]]; [congruence|].
          specialize (IHlt Hv (ex_intro _ w' (conj Hin Hid))).
          destruct (finite_at dist (Graph.Id w)); cbn [length]; lia. }
  split; [apply Hl|].
  intros Hv [w Hw]. apply Hl; [exact Hv|].
  apply findVertex_Some in Hw. exists w. exact Hw.
Qed.

Lemma settled_le (g : Graph.FrameGraph) (dist : Graph.DistMap) :
  (settled g dist <= length (Graph.vertices g))%nat.
Proof. unfold settled. apply filter_length_le. Qed.

Lemma settled_lt (g : Graph.FrameGraph) (dist : Graph.DistMap) (v : VertexId) :
  finite_at dist v = false -> is_Some (Graph.findVertex g v) ->
  (settled g dist < length (Graph.vertices g))%nat.
Proof.
  intros Hv [w Hw]. apply findVertex_Some in Hw. destruct Hw as [Hin Hid].
  unfold settled. induction (Graph.vertices g) as [|a l IH]; [destruct Hin|].
  cbn [List.filter length]. destruct Hin as [->|Hin].
  - rewrite Hid, Hv. pose proof (filter_length_le (fun v => finite_at dist (Graph.Id v)) l).
    lia.
  - specialize (IH Hin). destruct (finite_at dist (Graph.Id a)); cbn [length]; lia.
Qed.

(** The slack of the vertices after the cost of one has fallen. *)
Lemma slack_set (g : Graph.FrameGraph) (dist : Graph.DistMap)
    (v : VertexId) (c : N) (p : VertexId) :
  (N.to_nat c < slack g dist v)%nat ->
  is_Some (Graph.findVertex g v) ->
  (list_sum (List.map (fun w => slack g (Graph.dist_set dist v (Finite c, p)) (Graph.Id w))
                      (Graph.vertices g))
   < list_sum (List.map (fun w => slack g dist (Graph.Id w)) (Graph.vertices g)))%nat.
Proof.
  intros Hc [w0 Hw0]. apply findVertex_Some in Hw0.
  set (n := length (Graph.vertices g)).
  assert (forall k, slack g (Graph.dist_set dist v (Finite c, p)) k
                    = if k =? v then N.to_nat c else slack g dist k) as Hslack.
  { intros k. unfold slack. destruct (k =? v) eqn:Hk.
    - apply N.eqb_eq in Hk. subst k. rewrite dist_find_set. reflexivity.
    - apply N.eqb_neq in Hk. rewrite dist_find_set_other by exact Hk. reflexivity. }
  assert (forall l : list Graph.Vertex,
             (list_sum (List.map (fun w => slack g (Graph.dist_set dist v (Finite c, p))
                                             (Graph.Id w)) l)
              <= list_sum (List.map (fun w => slack g dist (Graph.Id w)) l))%nat
             /\ ((exists w, In w l /\ Graph.Id w = v) ->
                 (list_sum (List.map (fun w => slack g (Graph.dist_set dist v (Finite c, p))
                                                 (Graph.Id w)) l)
                  < list_sum (List.map (fun w => slack g dist (Graph.Id w)) l))%nat)) as Hl.
  { induction l as [|w l [IHle IHlt]]; cbn [List.map].
    - split; [cbn; lia|]. intros [w [[] _]].
    - change (list_sum (?x :: ?l)) with (x + list_sum l)%nat.
      rewrite Hslack. destruct (Graph.Id w =? v) eqn:Hw.
      + apply N.eqb_eq in Hw. rewrite Hw. split; [lia|]. intros _. lia.
      + apply N.eqb_neq in Hw. split; [lia|].
        intros [w' [[<-|Hin] Hid]]; [congruence|].
        specialize (IHlt (ex_intro _ w' (conj Hin Hid))). lia. }
  apply Hl. exists w0. exact Hw0.
Qed.


Section SearchState.
Variable g : Graph.FrameGraph.
Variable src : VertexId.
Hypothesis Hok : graph_ok g = true.
Hypothesis Hunit : unit_weights g = true.

Lemma edge_facts (e : Graph.DirectedEdge) :
  In e (Graph.edges g) ->
  is_Some (Graph.findVertex g (Graph.Tail e))
  /\ is_Some (Graph.findVertex g (Graph.Head e))
  /\ Graph.Head e <> kNullId
  /\ Graph.EId e <> kNullId
  /\ Graph.Weight e = 1.
Proof.
  intros Hin. pose proof Hok as Hspec. apply graph_ok_spec in Hspec.
  destruct Hspec as (_ & _ & Hv & _ & Hee).
  destruct (Hee e Hin) as (Hid & Ht & Hh).
  split; [exact Ht|]. split; [exact Hh|]. split; [|split].
  - destruct Hh as [w Hw]. apply findVertex_Some in Hw. destruct Hw as [Hw <-].
    destruct (Hv w Hw) as [_ Hlt]. lia.
  - lia.
  - unfold unit_weights in Hunit. rewrite forallb_forall in Hunit.
    apply N.eqb_eq. apply Hunit. exact Hin.
Qed.

Lemma From_tail (e : Graph.DirectedEdge) : Graph.From e (Graph.Tail e) = Graph.Head e.
Proof. unfold Graph.From. rewrite N.eqb_refl. reflexivity. Qed.

(** The edges that leave a vertex are the edges with that tail. *)
Lemma IncidentsFrom_In (e : Graph.DirectedEdge) :
  In e (Graph.edges g) -> In e (Graph.IncidentsFrom g (Graph.Tail e)).
Proof.
  intros Hin. destruct (edge_facts e Hin) as ([vt Ht] & _ & Hh & _).
  unfold Graph.IncidentsFrom, Graph.adjList. rewrite Ht.
  apply filter_In. split.
  - apply filter_In. split; [exact Hin|]. rewrite N.eqb_refl. reflexivity.
  - rewrite From_tail. apply negb_true_iff. apply N.eqb_neq. exact Hh.
Qed.

Lemma vertex_has_entry (dist : Graph.DistMap) (pq : list Graph.CostInfo)
    (k : VertexId) :
  search_inv g src dist pq -> is_Some (Graph.findVertex g k) ->
  is_Some (Graph.dist_find dist k).
Proof.
  intros (Ha & _) [w Hw]. apply findVertex_Some in Hw. destruct Hw as [Hin <-].
  apply Ha. exact Hin.
Qed.

(** The state after the cost of the head of an edge has been lowered. *)
Lemma update_inv (dist : Graph.DistMap) (pq : list Graph.CostInfo)
    (e : Graph.DirectedEdge) (cu : N) (pu : VertexId)
    (cv : Cost) (pv : VertexId) :
  In e (Graph.edges g) ->
  search_inv g src dist pq ->
  Graph.dist_find dist (Graph.Tail e) = Some (Finite cu, pu) ->
  Graph.dist_find dist (Graph.Head e) = Some (cv, pv) ->
  (forall x, cv = Finite x -> cu + 1 < x) ->
  let u := Graph.Tail e in
  let dist' := Graph.dist_set dist (Graph.Head e) (Finite (cu + 1), u) in
  let pq' := Graph.pq_push (Finite (cu + 1), Graph.Head e) pq in
  search_inv g src dist' pq'
  /\ Graph.dist_find dist' u = Some (Finite cu, pu)
  /\ (potential g dist' pq' <= potential g dist pq)%nat
  /\ (forall k c p, c <= 1 -> Graph.dist_find dist k = Some (Finite c, p) ->
                    Graph.dist_find dist' k = Some (Finite c, p)).
Proof.
  intros Hin Hinv Hu Hv Hgt u dist' pq'.
  destruct (edge_facts e Hin) as (Htail & Hhead & _ & _ & _).
  pose proof Hinv as (Ha & Hb & Hc & Hd & He & Hf).
  set (v := Graph.Head e) in *.
  assert (v <> u) as Hvu.
  { intros Heq. unfold u in Heq. rewrite Heq, Hu in Hv. injection Hv as <- _.
    specialize (Hgt cu eq_refl). lia. }
  assert (v <> src) as Hvs.
  { intros Heq. rewrite Heq, Hb in Hv. injection Hv as <- _.
    specialize (Hgt 0 eq_refl). lia. }
  assert (forall k, k <> v -> Graph.dist_find dist' k = Graph.dist_find dist k)
    as Hother.
  { intros k Hk. unfold dist'. apply dist_find_set_other. exact Hk. }
  assert (Graph.dist_find dist' v = Some (Finite (cu + 1), u)) as Hnew.
  { unfold dist'. apply dist_find_set. }
  destruct (settled_set g dist v (cu + 1) u) as [Hsle Hslt]. fold dist' in Hsle, Hslt.
  split; [|split; [|split]].
  - split; [|split; [|split; [|split; [|split]]]].
    + intros w Hw. destruct (N.eq_dec (Graph.Id w) v) as [->|Hne].
      * rewrite Hnew. eexists. reflexivity.
      * rewrite Hother by exact Hne. apply Ha. exact Hw.
    + rewrite Hother by congruence. exact Hb.
    + intros k c p Hk Hks. destruct (N.eq_dec k v) as [->|Hne].
      * rewrite Hnew in Hk. injection Hk as <- <-.
        split; [lia|]. split.
        -- exists cu, pu. rewrite Hother by congruence. split; [exact Hu|lia].
        -- exists e. repeat split. exact Hin.
      * rewrite Hother in Hk by exact Hne.
        destruct (Hc k c p Hk Hks) as (H1c & (c0 & p0 & Hp & Hle) & Hedge).
        split; [exact H1c|]. split; [|exact Hedge].
        destruct (N.eq_dec p v) as [->|Hpv].
        -- rewrite Hp in Hv. injection Hv as <- <-.
           specialize (Hgt c0 eq_refl).
           exists (cu + 1), u. split; [exact Hnew|lia].
        -- exists c0, p0. rewrite Hother by exact Hpv. split; assumption.
    + intros k p Hk. destruct (N.eq_dec k v) as [->|Hne].
      * rewrite Hnew in Hk. discriminate.
      * rewrite Hother in Hk by exact Hne. eapply Hd. exact Hk.
    + intros x Hx. apply pq_push_In in Hx. unfold dist'. rewrite finite_at_set.
      destruct Hx as [->|Hx]; cbn [snd]; [rewrite N.eqb_refl; reflexivity|].
      destruct (snd x =? v); [reflexivity|]. apply He. exact Hx.
    + intros k c p Hk. destruct (N.eq_dec k v) as [->|Hne].
      * rewrite Hnew in Hk. injection Hk as <- _.
        pose proof (Hf _ _ _ Hu) as Hcu.
        destruct cv as [x|].
        -- specialize (Hgt x eq_refl). pose proof (Hf _ _ _ Hv) as Hx. lia.
        -- assert (finite_at dist v = false) as Hnot.
           { unfold finite_at. rewrite Hv. reflexivity. }
           specialize (Hslt Hnot Hhead). lia.
      * rewrite Hother in Hk by exact Hne. pose proof (Hf _ _ _ Hk). lia.
  - rewrite Hother by congruence. exact Hu.
  - unfold potential, pq'. rewrite length_pq_push.
    assert (N.to_nat (cu + 1) < slack g dist v)%nat as Hslack.
    { unfold slack. rewrite Hv. destruct cv as [x|].
      - specialize (Hgt x eq_refl). lia.
      - assert (finite_at dist v = false) as Hnot.
        { unfold finite_at. rewrite Hv. reflexivity. }
        pose proof (settled_lt g dist v Hnot Hhead) as Hlt.
        pose proof (Hf _ _ _ Hu) as Hcu. lia. }
    pose proof (slack_set g dist v (cu + 1) u Hslack Hhead) as Hphi.
    fold dist' in Hphi. lia.
  - intros k c p Hc1 Hk. destruct (N.eq_dec k v) as [->|Hne].
    + rewrite Hk in Hv. injection Hv as <- _. specialize (Hgt c eq_refl). lia.
    + rewrite Hother by exact Hne. exact Hk.
Qed.


(** A turn of the loop over the edges leaves the state as it is, when the
    head of the edge has a cost that is not higher than the new one, or
    lowers the cost of the head. *)
Lemma relax_one_cases (dist : Graph.DistMap) (pq : list Graph.CostInfo)
    (e : Graph.DirectedEdge) (cu : N) (pu : VertexId) :
  In e (Graph.edges g) ->
  search_inv g src dist pq ->
  Graph.dist_find dist (Graph.Tail e) = Some (Finite cu, pu) ->
  (relax_one (Graph.Tail e) (dist, pq) e = (dist, pq)
   /\ finite_at dist (Graph.Head e) = true)
  \/ (exists cv pv,
         Graph.dist_find dist (Graph.Head e) = Some (cv, pv)
         /\ (forall x, cv = Finite x -> cu + 1 < x)
         /\ relax_one (Graph.Tail e) (dist, pq) e
            = (Graph.dist_set dist (Graph.Head e) (Finite (cu + 1), Graph.Tail e),
               Graph.pq_push (Finite (cu + 1), Graph.Head e) pq)).
Proof.
  intros Hin Hinv Hu.
  destruct (edge_facts e Hin) as (_ & Hhead & _ & _ & Hweight).
  destruct (vertex_has_entry dist pq _ Hinv Hhead) as [[cv pv] Hv].
  unfold relax_one. cbn [fst snd]. rewrite From_tail, Hweight.
  unfold Graph.dist_at. rewrite Hu, Hv. cbn [fst Cost_add].
  destruct cv as [x|]; cbn [Cost_gt].
  - destruct (cu + 1 <? x) eqn:Hlt.
    + right. exists (Finite x), pv. split; [reflexivity|]. split; [|reflexivity].
      intros y Hy. injection Hy as <-. apply N.ltb_lt. exact Hlt.
    + left. split; [reflexivity|]. unfold finite_at. rewrite Hv. reflexivity.
  - right. exists MAX_D, pv. split; [reflexivity|]. split; [|reflexivity].
    intros y Hy. discriminate.
Qed.

(** The loop over the edges that leave [u]. *)
Lemma relax_fold_inv (u : VertexId) (cu : N) (pu : VertexId)
    (es : list Graph.DirectedEdge) :
  (forall e, In e es -> In e (Graph.edges g) /\ Graph.Tail e = u) ->
  forall (dist : Graph.DistMap) (pq : list Graph.CostInfo),
    search_inv g src dist pq ->
    Graph.dist_find dist u = Some (Finite cu, pu) ->
    let s' := fold_left (relax_one u) es (dist, pq) in
    search_inv g src (fst s') (snd s')
    /\ (potential g (fst s') (snd s') <= potential g dist pq)%nat
    /\ (forall k c p, c <= 1 -> Graph.dist_find dist k = Some (Finite c, p) ->
                      Graph.dist_find (fst s') k = Some (Finite c, p))
    /\ (forall k, finite_at dist k = true -> finite_at (fst s') k = true)
    /\ (forall x, In x pq -> In x (snd s'))
    /\ (forall e, In e es -> finite_at (fst s') (Graph.Head e) = true)
    /\ (forall k, finite_at (fst s') k = true ->
                  finite_at dist k = true \/ exists x, In x (snd s') /\ snd x = k)
    /\ (forall e p0, In e es -> cu = 0 ->
                     Graph.dist_find dist (Graph.Head e) = Some (MAX_D, p0) ->
                     Graph.dist_find (fst s') (Graph.Head e) = Some (Finite 1, u)).
Proof.
  induction es as [|e1 es IH]; intros Hes dist pq Hinv Hu; cbn [fold_left].
  - cbn [fst snd]. split; [exact Hinv|]. split; [lia|]. split; [auto|].
    split; [auto|]. split; [auto|]. split; [intros e []|].
    split; [auto|]. intros e p0 [].
  - destruct (Hes e1 (or_introl eq_refl)) as [Hin1 Htail1]. subst u.
    assert (forall e, In e es -> In e (Graph.edges g) /\ Graph.Tail e = Graph.Tail e1)
      as Hes'.
    { intros e He. apply Hes. right. exact He. }
    destruct (relax_one_cases dist pq e1 cu pu Hin1 Hinv Hu)
      as [[Hsame Hfin]|(cv & pv & Hv & Hgt & Hupd)].
    + rewrite Hsame.
      destruct (IH Hes' dist pq Hinv Hu)
        as (I1 & I2 & I3 & I4 & I5 & I6 & I7 & I8).
      split; [exact I1|]. split; [exact I2|]. split; [exact I3|].
      split; [exact I4|]. split; [exact I5|]. split; [|split; [exact I7|]].
      * intros e [<-|He]; [apply I4; exact Hfin|apply I6; exact He].
      * intros e p0 [<-|He] Hcu Hmax; [|apply (I8 e p0 He Hcu Hmax)].
        unfold finite_at in Hfin. rewrite Hmax in Hfin. discriminate.
    + rewrite Hupd.
      destruct (update_inv dist pq e1 cu pu cv pv Hin1 Hinv Hu Hv Hgt)
        as (U1 & U2 & U3 & U4).
      destruct (IH Hes' _ _ U1 U2)
        as (I1 & I2 & I3 & I4 & I5 & I6 & I7 & I8).
      assert (forall k, finite_at dist k = true ->
                        finite_at (Graph.dist_set dist (Graph.Head e1)
                                     (Finite (cu + 1), Graph.Tail e1)) k = true)
        as Hmono.
      { intros k Hk. rewrite finite_at_set. destruct (k =? Graph.Head e1); auto. }
      split; [exact I1|]. split; [lia|]. split; [|split; [|split; [|split; [|split]]]].
      * intros k c p Hc Hk. apply I3; [exact Hc|]. apply U4; assumption.
      * intros k Hk. apply I4. apply Hmono. exact Hk.
      * intros x Hx. apply I5. apply pq_push_In. right. exact Hx.
      * intros e [<-|He]; [|apply I6; exact He].
        apply I4. rewrite finite_at_set, N.eqb_refl. reflexivity.
      * intros k Hk. destruct (I7 k Hk) as [Hk1|Hq]; [|right; exact Hq].
        rewrite finite_at_set in Hk1.
        destruct (k =? Graph.Head e1) eqn:Hkv; [|left; exact Hk1].
        apply N.eqb_eq in Hkv. right. exists (Finite (cu + 1), Graph.Head e1).
        split; [|cbn; congruence]. apply I5. apply pq_push_In. left. reflexivity.
      * intros e p0 He Hcu Hmax.
        destruct (N.eq_dec (Graph.Head e) (Graph.Head e1)) as [Heq|Hne].
        -- rewrite Heq. apply I3; [lia|]. subst cu. apply dist_find_set.
        -- destruct He as [<-|He]; [congruence|].
           apply (I8 e p0 He Hcu).
           rewrite dist_find_set_other by exact Hne. exact Hmax.
Qed.

Lemma inv_tail (dist : Graph.DistMap) (top : Graph.CostInfo)
    (rest : list Graph.CostInfo) :
  search_inv g src dist (top :: rest) -> search_inv g src dist rest.
Proof.
  intros (Ha & Hb & Hc & Hd & He & Hf).
  repeat (split; [assumption|]). split; [|exact Hf].
  intros x Hx. apply He. right. exact Hx.
Qed.

Lemma inv_nil (dist : Graph.DistMap) (pq : list Graph.CostInfo) :
  search_inv g src dist pq -> search_inv g src dist [].
Proof.
  intros (Ha & Hb & Hc & Hd & He & Hf).
  repeat (split; [assumption|]). split; [|exact Hf]. intros x [].
Qed.

Lemma slack_le (dist : Graph.DistMap) (pq : list Graph.CostInfo) (k : VertexId) :
  search_inv g src dist pq ->
  (slack g dist k <= length (Graph.vertices g))%nat.
Proof.
  intros (_ & _ & _ & _ & _ & Hf). unfold slack.
  destruct (Graph.dist_find dist k) as [[[c|] p]|] eqn:Hk; try lia.
  pose proof (Hf _ _ _ Hk). pose proof (settled_le g dist). lia.
Qed.

(** One turn of the loop of the search. *)
Lemma iteration_inv (dist : Graph.DistMap) (top : Graph.CostInfo)
    (rest : list Graph.CostInfo) :
  search_inv g src dist (top :: rest) ->
  queued_or_closed g dist (top :: rest) ->
  let s' := Graph.Dijkstra_relax (snd top) (Graph.IncidentsFrom g (snd top)) dist rest in
  search_inv g src (fst s') (snd s')
  /\ queued_or_closed g (fst s') (snd s')
  /\ (potential g (fst s') (snd s') < potential g dist (top :: rest))%nat
  /\ (forall k c p, c <= 1 -> Graph.dist_find dist k = Some (Finite c, p) ->
                    Graph.dist_find (fst s') k = Some (Finite c, p))
  /\ (forall e p0 pu,
         In e (Graph.edges g) -> Graph.Tail e = snd top ->
         Graph.dist_find dist (snd top) = Some (Finite 0, pu) ->
         Graph.dist_find dist (Graph.Head e) = Some (MAX_D, p0) ->
         Graph.dist_find (fst s') (Graph.Head e) = Some (Finite 1, snd top)).
Proof.
  intros Hinv Hclosed. cbn zeta. rewrite Dijkstra_relax_fold.
  set (u := snd top).
  assert (exists cu pu, Graph.dist_find dist u = Some (Finite cu, pu)) as (cu & pu & Hu).
  { destruct Hinv as (_ & _ & _ & _ & He & _).
    specialize (He top (or_introl eq_refl)). fold u in He. unfold finite_at in He.
    destruct (Graph.dist_find dist u) as [[[c|] p]|]; try discriminate.
    eexists _, _. reflexivity. }
  assert (forall e, In e (Graph.IncidentsFrom g u) ->
                    In e (Graph.edges g) /\ Graph.Tail e = u) as Hes.
  { intros e He. apply IncidentsFrom_edge in He. tauto. }
  destruct (relax_fold_inv u cu pu (Graph.IncidentsFrom g u) Hes dist rest
              (inv_tail _ _ _ Hinv) Hu)
    as (I1 & I2 & I3 & I4 & I5 & I6 & I7 & I8).
  destruct (fold_left (relax_one u) (Graph.IncidentsFrom g u) (dist, rest))
    as [dist' pq']. cbn [fst snd] in *.
  split; [exact I1|]. split; [|split; [|split; [exact I3|]]].
  - intros k Hk. destruct (I7 k Hk) as [Hold|Hq]; [|left; exact Hq].
    destruct (Hclosed k Hold) as [(x & [<-|Hx] & Hsnd)|Hedges].
    + right. intros e Hin Htail. apply I6.
      replace u with (Graph.Tail e) by (unfold u; congruence).
      apply IncidentsFrom_In. exact Hin.
    + left. exists x. split; [apply I5; exact Hx|exact Hsnd].
    + right. intros e Hin Htail. apply I4. apply Hedges; assumption.
  - unfold potential in *. cbn [length]. lia.
  - intros e p0 pu' Hin Htail Hu0 Hmax.
    rewrite Hu in Hu0. injection Hu0 as -> _.
    apply (I8 e p0); [|reflexivity|exact Hmax].
    rewrite <- Htail. apply IncidentsFrom_In. exact Hin.
Qed.

(** With fuel above the potential the loop of the search ends. *)
Lemma Dijkstra_loop_ends (to : VertexId) (fuel : nat) :
  forall (dist : Graph.DistMap) (pq : list Graph.CostInfo),
    search_inv g src dist pq ->
    queued_or_closed g dist pq ->
    (potential g dist pq < fuel)%nat ->
    exists result,
      Graph.Dijkstra_loop fuel g to dist pq = Some result
      /\ search_inv g src result []
      /\ (finite_at result to = true \/ queued_or_closed g result [])
      /\ (forall k c p, c <= 1 -> Graph.dist_find dist k = Some (Finite c, p) ->
                        Graph.dist_find result k = Some (Finite c, p)).
Proof.
  induction fuel as [|fuel IH]; intros dist pq Hinv Hclosed Hfuel; [lia|].
  cbn [Graph.Dijkstra_loop]. destruct pq as [|top rest].
  - exists dist. split; [reflexivity|]. split; [exact Hinv|].
    split; [right; exact Hclosed|auto].
  - destruct (negb (to =? kNullId) && (to =? snd top)) eqn:Hstop.
    + exists dist. split; [reflexivity|]. split; [eapply inv_nil; exact Hinv|].
      split; [|auto]. left. apply andb_prop in Hstop. destruct Hstop as [_ Hto].
      apply N.eqb_eq in Hto. rewrite Hto.
      destruct Hinv as (_ & _ & _ & _ & He & _). apply He. left. reflexivity.
    + destruct (iteration_inv dist top rest Hinv Hclosed)
        as (I1 & I2 & I3 & I4 & _).
      destruct (Graph.Dijkstra_relax _ _ dist rest) as [dist' pq'].
      cbn [fst snd] in *.
      destruct (IH dist' pq' I1 I2 ltac:(lia)) as (result & Hrun & R1 & R2 & R3).
      exists result. split; [exact Hrun|]. split; [exact R1|]. split; [exact R2|].
      intros k c p Hc Hk. apply R3; [exact Hc|]. apply I4; assumption.
Qed.


(** The costs that the search starts from. *)
Lemma dist0_find (k : VertexId) :
  Graph.dist_find
    (List.map (fun v => (Graph.Id v, (MAX_D, kNullId))) (Graph.vertices g)) k
  = match Graph.findVertex g k with
    | Some _ => Some (MAX_D, kNullId)
    | None => None
    end.
Proof.
  unfold Graph.dist_find, Graph.findVertex.
  induction (Graph.vertices g) as [|a l IH]; cbn; [reflexivity|].
  destruct (Graph.Id a =? k); [reflexivity|exact IH].
Qed.

Lemma list_sum_le {A} (f : A -> nat) (b : nat) (l : list A) :
  (forall x, In x l -> (f x <= b)%nat) ->
  (list_sum (List.map f l) <= length l * b)%nat.
Proof.
  induction l as [|a l IH]; intros Hb; cbn [List.map length]; [cbn; lia|].
  change (list_sum (?x :: ?l)) with (x + list_sum l)%nat.
  pose proof (Hb a (or_introl eq_refl)).
  specialize (IH (fun x Hx => Hb x (or_intror Hx))). lia.
Qed.

Lemma init_inv :
  is_Some (Graph.findVertex g src) ->
  let init :=
    Graph.dist_set
      (List.map (fun v => (Graph.Id v, (MAX_D, kNullId))) (Graph.vertices g))
      src (Finite 0, src) in
  search_inv g src init [(Finite 0, src)]
  /\ queued_or_closed g init [(Finite 0, src)]
  /\ (potential g init [(Finite 0, src)]
      <= length (Graph.vertices g) * length (Graph.vertices g) + 1)%nat
  /\ (forall k, k <> src -> is_Some (Graph.findVertex g k) ->
                Graph.dist_find init k = Some (MAX_D, kNullId)).
Proof.
  intros Hsrc init.
  set (dist0 := List.map (fun v => (Graph.Id v, (MAX_D, kNullId))) (Graph.vertices g))
    in *.
  assert (Graph.dist_find init src = Some (Finite 0, src)) as Hb.
  { apply dist_find_set. }
  assert (forall k, k <> src -> Graph.dist_find init k = Graph.dist_find dist0 k)
    as Hother.
  { intros k Hk. apply dist_find_set_other. exact Hk. }
  assert (forall k c p, Graph.dist_find init k = Some (Finite c, p) ->
                        k = src /\ c = 0) as Hfinite.
  { intros k c p Hk. destruct (N.eq_dec k src) as [->|Hne].
    - rewrite Hb in Hk. injection Hk as <- _. split; reflexivity.
    - rewrite Hother in Hk by exact Hne. unfold dist0 in Hk.
      rewrite dist0_find in Hk. destruct (Graph.findVertex g k); discriminate. }
  split; [|split; [|split]].
  - split; [|split; [|split; [|split; [|split]]]].
    + intros v Hv. destruct (N.eq_dec (Graph.Id v) src) as [->|Hne].
      * rewrite Hb. eexists. reflexivity.
      * rewrite Hother by exact Hne. unfold dist0. rewrite dist0_find.
        destruct (findVertex_In g v Hv) as [w ->]. eexists. reflexivity.
    + exact Hb.
    + intros k c p Hk Hne. destruct (Hfinite k c p Hk). contradiction.
    + intros k p Hk. destruct (N.eq_dec k src) as [->|Hne].
      * rewrite Hb in Hk. discriminate.
      * rewrite Hother in Hk by exact Hne. unfold dist0 in Hk.
        rewrite dist0_find in Hk.
        destruct (Graph.findVertex g k); [|discriminate]. congruence.
    + intros x [<-|[]]. unfold finite_at. cbn [snd]. rewrite Hb. reflexivity.
    + intros k c p Hk. destruct (Hfinite k c p Hk) as [-> ->].
      destruct (settled_set g dist0 src 0 src) as [_ Hlt].
      assert (finite_at dist0 src = false) as Hnot.
      { unfold finite_at, dist0. rewrite dist0_find.
        destruct (Graph.findVertex g src); reflexivity. }
      specialize (Hlt Hnot Hsrc). fold init in Hlt. lia.
  - intros u Hu. left. exists (Finite 0, src). split; [left; reflexivity|].
    unfold finite_at in Hu.
    destruct (Graph.dist_find init u) as [[[c|] p]|] eqn:Hk; try discriminate.
    destruct (Hfinite u c p Hk) as [-> _]. reflexivity.
  - unfold potential. cbn [length].
    assert (list_sum (List.map (fun v => slack g init (Graph.Id v)) (Graph.vertices g))
            <= length (Graph.vertices g) * length (Graph.vertices g))%nat as Hsum.
    { apply list_sum_le. intros v _. unfold slack.
      destruct (Graph.dist_find init (Graph.Id v)) as [[[c|] p]|] eqn:Hk; try lia.
      destruct (Hfinite _ c p Hk) as [_ ->]. cbn. lia. }
    lia.
  - intros k Hne [w Hw]. rewrite Hother by exact Hne. unfold dist0.
    rewrite dist0_find, Hw. reflexivity.
Qed.

(** When the queue is empty every vertex that the edges reach has a
    cost. *)
Lemma closed_reachable (result : Graph.DistMap) (v : VertexId) :
  search_inv g src result [] ->
  queued_or_closed g result [] ->
  reachable g src v -> finite_at result v = true.
Proof.
  intros R1 Hall Hreach. induction Hreach as [|e Htail IH Hin].
  - unfold finite_at. destruct R1 as (_ & -> & _). reflexivity.
  - destruct (Hall _ IH) as [(x & [] & _)|Hedges].
    apply Hedges; [exact Hin|reflexivity].
Qed.

(** The search of [Link::Pose] ends, and what it returns. *)
Lemma Dijkstra_ends (dst : VertexId) (fuel : nat) :
  is_Some (Graph.findVertex g src) ->
  is_Some (Graph.findVertex g dst) ->
  (enough_fuel g <= fuel)%nat ->
  exists result,
    Graph.Dijkstra fuel g src dst = Some (result, [])
    /\ search_inv g src result []
    /\ (reachable g src dst -> finite_at result dst = true)
    /\ (dst <> src ->
        forall e, In e (Graph.edges g) -> Graph.Tail e = src -> Graph.Head e = dst ->
                  Graph.dist_find result dst = Some (Finite 1, src)).
Proof.
  intros Hsrc Hdst Hfuel. unfold enough_fuel in Hfuel.
  destruct (init_inv Hsrc) as (Hinv & Hclosed & Hpot & Hmax). cbn zeta in *.
  set (init := Graph.dist_set _ src (Finite 0, src)) in *.
  assert (potential g init [(Finite 0, src)] < fuel)%nat as Henough by lia.
  destruct (Dijkstra_loop_ends dst fuel init [(Finite 0, src)] Hinv Hclosed
              Henough) as (result & Hrun & R1 & R2 & _).
  exists result. split; [|split; [exact R1|split]].
  - unfold Graph.Dijkstra. destruct Hsrc as [vs ->]. destruct Hdst as [vd ->].
    assert (bool_decide (Some vd = None) = false) as ->.
    { apply bool_decide_eq_false. congruence. }
    rewrite andb_false_r. fold init. rewrite Hrun. reflexivity.
  - intros Hreach. destruct R2 as [Hfin|Hall]; [exact Hfin|].
    apply closed_reachable; assumption.
  - intros Hne e Hin Htail Hhead.
    destruct fuel as [|f]; [lia|]. cbn [Graph.Dijkstra_loop snd] in Hrun.
    assert ((negb (dst =? kNullId) && (dst =? src)) = false) as Hgo.
    { rewrite (proj2 (N.eqb_neq dst src) Hne). apply andb_false_r. }
    rewrite Hgo in Hrun.
    assert ((let '(dist', pq') :=
               Graph.Dijkstra_relax src (Graph.IncidentsFrom g src) init [] in
             Graph.Dijkstra_loop f g dst dist' pq') = Some result) as Hrun2
      by exact Hrun.
    clear Hrun.
    destruct (iteration_inv init (Finite 0, src) [] Hinv Hclosed)
      as (I1 & I2 & I3 & _ & I5). cbn [snd] in *.
    specialize (I5 e kNullId src Hin Htail).
    destruct (Graph.Dijkstra_relax src (Graph.IncidentsFrom g src) init [])
      as [dist1 pq1]. cbn [fst snd] in *.
    assert (potential g dist1 pq1 < f)%nat as Hf.
    { eapply Nat.lt_le_trans; [exact I3|].
      etransitivity; [exact Hpot|lia]. }
    destruct (Dijkstra_loop_ends dst f dist1 pq1 I1 I2 Hf)
      as (result' & Hrun' & _ & _ & R3).
    rewrite Hrun' in Hrun2. injection Hrun2 as <-.
    apply R3; [lia|]. rewrite <- Hhead. apply I5.
    + destruct Hinv as (_ & Hb & _). exact Hb.
    + rewrite Hhead. apply Hmax; assumption.
Qed.

End SearchState.
End SearchEnds.

(** ** The walk of [Link::Pose] along the result of the search *)

Section Walk.
Context `{LinkCollaborators}.

Section OverGraph.
Variable g : Graph.FrameGraph.
Variable src : VertexId.
Hypothesis Hok : graph_ok g = true.
Hypothesis Hunit : unit_weights g = true.

Lemma EdgeFromVertices_null (key : VertexId) :
  Graph.EdgeFromVertices g kNullId key = Graph.NullEdge.
Proof.
  unfold Graph.EdgeFromVertices, Graph.adjList.
  destruct (Graph.findVertex g kNullId) as [v|] eqn:Hv; [|reflexivity].
  exfalso. apply findVertex_Some in Hv. destruct Hv as [Hin Hid].
  destruct (graph_ok_vertices g Hok v Hin) as [_ Hlt]. lia.
Qed.

(** An edge that [EdgeFromVertices] returns, when it is not the null
    edge, is an edge of the graph from the one vertex to the other. *)
Lemma EdgeFromVertices_valid (s d : VertexId) :
  d <> kNullId ->
  Graph.EId (Graph.EdgeFromVertices g s d) <> kNullId ->
  In (Graph.EdgeFromVertices g s d) (Graph.edges g)
  /\ Graph.Tail (Graph.EdgeFromVertices g s d) = s
  /\ Graph.Head (Graph.EdgeFromVertices g s d) = d.
Proof.
  intros Hd. unfold Graph.EdgeFromVertices, Graph.adjList.
  destruct (Graph.findVertex g s); [|cbn; congruence].
  destruct (List.find _ _) as [e|] eqn:Hfind; [|cbn; congruence].
  intros _. apply find_some in Hfind. destruct Hfind as [Hin Hfrom].
  apply filter_In in Hin. destruct Hin as [Hin _]. split; [exact Hin|].
  unfold Graph.From in Hfrom.
  destruct (s =? Graph.Tail e) eqn:Ht; cbn [negb] in Hfrom.
  - apply N.eqb_eq in Ht, Hfrom. split; congruence.
  - apply N.eqb_eq in Hfrom. congruence.
Qed.

(** Where the graph has an edge from one vertex to another,
    [EdgeFromVertices] returns such an edge. *)
Lemma EdgeFromVertices_found (e0 : Graph.DirectedEdge) :
  In e0 (Graph.edges g) ->
  In (Graph.EdgeFromVertices g (Graph.Tail e0) (Graph.Head e0)) (Graph.edges g)
  /\ Graph.Tail (Graph.EdgeFromVertices g (Graph.Tail e0) (Graph.Head e0))
     = Graph.Tail e0
  /\ Graph.Head (Graph.EdgeFromVertices g (Graph.Tail e0) (Graph.Head e0))
     = Graph.Head e0
  /\ (Graph.EId (Graph.EdgeFromVertices g (Graph.Tail e0) (Graph.Head e0))
      =? Graph.EId Graph.NullEdge) = false.
Proof.
  intros Hin0. destruct (edge_facts g Hok Hunit e0 Hin0) as ([vt Ht] & _ & Hh & _).
  assert (Graph.EId (Graph.EdgeFromVertices g (Graph.Tail e0) (Graph.Head e0))
          <> kNullId) as Hvalid.
  { unfold Graph.EdgeFromVertices, Graph.adjList. rewrite Ht.
    destruct (List.find _ _) as [e|] eqn:Hfind.
    - apply find_some in Hfind. destruct Hfind as [Hin _].
      apply filter_In in Hin. destruct Hin as [Hin _].
      destruct (edge_facts g Hok Hunit e Hin) as (_ & _ & _ & Hid & _). exact Hid.
    - exfalso.
      assert (In e0 (List.filter
                       (fun e => (Graph.Tail e =? Graph.Tail e0)
                                 || (Graph.Head e =? Graph.Tail e0))
                       (Graph.edges g))) as Hadj.
      { apply filter_In. split; [exact Hin0|]. rewrite N.eqb_refl. reflexivity. }
      pose proof (find_none _ _ Hfind e0 Hadj) as Hnone. cbn beta in Hnone.
      rewrite From_tail, N.eqb_refl in Hnone. discriminate. }
  destruct (EdgeFromVertices_valid _ _ Hh Hvalid) as (Hin & Htail & Hhead).
  repeat split; try assumption. apply N.eqb_neq. exact Hvalid.
Qed.

Variable result : Graph.DistMap.
Hypothesis Hinv : search_inv g src result [].
Variable pose : Pose3d.

(** The walk ends: on the way back a cost falls with every step. *)
Lemma walk_returns (fuel : nat) :
  forall (key : VertexId) (finalPose : Matrix4d) (env : Env),
    match Graph.dist_find result key with
    | Some (Finite c, _) => (N.to_nat c < fuel)%nat
    | Some (MAX_D, _) => (0 < fuel)%nat
    | None => False
    end ->
    exists m env',
      Link.Pose_walk fuel g result src pose key finalPose env = Returns m env'
      /\ store env' = store env.
Proof.
  pose proof Hinv as (_ & Hb & Hc & Hd & _).
  induction fuel as [|fuel IH]; intros key finalPose env Hkey.
  - destruct (Graph.dist_find result key) as [[[c|] p]|]; [lia|lia|contradiction].
  - cbn [Link.Pose_walk].
    destruct (Graph.dist_find result key) as [[cst next]|] eqn:Hentry;
      [|contradiction].
    destruct (negb (Graph.EId (Graph.EdgeFromVertices g next key)
                    =? Graph.EId Graph.NullEdge)) eqn:Hvalid.
    + unfold bind at 1. unfold to_cout.
      destruct (next =? src) eqn:Hnext.
      * eexists _, _. split; reflexivity.
      * apply N.eqb_neq in Hnext.
        match goal with
        | |- context [Link.Pose_walk fuel g result src pose next ?fp ?e] =>
            destruct (IH next fp e) as (m & env' & Hrun & Hstore)
        end.
        -- destruct cst as [c|].
           ++ assert (key <> src) as Hks.
              { intros ->. rewrite Hb in Hentry. congruence. }
              destruct (Hc key c next Hentry Hks) as (_ & (c0 & p0 & -> & Hle) & _).
              lia.
           ++ rewrite (Hd key next Hentry), EdgeFromVertices_null in Hvalid.
              rewrite N.eqb_refl in Hvalid. discriminate.
        -- exists m, env'. split; [exact Hrun|exact Hstore].
    + unfold bind, to_cerr, ret. eexists _, _. split; reflexivity.
Qed.

(** From a vertex that the search has reached, the walk finds an edge at
    every step and arrives at the source: nothing goes to [std::cerr]. *)
Lemma walk_silent (fuel : nat) :
  forall (key : VertexId) (finalPose : Matrix4d) (env : Env) (c : N) (p : VertexId),
    Graph.dist_find result key = Some (Finite c, p) ->
    key <> src ->
    (N.to_nat c < fuel)%nat ->
    exists m env',
      Link.Pose_walk fuel g result src pose key finalPose env = Returns m env'
      /\ store env' = store env /\ cerr env' = cerr env.
Proof.
  pose proof Hinv as (_ & Hb & Hc & Hd & _).
  induction fuel as [|fuel IH]; intros key finalPose env c p Hentry Hks Hfuel; [lia|].
  cbn [Link.Pose_walk]. rewrite Hentry.
  destruct (Hc key c p Hentry Hks) as (_ & (c0 & p0 & Hprev & Hle) & (e0 & Hin0 & <- & <-)).
  destruct (EdgeFromVertices_found e0 Hin0) as (_ & _ & _ & ->). cbn [negb].
  unfold bind at 1. unfold to_cout.
  destruct (Graph.Tail e0 =? src) eqn:Hnext.
  - eexists _, _. split; [reflexivity|]. split; reflexivity.
  - apply N.eqb_neq in Hnext.
    match goal with
    | |- context [Link.Pose_walk fuel g result src pose (Graph.Tail e0) ?fp ?e] =>
        destruct (IH (Graph.Tail e0) fp e c0 p0 Hprev Hnext ltac:(lia))
          as (m & env' & Hrun & Hstore & Hcerr)
    end.
    exists m, env'. split; [exact Hrun|]. split; [exact Hstore|exact Hcerr].
Qed.

End OverGraph.

(** [Link::Pose] up to its walk, when the link and the frame have
    vertices and the search has ended without a note. *)
Lemma Pose_with_search (fuel : nat) (this : Link.LinkPrivate) (_frame : string)
    (env : Env) (gp : GraphPtr) (g : Graph.FrameGraph)
    (vs vd : Graph.Vertex) (rs rd : list Graph.Vertex) (result : Graph.DistMap) :
  _frame <> "" ->
  Link.frameGraph this = Some gp ->
  store env !! gp = Some g ->
  Graph.Vertices g (Link.name this) = vs :: rs ->
  Graph.Vertices g _frame = vd :: rd ->
  Graph.Dijkstra fuel g (Graph.Id vs) (Graph.Id vd) = Some (result, []) ->
  exists env1,
    store env1 = store env /\ cerr env1 = cerr env
    /\ Link.Pose fuel this _frame env
       = (finalPose <- Link.Pose_walk fuel g result (Graph.Id vs) (Link.pose this)
                         (Graph.Id vd) Matrix4d_Identity ;;
          to_cout [Str "FinalPose["; OutMatrix finalPose; Str "]"; Endl] ;;;
          ret (Matrix4d_Pose finalPose)) env1.
Proof.
  intros Hframe Hgp Hg Hvs Hvd Hsearch.
  rewrite (Pose_unfold fuel this _frame env gp g Hframe Hgp Hg).
  unfold Pose_on, Pose_rest. rewrite Hvs, Hvd. cbn [begin_first].
  unfold bind at 1. unfold to_cout at 1.
  unfold bind at 1. unfold ret at 1.
  unfold bind at 1. unfold to_cout at 1.
  unfold bind at 1. unfold ret at 1.
  unfold bind at 1. unfold to_cout at 1.
  unfold bind at 1. unfold to_cout at 1.
  cbn [store cout cerr]. rewrite Hsearch.
  unfold bind at 1. unfold notes, to_cerr. cbn [store cout cerr List.map].
  unfold bind at 1. unfold to_cout at 1. cbn [store cout cerr].
  eexists. split; [|split; [|reflexivity]]; cbn [store cerr]; [reflexivity|].
  apply app_nil_r.
Qed.


Lemma Vertices_member (g : Graph.FrameGraph) (n : string) (v : Graph.Vertex)
    (r : list Graph.Vertex) :
  Graph.Vertices g n = v :: r ->
  In v (Graph.vertices g) /\ is_Some (Graph.findVertex g (Graph.Id v))
  /\ Graph.Name v = n.
Proof.
  intros Hv.
  assert (In v (List.filter (fun w => String.eqb (Graph.Name w) n)
                  (Graph.vertices g))) as Hf.
  { unfold Graph.Vertices in Hv. rewrite Hv. left. reflexivity. }
  apply filter_In in Hf. destruct Hf as [Hin Hname].
  split; [exact Hin|]. split; [apply findVertex_In; exact Hin|].
  apply String.eqb_eq. exact Hname.
Qed.

Lemma Pose_returns_for_known_frames_aux
    (fuel : nat) (this : Link.LinkPrivate) (_frame : string) (env : Env)
    (gp : GraphPtr) (g : Graph.FrameGraph) :
  _frame <> "" ->
  Link.frameGraph this = Some gp ->
  store env !! gp = Some g ->
  graph_ok g = true ->
  unit_weights g = true ->
  Graph.Vertices g (Link.name this) <> [] ->
  Graph.Vertices g _frame <> [] ->
  (enough_fuel g <= fuel)%nat ->
  exists p env',
    Link.Pose fuel this _frame env = Returns p env' /\ store env' = store env.
Proof.
  intros Hframe Hgp Hg Hok Hunit Hsrc Hdst Hfuel.
  destruct (Graph.Vertices g (Link.name this)) as [|vs rs] eqn:Hvs; [congruence|].
  destruct (Graph.Vertices g _frame) as [|vd rd] eqn:Hvd; [congruence|].
  destruct (Vertices_member g _ vs rs Hvs) as (_ & Hs & _).
  destruct (Vertices_member g _ vd rd Hvd) as (Hdin & Hd & _).
  destruct (Dijkstra_ends g (Graph.Id vs) Hok Hunit (Graph.Id vd) fuel Hs Hd Hfuel)
    as (result & Hsearch & Hinv & _).
  destruct (Pose_with_search fuel this _frame env gp g vs vd rs rd result
              Hframe Hgp Hg Hvs Hvd Hsearch) as (env1 & Hst1 & _ & ->).
  destruct (walk_returns g (Graph.Id vs) Hok result Hinv (Link.pose this) fuel
              (Graph.Id vd) Matrix4d_Identity env1) as (m & env2 & Hwalk & Hst2).
  { pose proof Hinv as (Ha & _ & _ & _ & _ & Hf).
    destruct (Ha vd Hdin) as [[[c|] p] Hentry]; rewrite Hentry.
    - pose proof (Hf _ _ _ Hentry). pose proof (settled_le g result).
      unfold enough_fuel in Hfuel. nia.
    - unfold enough_fuel in Hfuel. lia. }
  unfold bind at 1. rewrite Hwalk. unfold bind, to_cout, ret.
  eexists _, _. split; [reflexivity|]. cbn [store]. congruence.
Qed.

(** X19: [Link::Pose] ends.  Over a well-formed graph with unit weights,
    for a link and a frame that both have a vertex, the search and the
    loop [while (!done)] end and the call returns a pose, with the fuel of
    [enough_fuel]; the graphs are as they were. *)
Theorem Pose_returns_for_known_frames
    (fuel : nat) (this : Link.LinkPrivate) (_frame : string) (env : Env)
    (gp : GraphPtr) (g : Graph.FrameGraph) :
  _frame <> "" ->
  Link.frameGraph this = Some gp ->
  store env !! gp = Some g ->
  graph_ok g = true ->
  unit_weights g = true ->
  Graph.Vertices g (Link.name this) <> [] ->
  Graph.Vertices g _frame <> [] ->
  (enough_fuel g <= fuel)%nat ->
  exists p env',
    Link.Pose fuel this _frame env = Returns p env' /\ store env' = store env.
Proof. apply Pose_returns_for_known_frames_aux. Qed.

(** X20: the error case of [Link::Pose] is taken exactly when no path
    leads to the frame.  For a link and a frame with different vertices:
    when the edges of the graph lead from the vertex of the link to the
    vertex of the frame, the call returns and writes nothing to
    [std::cerr]; when they do not, it returns the pose of the identity
    matrix and writes its line to [std::cerr]. *)
Theorem Pose_errs_exactly_without_a_path
    (fuel : nat) (this : Link.LinkPrivate) (_frame : string) (env : Env)
    (gp : GraphPtr) (g : Graph.FrameGraph)
    (vs vd : Graph.Vertex) (rs rd : list Graph.Vertex) :
  _frame <> "" ->
  Link.frameGraph this = Some gp ->
  store env !! gp = Some g ->
  graph_ok g = true ->
  unit_weights g = true ->
  Graph.Vertices g (Link.name this) = vs :: rs ->
  Graph.Vertices g _frame = vd :: rd ->
  Graph.Id vd <> Graph.Id vs ->
  (enough_fuel g <= fuel)%nat ->
  (reachable g (Graph.Id vs) (Graph.Id vd) ->
   exists p env',
     Link.Pose fuel this _frame env = Returns p env' /\ cerr env' = cerr env)
  /\ (~ reachable g (Graph.Id vs) (Graph.Id vd) ->
      exists env',
        Link.Pose fuel this _frame env
        = Returns (Matrix4d_Pose Matrix4d_Identity) env'
        /\ cerr env' = cerr env ++ [Str "ERRROR!"; Endl]).
Proof.
  intros Hframe Hgp Hg Hok Hunit Hvs Hvd Hne Hfuel.
  destruct (Vertices_member g _ vs rs Hvs) as (_ & Hs & _).
  destruct (Vertices_member g _ vd rd Hvd) as (Hdin & Hd & _).
  split.
  - intros Hreach.
    destruct (Dijkstra_ends g (Graph.Id vs) Hok Hunit (Graph.Id vd) fuel Hs Hd Hfuel)
      as (result & Hsearch & Hinv & Hfin & _).
    specialize (Hfin Hreach). unfold finite_at in Hfin.
    destruct (Graph.dist_find result (Graph.Id vd)) as [[[c|] p]|] eqn:Hentry;
      try discriminate.
    destruct (Pose_with_search fuel this _frame env gp g vs vd rs rd result
                Hframe Hgp Hg Hvs Hvd Hsearch) as (env1 & _ & Hce1 & ->).
    destruct (walk_silent g (Graph.Id vs) Hok Hunit result Hinv (Link.pose this) fuel
                (Graph.Id vd) Matrix4d_Identity env1 c p Hentry Hne)
      as (m & env2 & Hwalk & _ & Hce2).
    { destruct Hinv as (_ & _ & _ & _ & _ & Hf).
      pose proof (Hf _ _ _ Hentry). pose proof (settled_le g result).
      unfold enough_fuel in Hfuel. nia. }
    unfold bind at 1. rewrite Hwalk. unfold bind, to_cout, ret.
    eexists _, _. split; [reflexivity|]. cbn [cerr]. congruence.
  - intros Hno.
    destruct (Pose_of_unreachable_frame fuel this _frame env gp g vs vd rs rd
                Hframe Hgp Hg Hok Hvs Hvd Hno) as [Hout|Hret]; [|exact Hret].
    exfalso.
    destruct (Pose_returns_for_known_frames_aux fuel this _frame env gp g
                Hframe Hgp Hg Hok Hunit) as (p & env' & Hrun & _);
      try congruence; try assumption.
Qed.


Lemma Pose_in_adjacent_frame_aux
    (fuel : nat) (this : Link.LinkPrivate) (_frame : string) (env : Env)
    (gp : GraphPtr) (g : Graph.FrameGraph)
    (vs vd : Graph.Vertex) (rs rd : list Graph.Vertex) :
  _frame <> "" ->
  Link.frameGraph this = Some gp ->
  store env !! gp = Some g ->
  graph_ok g = true ->
  unit_weights g = true ->
  Graph.Vertices g (Link.name this) = vs :: rs ->
  Graph.Vertices g _frame = vd :: rd ->
  Graph.Id vd <> Graph.Id vs ->
  Graph.EId (Graph.EdgeFromVertices g (Graph.Id vs) (Graph.Id vd)) <> kNullId ->
  (enough_fuel g <= fuel)%nat ->
  let edge := Graph.EdgeFromVertices g (Graph.Id vs) (Graph.Id vd) in
  let inverse := (Graph.EData edge <? 0)%Z in
  exists env',
    Link.Pose fuel this _frame env
    = Returns
        (Matrix4d_Pose
           (compose inverse
              (compose inverse Matrix4d_Identity
                 (Graph.Data (Graph.VertexFromId g (Graph.Id vd))))
              (Matrix4d_of_Pose (Link.pose this))))
        env'
    /\ cerr env' = cerr env.
Proof.
  intros Hframe Hgp Hg Hok Hunit Hvs Hvd Hne Hvalid Hfuel edge inverse.
  destruct (Vertices_member g _ vs rs Hvs) as (_ & Hs & _).
  destruct (Vertices_member g _ vd rd Hvd) as (Hdin & Hd & _).
  assert (Graph.Id vd <> kNullId) as Hdn.
  { destruct (graph_ok_vertices g Hok vd Hdin) as [_ Hlt]. lia. }
  destruct (EdgeFromVertices_valid g _ _ Hdn Hvalid) as (Hin & Htail & Hhead).
  destruct (Dijkstra_ends g (Graph.Id vs) Hok Hunit (Graph.Id vd) fuel Hs Hd Hfuel)
    as (result & Hsearch & _ & _ & Hone).
  specialize (Hone Hne _ Hin Htail Hhead).
  destruct (Pose_with_search fuel this _frame env gp g vs vd rs rd result
              Hframe Hgp Hg Hvs Hvd Hsearch) as (env1 & _ & Hce1 & ->).
  destruct fuel as [|fuel]; [unfold enough_fuel in Hfuel; lia|].
  unfold bind at 1. cbn [Link.Pose_walk]. rewrite Hone.
  fold edge.
  assert ((Graph.EId edge =? Graph.EId Graph.NullEdge) = false) as ->.
  { apply N.eqb_neq. exact Hvalid. }
  cbn [negb]. unfold bind at 1. unfold to_cout at 1.
  rewrite N.eqb_refl. unfold ret at 1. unfold bind, to_cout, ret.
  eexists. split; [reflexivity|]. cbn [cerr]. exact Hce1.
Qed.

(** X21: the pose of a link in a frame next to it.  When the graph has an
    edge from the vertex of the link to the vertex of the frame, the walk
    takes one step: [Link::Pose] returns the pose of the identity matrix
    times the data of the frame's vertex times the matrix of the link's
    stored pose, each of the two inverted when the data of the edge that
    [EdgeFromVertices] finds is negative; and it writes nothing to
    [std::cerr]. *)
Theorem Pose_in_adjacent_frame
    (fuel : nat) (this : Link.LinkPrivate) (_frame : string) (env : Env)
    (gp : GraphPtr) (g : Graph.FrameGraph)
    (vs vd : Graph.Vertex) (rs rd : list Graph.Vertex) :
  _frame <> "" ->
  Link.frameGraph this = Some gp ->
  store env !! gp = Some g ->
  graph_ok g = true ->
  unit_weights g = true ->
  Graph.Vertices g (Link.name this) = vs :: rs ->
  Graph.Vertices g _frame = vd :: rd ->
  Graph.Id vd <> Graph.Id vs ->
  Graph.EId (Graph.EdgeFromVertices g (Graph.Id vs) (Graph.Id vd)) <> kNullId ->
  (enough_fuel g <= fuel)%nat ->
  let edge := Graph.EdgeFromVertices g (Graph.Id vs) (Graph.Id vd) in
  let inverse := (Graph.EData edge <? 0)%Z in
  exists env',
    Link.Pose fuel this _frame env
    = Returns
        (Matrix4d_Pose
           (compose inverse
              (compose inverse Matrix4d_Identity
                 (Graph.Data (Graph.VertexFromId g (Graph.Id vd))))
              (Matrix4d_of_Pose (Link.pose this))))
        env'
    /\ cerr env' = cerr env.
Proof. apply Pose_in_adjacent_frame_aux. Qed.

Lemma find_unique (l : list Graph.Vertex) (v : Graph.Vertex) :
  NoDup (List.map Graph.Id l) -> In v l ->
  List.find (fun w => Graph.Id w =? Graph.Id v) l = Some v.
Proof.
  induction l as [|a l IH]; intros Hnd Hin; [destruct Hin|].
  cbn [List.map] in Hnd. cbn [List.find].
  destruct (Graph.Id a =? Graph.Id v) eqn:Ha.
  - apply N.eqb_eq in Ha. destruct Hin as [->|Hin]; [reflexivity|].
    exfalso. apply NoDup_cons_1_1 in Hnd. apply Hnd. rewrite Ha.
    apply list_elem_of_In. apply in_map. exact Hin.
  - destruct Hin as [->|Hin]; [rewrite N.eqb_refl in Ha; discriminate|].
    apply IH; [eapply NoDup_cons_1_2; exact Hnd|exact Hin].
Qed.

Lemma filter_none {A} (f : A -> bool) (l : list A) :
  (forall x, In x l -> f x = false) -> List.filter f l = [].
Proof.
  induction l as [|a l IH]; intros Hall; cbn; [reflexivity|].
  rewrite (Hall a (or_introl eq_refl)). apply IH.
  intros x Hx. apply Hall. right. exact Hx.
Qed.

Lemma map_arrow_two (es : list Graph.DirectedEdge) (a1 a2 : VertexId * VertexId * Z) :
  List.map arrow es = [a1; a2] ->
  exists e1 e2, es = [e1; e2] /\ arrow e1 = a1 /\ arrow e2 = a2.
Proof.
  destruct es as [|e1 [|e2 [|e3 es]]]; cbn; try discriminate.
  intros Heq. injection Heq as <- <-. exists e1, e2. repeat split.
Qed.

(** X22: loading and then resolving.  A link registered by the block of
    [Link::Load] in a graph that has a vertex for its pose frame and none
    of its own name is resolved by [Link::Pose], called with the name of
    that pose frame, to the pose of: the identity matrix times the data of
    the pose frame's vertex times the matrix of the link's own pose.  The
    edge found is the one from the child to the parent, whose data is [1],
    so nothing is inverted. *)
Theorem Load_then_Pose_in_pose_frame
    (fuel : nat) (gp : GraphPtr) (this : Link.LinkPrivate) (env : Env)
    (g : Graph.FrameGraph) (pv : Graph.Vertex) (rest : list Graph.Vertex) :
  store env !! gp = Some g ->
  graph_ok g = true ->
  unit_weights g = true ->
  NoDup (List.map Graph.Id (Graph.vertices g)) ->
  Graph.nextVertexId g + 1 < kNullId ->
  Graph.nextEdgeId g + 2 < kNullId ->
  Link.poseFrame this <> "" ->
  Graph.Vertices g (Link.poseFrame this) = pv :: rest ->
  Graph.Vertices g (Link.name this) = [] ->
  (S (length (Graph.vertices g)) * S (length (Graph.vertices g)) + 2 <= fuel)%nat ->
  exists this' env1,
    Link.Load_frameGraph gp this env = Returns this' env1
    /\ exists env2,
         Link.Pose fuel this' (Link.poseFrame this) env1
         = Returns
             (Matrix4d_Pose
                (Matrix4d_mul (Matrix4d_mul Matrix4d_Identity (Graph.Data pv))
                              (Matrix4d_of_Pose (Link.pose this))))
             env2
         /\ cerr env2 = cerr env.
Proof.
  intros Hg Hok Hunit Hnd Hvroom Heroom Hframe Hparent Hfresh Hfuel.
  destruct (Load_frameGraph_run gp this env g pv rest Hg
              (graph_ok_vertices g Hok) (graph_ok_edges g Hok) Hvroom Heroom Hparent)
    as (g' & child & Hrun & Hverts & Hcname & _ & Hcfresh & Harrows).
  set (env1 := {| store := <[gp := g']> (store env); cout := cout env;
                  cerr := cerr env |}) in *.
  assert (store env1 !! gp = Some g') as Hg'.
  { eapply lookup_insert_same. exact Hg. }
  destruct (grows_Load_frameGraph gp this env _ env1 Hrun) as (_ & _ & _ & Hext).
  destruct (Hext g Hg) as (g'' & Hg'' & _ & [es Hedges] & Hok' & Hunit').
  rewrite Hg' in Hg''. injection Hg'' as <-.
  specialize (Hok' Hok). specialize (Hunit' Hunit).
  rewrite Hedges, map_app in Harrows. apply app_inv_head in Harrows.
  destruct (map_arrow_two es _ _ Harrows) as (e1 & e2 & -> & Ha1 & Ha2).
  unfold arrow in Ha1, Ha2. injection Ha1 as Ht1 Hh1 Hd1. injection Ha2 as Ht2 Hh2 Hd2.
  destruct (Vertices_member g _ pv rest Hparent) as (Hpin & Hpsome & Hpname).
  assert (Graph.Id pv <> Graph.Id child) as Hpc.
  { intros Heq. rewrite Heq, Hcfresh in Hpsome. destruct Hpsome as [w Hw]. discriminate. }
  assert (Graph.Id pv <> kNullId) as Hpn.
  { destruct (graph_ok_vertices g Hok pv Hpin) as [_ Hlt]. lia. }
  assert (Link.name this <> Link.poseFrame this) as Hnames.
  { intros Heq. rewrite Heq, Hparent in Hfresh. discriminate. }
  assert (Graph.Vertices g' (Link.name this) = [child]) as Hvs.
  { unfold Graph.Vertices in Hfresh |- *. rewrite Hverts, List.filter_app, Hfresh.
    cbn. rewrite Hcname, String.eqb_refl. reflexivity. }
  assert (Graph.Vertices g' (Link.poseFrame this) = pv :: rest) as Hvd.
  { unfold Graph.Vertices in Hparent |- *. rewrite Hverts, List.filter_app, Hparent.
    cbn [List.filter]. rewrite Hcname, (proj2 (String.eqb_neq _ _) Hnames).
    apply app_nil_r. }
  assert (Graph.VertexFromId g' (Graph.Id pv) = pv) as Hdata.
  { unfold Graph.VertexFromId, Graph.findVertex. rewrite Hverts.
    rewrite (find_app_Some _ _ _ pv (find_unique _ pv Hnd Hpin)). reflexivity. }
  assert (Graph.EdgeFromVertices g' (Graph.Id child) (Graph.Id pv) = e2) as Hedge.
  { unfold Graph.EdgeFromVertices, Graph.adjList.
    assert (is_Some (Graph.findVertex g' (Graph.Id child))) as [w ->].
    { apply findVertex_In. rewrite Hverts. apply in_or_app. right. left. reflexivity. }
    rewrite Hedges, List.filter_app.
    assert (List.filter
              (fun e => (Graph.Tail e =? Graph.Id child) || (Graph.Head e =? Graph.Id child))
              (Graph.edges g) = []) as ->.
    { apply filter_none. intros e He.
      destruct (edge_facts g Hok Hunit e He) as (Htl & Hhd & _).
      apply orb_false_iff. split; apply N.eqb_neq; intros Heq;
        rewrite Heq, Hcfresh in *; [destruct Htl|destruct Hhd]; discriminate. }
    cbn [app List.filter]. rewrite Hh1, Ht2, N.eqb_refl, orb_true_r. cbn [orb].
    cbn [List.find]. unfold Graph.From. rewrite Ht1, Ht2, Hh2, N.eqb_refl.
    rewrite (proj2 (N.eqb_neq (Graph.Id child) (Graph.Id pv))) by congruence.
    cbn [negb].
    rewrite (proj2 (N.eqb_neq kNullId (Graph.Id pv))) by congruence.
    rewrite N.eqb_refl. reflexivity. }
  exists (Link.set_frameGraph this (Some gp)), env1. split; [exact Hrun|].
  destruct (Pose_in_adjacent_frame_aux fuel (Link.set_frameGraph this (Some gp))
              (Link.poseFrame this) env1 gp g' child pv [] rest
              Hframe eq_refl Hg' Hok' Hunit' Hvs Hvd Hpc)
    as (env2 & Hpose & Hcerr).
  - rewrite Hedge. destruct (edge_facts g' Hok' Hunit' e2) as (_ & _ & _ & Hid & _).
    + rewrite Hedges. apply in_or_app. right. right. left. reflexivity.
    + exact Hid.
  - unfold enough_fuel. rewrite Hverts, length_app. cbn [length]. lia.
  - exists env2. split; [|exact Hcerr].
    rewrite Hpose, Hedge, Hd2, Hdata. reflexivity.
Qed.

(** X23: [Link::Pose] with a frame name has no defined result for a link
    without a frame graph (the null pointer is dereferenced), and none
    when the link's name or the frame name is carried by no vertex of the
    graph ([begin()] of an empty map is dereferenced). *)
Theorem Pose_of_unknown_name_undefined
    (fuel : nat) (this : Link.LinkPrivate) (_frame : string) (env : Env) :
  _frame <> "" ->
  (Link.frameGraph this = None -> Link.Pose fuel this _frame env = Undefined)
  /\ (forall gp g,
         Link.frameGraph this = Some gp ->
         store env !! gp = Some g ->
         Graph.Vertices g (Link.name this) = [] \/ Graph.Vertices g _frame = [] ->
         Link.Pose fuel this _frame env = Undefined).
Proof.
  intros Hframe. split.
  - intros Hnone. unfold Link.Pose. rewrite (proj2 (String.eqb_neq _ _) Hframe).
    unfold bind, deref. rewrite Hnone. reflexivity.
  - intros gp g Hgp Hg Hempty.
    rewrite (Pose_unfold fuel this _frame env gp g Hframe Hgp Hg).
    unfold Pose_on, Pose_rest. unfold bind at 1. unfold to_cout at 1.
    destruct (Graph.Vertices g (Link.name this)) as [|vs rs]; [reflexivity|].
    destruct Hempty as [Hempty|Hempty]; [discriminate|]. rewrite Hempty.
    reflexivity.
Qed.

End Walk.

(** * Examples *)

Section Examples.
Import Example.
#[local] Existing Instance Math.
#[local] Existing Instance ForLink.
#[local] Existing Instance ForModel.
#[local] Existing Instance ForRoot.

(** [link_a] and [graph_m] are what [Model::Load] makes of [model_doc]. *)
Example model_doc_loaded :
  option_map (fun r => (fst r, Model.links (snd r)))
    (returned (Model.Load (top model_doc) Model.Model env0))
  = Some ([], [link_a])
  /\ left_env (Model.Load (top model_doc) Model.Model env0) = Some env_m.
Proof. split; reflexivity. Qed.

(** From the vertex of [a] the edges of [graph_m] reach the vertex of [m]
    and nothing else. *)
Lemma reachable_from_a (v : VertexId) :
  reachable graph_m 3 v -> v = 3 \/ v = 0.
Proof.
  intros Hreach. induction Hreach as [|e Htail IH Hin].
  - left. reflexivity.
  - cbn in Hin.
    repeat (destruct Hin as [<-|Hin]; [cbn in *; lia|]).
    destruct Hin.
Qed.

(** C2: in the graph of [model_doc] the frame [f] is not connected to the
    link [a]: no path of edges leads from the vertex of [a] to the vertex of
    [f], and the search leaves that vertex at cost [MAX_D] without a previous
    vertex.  [Link::Pose] then takes its error case, writes a line to
    [std::cerr], and returns the pose of the identity matrix as if it were
    the pose of [a] in [f]: the caller gets a transform and no error. *)
Theorem Pose_of_unconnected_frame_returns_identity :
  ~ reachable graph_m 3 1
  /\ option_map (fun r => Graph.dist_find (fst r) 1) (Graph.Dijkstra 10 graph_m 3 1)
     = Some (Some (MAX_D, kNullId))
  /\ returned (Link.Pose 10 link_a "f" env_m)
     = Some (Matrix4d_Pose Matrix4d_Identity)
  /\ option_map cerr (left_env (Link.Pose 10 link_a "f" env_m))
     = Some [Str "ERRROR!"; Endl].
Proof.
  split.
  - intros Hreach. apply reachable_from_a in Hreach. lia.
  - repeat split; reflexivity.
Qed.

(** The claim of C1 fails: the call writes to [std::cout]; and over the
    same graph, with the same two names, the result changes with the pose
    stored in the link (after [SetPose]). *)
Lemma Pose_is_not_silent :
  ~ (forall (fuel : nat) (this : Link.LinkPrivate) (_frame : string)
            (env : Env) (p : Pose3d) (env' : Env),
        _frame <> "" ->
        Link.Pose fuel this _frame env = Returns p env' ->
        cout env' = cout env /\ cerr env' = cerr env)
  /\ returned (Link.Pose 10 link_a "m" env_m)
     <> returned (Link.Pose 10 (Link.SetPose link_a (1, 0, 0)%Z) "m" env_m).
Proof.
  split.
  - intros Hsilent.
    assert (option_map (fun e => length (cout e))
              (left_env (Link.Pose 10 link_a "m" env_m)) = Some 62%nat) as Hlen.
    { reflexivity. }
    destruct (Link.Pose 10 link_a "m" env_m) as [p env'| |] eqn:Hrun;
      [|discriminate Hlen|discriminate Hlen].
    destruct (Hsilent 10%nat link_a "m" env_m p env' ltac:(discriminate) Hrun)
      as [Hcout _].
    cbn in Hlen. rewrite Hcout in Hlen. discriminate Hlen.
  - assert (returned (Link.Pose 10 link_a "m" env_m) = Some (8, 0, 0)%Z) as ->
      by reflexivity.
    assert (returned (Link.Pose 10 (Link.SetPose link_a (1, 0, 0)%Z) "m" env_m)
            = Some (6, 0, 0)%Z) as -> by reflexivity.
    discriminate.
Qed.

Lemma Pose_depends_on_graph_and_writes_trace_witness :
  Link.Pose 10 link_a "m" env_m
  = after env_m (Pose_run 10 "a" (3, 0, 0)%Z graph_m "m")
  /\ (forall p env',
         Link.Pose 10 link_a "m" env_m = Returns p env' ->
         store env' = store env_m
         /\ exists more, cout env' = cout env_m ++ Pose_header "a" "m" ++ more).
Proof.
  apply (Pose_depends_on_graph_and_writes_trace 10 link_a "m" env_m 0%nat graph_m).
  - discriminate.
  - reflexivity.
  - reflexivity.
Defined.

Lemma Pose_in_own_frame_is_identity_witness :
  exists env', Link.Pose 10 link_a "a" env_m = Returns (0, 0, 0)%Z env'.
Proof.
  refine (Pose_in_own_frame_is_identity 9 link_a env_m 0%nat graph_m
            vertex_a [] _ _ _ _ _ _).
  - discriminate.
  - reflexivity.
  - reflexivity.
  - reflexivity.
  - reflexivity.
  - reflexivity.
Defined.

Lemma Load_version_mismatch_single_error_witness :
  exists msg r',
    Root.Load (top old_doc) Root.Root env0
    = Returns ([mkError ATTRIBUTE_INVALID msg], r') env0
    /\ Root.WorldCount r' = 0
    /\ (forall i, Root.WorldByIndex r' i = None)
    /\ Root.Model r' = None
    /\ Root.Light r' = None
    /\ Root.Actor r' = None
    /\ Root.Version r' = "".
Proof.
  apply (Load_version_mismatch_single_error
           {| element := old_doc; parent := None; following := [] |} "1.6" env0).
  - reflexivity.
  - discriminate.
Defined.

(** C5: the code does not do what the claim asks of it.  In [placed_doc]
    the model [m] is at the origin, the frame [f] is at [1 0 0] in the model
    and the link [a] is at [3 0 0] in [f]: the link is at [4 0 0] in the
    frame of the model, the root of its scope, and that is what
    [Link::Pose] returns for the frame name [m], by a path of the graph and
    without a word on [std::cerr].  For the empty frame name it returns
    [3 0 0], the pose as the document gives it, which is the pose in [f]:
    the link has kept [f] as its pose frame and [Link::Pose] does not read
    it.  [Model::Load] does not keep the frame at all: the pose of the model
    is given relative to [w], and the pose frame of the model, which
    [Model::Pose] uses for the empty name, is empty after the load. *)
Theorem Pose_of_empty_frame_is_not_in_scope_root :
  option_map (fun r => (fst r, Model.links (snd r), Model.PoseFrame (snd r)))
    (returned (Model.Load (top placed_doc) Model.Model env0))
  = Some ([], [link_p], "")
  /\ left_env (Model.Load (top placed_doc) Model.Model env0) = Some env_p
  /\ snd (loadPose (ref placed_doc) (Model.pose Model.Model) "") = "w"
  /\ Link.PoseFrame link_p = "f"
  /\ returned (Link.Pose 20 link_p "" env_p) = Some (3, 0, 0)%Z
  /\ returned (Link.Pose 20 link_p "m" env_p) = Some (4, 0, 0)%Z
  /\ option_map cerr (left_env (Link.Pose 20 link_p "m" env_p)) = Some []
  /\ returned (Link.Pose 20 link_p "" env_p)
     <> returned (Link.Pose 20 link_p "m" env_p).
Proof.
  assert (returned (Link.Pose 20 link_p "" env_p) = Some (3, 0, 0)%Z) as Hraw
    by reflexivity.
  assert (returned (Link.Pose 20 link_p "m" env_p) = Some (4, 0, 0)%Z) as Hwalk
    by reflexivity.
  split; [reflexivity|]. split; [reflexivity|]. split; [reflexivity|].
  split; [reflexivity|]. split; [exact Hraw|]. split; [exact Hwalk|].
  split; [reflexivity|].
  rewrite Hraw, Hwalk. discriminate.
Qed.


Lemma Load_wrong_tag_single_error_witness :
  (exists msg,
      Link.Load (Some joint_ref) (Some 0%nat) Link.Link env_m
      = Returns ([mkError ELEMENT_INCORRECT_TYPE msg],
                 Link.set_sdf Link.Link (Some joint_ref)) env_m)
  /\ (exists msg m',
         Model.Load (Some link_ref) Model.Model env_m
         = Returns ([mkError ELEMENT_INCORRECT_TYPE msg], m')
             {| store := [graph_m; Graph.empty]; cout := []; cerr := [] |}
         /\ Model.links m' = [] /\ Model.name m' = "").
Proof.
  destruct (Load_wrong_tag_single_error joint_ref link_ref (Some 0%nat)
              Link.Link Model.Model env_m)
    as [HL [[msg [m' [env' [Hrun [Hname [_ [Hlinks _]]]]]]] _]].
  - discriminate.
  - discriminate.
  - split; [exact HL|]. exists msg, m'.
    assert (left_env (Model.Load (Some link_ref) Model.Model env_m)
            = Some {| store := [graph_m; Graph.empty]; cout := []; cerr := [] |})
      as Henv by reflexivity.
    rewrite Hrun in Henv. injection Henv as <-. repeat split; assumption.
Defined.

(** The claim of C10 fails: the failed [Model::Load] has given the model a
    graph, which a new model does not have. *)
Lemma failed_Model_Load_sets_frameGraph :
  option_map (fun r => (List.map Code (fst r), Model.Element (snd r),
                        Model.frameGraph (snd r)))
    (returned (Model.Load (Some link_ref) Model.Model env0))
  = Some ([ELEMENT_INCORRECT_TYPE], Some link_ref, Some 0%nat)
  /\ Model.frameGraph Model.Model = None
  /\ option_map store (left_env (Model.Load (Some link_ref) Model.Model env0))
     = Some [Graph.empty]
  /\ option_map (fun r => Model.frameGraph (snd r))
       (returned (Model.Load (Some link_ref) Model.Model env0))
     <> Some (Model.frameGraph Model.Model).
Proof. repeat split; try reflexivity. discriminate. Qed.

Lemma failed_Load_keeps_all_but_element_and_graph_witness :
  (exists errors l',
      Link.Load (Some joint_ref) None Link.Link env0 = Returns (errors, l') env0
      /\ Link.Element l' = Some joint_ref
      /\ Link.name l' = ""
      /\ Link.frameGraph l' = None)
  /\ (exists errors m' env',
         Model.Load (Some link_ref) Model.Model env0 = Returns (errors, m') env'
         /\ Model.Element m' = Some link_ref
         /\ Model.name m' = ""
         /\ Model.links m' = []
         /\ exists gp, Model.frameGraph m' = Some gp
                       /\ store env' !! gp = Some Graph.empty).
Proof.
  destruct (failed_Load_keeps_all_but_element_and_graph joint_ref link_ref None
              Link.Link Model.Model env0)
    as [[errsL [l' HL]] [[errsM [m' [env' HM]]] _]].
  - discriminate.
  - discriminate.
  - split.
    + exists errsL, l'. intuition.
    + exists errsM, m', env'. cbn [Model.frameGraph Model.Model] in HM.
      destruct HM as [Hrun [Helem [Hname [_ [_ [_ [_ [_ [_ [Hlinks [_ Hgraph]]]]]]]]]]].
      destruct Hgraph as [gp [Hgp [_ Hstore]]].
      repeat split; try assumption. exists gp. split; assumption.
Defined.

(** The claim of C8 fails: the two worlds of [cycle_doc] have one name, and
    the errors of the load carry no [DUPLICATE_NAME], because the second
    world has errors of its own. *)
Lemma duplicate_world_with_errors_not_reported :
  option_map (fun r => (List.map World_Name (Root.worlds (snd r)),
                        hasCode DUPLICATE_NAME (fst r),
                        List.map Code (fst r)))
    (returned (Root.Load (top cycle_doc) Root.Root env0))
  = Some (["w"; "w"], false,
          [POSE_RELATIVE_TO_CYCLE; POSE_RELATIVE_TO_CYCLE; ELEMENT_INVALID]).
Proof. reflexivity. Qed.

Lemma duplicate_world_name_reported_witness :
  hasCode DUPLICATE_NAME (fst (Root.Load_worlds world_refs [] Root.Root)) = true
  /\ (forall n,
         Root.WorldNameExists
           (snd (Root.Load_worlds [world_ref 0; world_ref 1; world_ref 2] [] Root.Root)) n
         = Root.WorldNameExists
             (snd (Root.Load_worlds [world_ref 0; world_ref 1] [] Root.Root)) n)
  /\ (forall e, In e [world_ref 3] ->
                In (Root.loaded_world e)
                   (Root.worlds (snd (Root.Load_worlds world_refs [] Root.Root)))).
Proof.
  refine (duplicate_world_name_reported [] [world_ref 1] [world_ref 3]
            (world_ref 0) (world_ref 2) [] Root.Root _ _).
  - reflexivity.
  - reflexivity.
Defined.

Lemma ByIndex_bounds_checked_witness :
  Root.WorldByIndex (snd (Root.Load_worlds world_refs [] Root.Root)) 1
  = Some (Root.loaded_world (world_ref 1))
  /\ Root.WorldByIndex (snd (Root.Load_worlds world_refs [] Root.Root)) 4 = None.
Proof.
  split.
  - refine (proj2 (proj2 (proj2 (proj2 (proj2
              (ByIndex_bounds_checked Model.Model Link.Link Root.Root 1)))))
              world_refs (world_ref 1) _).
    reflexivity.
  - refine (proj1 (proj1 (proj2 (proj2 (proj2 (proj2
              (ByIndex_bounds_checked Model.Model Link.Link
                 (snd (Root.Load_worlds world_refs [] Root.Root)) 4)))))) _).
    discriminate.
Defined.

End Examples.

(** ** The further properties on the example documents *)

Section MoreExamples.
Import Example.
#[local] Existing Instance Math.
#[local] Existing Instance ForLink.
#[local] Existing Instance ForModel.
#[local] Existing Instance ForRoot.
#[local] Existing Instance ForParser.

(** A document without a version. *)
Lemma Load_without_version_single_error_witness :
  exists r',
    Root.Load (top unversioned_doc) Root.Root env0
    = Returns ([mkError ATTRIBUTE_MISSING "SDF does not have a version."], r') env0
    /\ Root.Element r' = top unversioned_doc
    /\ Root.Version r' = ""
    /\ Root.worlds r' = []
    /\ Root.Model r' = None
    /\ Root.Light r' = None
    /\ Root.Actor r' = None.
Proof.
  apply (Load_without_version_single_error (ref unversioned_doc) Root.Root env0).
  reflexivity.
Defined.

(** The four worlds of [worlds_doc]. *)
Lemma Load_stores_every_world_witness :
  let run := Root.Load (top worlds_doc) Root.Root env0 in
  Root.worlds (snd (value_of ([], Root.Root) run))
  = List.map Root.loaded_world (elementsFrom (GetElement (ref worlds_doc) "world") "world")
  /\ Root.WorldCount (snd (value_of ([], Root.Root) run)) = 4.
Proof.
  intros run.
  assert (Get_string (ref worlds_doc) "version" SDF_VERSION
          = (SDF_PROTOCOL_VERSION, true)) as Hversion by reflexivity.
  assert (Root.Load (Some (ref worlds_doc)) Root.Root env0
          = Returns (fst (value_of ([], Root.Root) run),
                     snd (value_of ([], Root.Root) run)) (env_after run)) as Hrun
    by reflexivity.
  destruct (Load_stores_every_world (ref worlds_doc) Root.Root _ _ env0 _
              Hversion Hrun) as (Hworlds & _ & Hcount & _).
  split; [exact Hworlds|exact Hcount].
Defined.

(** The two worlds of [distinct_doc]. *)
Lemma WorldNameExists_after_Load_witness :
  let run := Root.Load (top distinct_doc) Root.Root env0 in
  Root.WorldNameExists (snd (value_of ([], Root.Root) run)) "v" = true
  <-> Root.WorldNameExists Root.Root "v" = true
      \/ exists elem,
           In elem (elementsFrom (GetElement (ref distinct_doc) "world") "world")
           /\ World_Name (Root.loaded_world elem) = "v".
Proof.
  refine (WorldNameExists_after_Load (ref distinct_doc) Root.Root _ _ env0 _ "v" _ _).
  - reflexivity.
  - reflexivity.
Defined.


(** The two worlds of [distinct_doc]. *)
Lemma distinct_worlds_load_without_error_witness :
  exists r',
    Root.Load (top distinct_doc) Root.Root env0 = Returns ([], r') env0
    /\ Root.WorldCount r' = 2.
Proof.
  destruct (distinct_worlds_load_without_error (ref distinct_doc) Root.Root env0)
    as (r' & Hrun & Hcount).
  - reflexivity.
  - reflexivity.
  - reflexivity.
  - reflexivity.
  - intros e [<-|[<-|[]]]; reflexivity.
  - apply NoDup_cons_2.
    + intros Hin. apply list_elem_of_In in Hin. destruct Hin as [Heq|[]].
      discriminate Heq.
    + apply NoDup_cons_2; [|apply NoDup_nil_2].
      intros Hin. apply list_elem_of_In in Hin. destruct Hin.
  - intros e _. reflexivity.
  - exists r'. split; [exact Hrun|exact Hcount].
Defined.

(** The second world of [worlds_doc], whose frames form a cycle. *)
Lemma failed_world_is_reported_and_stored_witness :
  let run := Root.Load (top worlds_doc) Root.Root env0 in
  (exists pre post,
      fst (value_of ([], Root.Root) run)
      = pre ++ Root.world_errors (world_ref 1)
        ++ [mkError ELEMENT_INVALID "Failed to load a world."] ++ post)
  /\ In (Root.loaded_world (world_ref 1))
        (Root.worlds (snd (value_of ([], Root.Root) run)))
  /\ Root.WorldNameExists (snd (value_of ([], Root.Root) run))
       (World_Name (Root.loaded_world (world_ref 1))) = true.
Proof.
  refine (failed_world_is_reported_and_stored (ref worlds_doc) (world_ref 1)
            Root.Root _ _ env0 _ _ _ _ _).
  - reflexivity.
  - reflexivity.
  - right. left. reflexivity.
  - discriminate.
Defined.


(** A file that the parser does not know. *)
Lemma read_errors_come_first_witness :
  Root.Load_filename "missing.sdf" Root.Root env0
  = Returns ([mkError FILE_READ "Unable to read file:missing.sdf"], Root.Root) env0.
Proof.
  assert (fst (readFile "missing.sdf") = None) as Hnone by reflexivity.
  exact (proj1 (read_errors_come_first "missing.sdf" Root.Root env0) Hnone).
Defined.

(** The link of [model_doc], placed in the frame of its model. *)
Lemma Link_Load_places_link_in_parent_frame_witness :
  let run := Link.Load (Some link_elem) None Link.Link env0 in
  Link.Name (snd (value_of ([], Link.Link) run)) = "a"
  /\ Link.PoseFrame (snd (value_of ([], Link.Link) run)) = "m"
  /\ Link.Element (snd (value_of ([], Link.Link) run)) = Some link_elem.
Proof.
  intros run.
  assert (Link.Load (Some link_elem) None Link.Link env0
          = Returns (fst (value_of ([], Link.Link) run),
                     snd (value_of ([], Link.Link) run)) (env_after run)) as Hrun
    by reflexivity.
  destruct (Link_Load_places_link_in_parent_frame link_elem None Link.Link _ _ env0 _
              eq_refl Hrun) as (Hname & _ & Hframe & Helement).
  split; [exact Hname|]. split; [exact Hframe|exact Helement].
Defined.

(** A link without a name. *)
Lemma Link_Load_reports_name_and_inertia_witness :
  let run := Link.Load (Some nameless_link) None Link.Link env0 in
  fst (value_of ([], Link.Link) run)
  = [mkError ATTRIBUTE_MISSING "A link name is required, but the name is not set."]
  /\ Link.visuals (snd (value_of ([], Link.Link) run)) = []
  /\ Link.collisions (snd (value_of ([], Link.Link) run)) = [].
Proof.
  intros run.
  assert (Link.Load (Some nameless_link) None Link.Link env0
          = Returns (fst (value_of ([], Link.Link) run),
                     snd (value_of ([], Link.Link) run)) (env_after run)) as Hrun
    by reflexivity.
  destruct (Link_Load_reports_name_and_inertia nameless_link None Link.Link _ _ env0 _
              eq_refl Hrun)
    as (vis & coll & env1 & env2 & Hvis & Hcoll & _ & Hv & Hc & Herrors).
  injection Hvis as <- _. injection Hcoll as <- _.
  split; [exact Herrors|]. split; [exact Hv|exact Hc].
Defined.

(** The link of [model_doc], which has no [<inertial>]. *)
Lemma Link_Load_default_inertial_witness :
  let run := Link.Load (Some link_elem) None Link.Link env0 in
  Link.Inertial (snd (value_of ([], Link.Link) run))
  = Inertiald_SetPose
      (snd (Inertiald_SetMassMatrix Inertiald_default Double_1
              (Double_1, Double_1, Double_1) (Double_0, Double_0, Double_0)))
      Pose3d_Zero.
Proof.
  intros run.
  assert (Link.Load (Some link_elem) None Link.Link env0
          = Returns (fst (value_of ([], Link.Link) run),
                     snd (value_of ([], Link.Link) run)) (env_after run)) as Hrun
    by reflexivity.
  apply (proj1 (Link_Load_default_inertial link_elem None Link.Link _ _ env0 _
                  eq_refl Hrun)).
  reflexivity.
Defined.

(** The link of [model_doc] loaded without a graph. *)
Lemma Link_Load_without_graph_resolves_no_frame_witness :
  let run := Link.Load (Some link_elem) None Link.Link env0 in
  Link.Pose 10 (snd (value_of ([], Link.Link) run)) "m" env0 = Undefined
  /\ Link.Pose 10 (snd (value_of ([], Link.Link) run)) "" env0
     = Returns (3, 0, 0)%Z env0.
Proof.
  intros run.
  assert (Link.Load (Some link_elem) None Link.Link env0
          = Returns (fst (value_of ([], Link.Link) run),
                     snd (value_of ([], Link.Link) run)) (env_after run)) as Hrun
    by reflexivity.
  destruct (Link_Load_without_graph_resolves_no_frame link_elem Link.Link _ _ env0 _
              eq_refl eq_refl Hrun) as [Hundefined Hempty].
  split; [apply Hundefined; discriminate|apply Hempty].
Defined.

(** A link placed relative to a frame that the graph does not have. *)
Lemma Link_Load_unknown_pose_frame_undefined_witness :
  Link.Load (Some stray_link) (Some 0%nat) Link.Link env_g0 = Undefined.
Proof.
  apply (Link_Load_unknown_pose_frame_undefined stray_link 0%nat Link.Link env_g0
           graph_0).
  - reflexivity.
  - reflexivity.
  - reflexivity.
  - discriminate.
Defined.

(** The registration of [link_b] in [graph_0]. *)
Lemma loaders_only_extend_their_graph_witness :
  let run := Link.Load_frameGraph 0%nat link_b env_g0 in
  cout (env_after run) = []
  /\ exists g', store (env_after run) !! 0%nat = Some g' /\ extends graph_0 g'.
Proof.
  intros run.
  assert (Link.Load_frameGraph 0%nat link_b env_g0
          = Returns (value_of link_b run) (env_after run)) as Hrun by reflexivity.
  destruct (proj1 (loaders_only_extend_their_graph 0%nat) link_b env_g0 _ _ Hrun)
    as (Hcout & _ & _ & Hgraph).
  split; [exact Hcout|]. apply Hgraph. reflexivity.
Defined.

(** The two frames of [model_doc] over [graph_0]. *)
Lemma Load_frames_adds_a_vertex_per_frame_witness :
  exists g' verts,
    Model.Load_frames 0%nat frame_refs [] env_g0
    = Returns (combine verts ["f2"; "f"])
        {| store := [g']; cout := []; cerr := [] |}
    /\ Graph.vertices g' = Graph.vertices graph_0 ++ verts
    /\ Graph.edges g' = []
    /\ List.map Graph.Name verts = ["f"; "f2"].
Proof.
  destruct (Load_frames_adds_a_vertex_per_frame 0%nat frame_refs [] env_g0 graph_0)
    as (g' & verts & Hrun & Hverts & Hedges & _ & Hnames & _).
  - reflexivity.
  - reflexivity.
  - reflexivity.
  - exists g', verts. split; [exact Hrun|]. split; [exact Hverts|].
    split; [exact Hedges|exact Hnames].
Defined.

(** A pair whose pose frame has no vertex, after one that has. *)
Lemma Load_edges_unknown_frame_undefined_witness :
  Model.Load_edges 0%nat [(vertex_m, "m"); (vertex_m, "nowhere")] env_g0 = Undefined.
Proof.
  apply (Load_edges_unknown_frame_undefined 0%nat vertex_m "nowhere" []
           [(vertex_m, "m")] env_g0 graph_0).
  - reflexivity.
  - reflexivity.
Defined.

(** On [model_doc]. *)
Lemma Model_Load_reads_name_flags_and_pose_witness :
  exists errors m' env',
    Model.Load (top model_doc) Model.Model env0 = Returns (errors, m') env'
    /\ Model.Name m' = "m"
    /\ Model.Static m' = false
    /\ Model.AllowAutoDisable m' = true
    /\ Model.pose m' = (5, 0, 0)%Z.
Proof.
  assert (match Model.Load (top model_doc) Model.Model env0 with
          | Returns _ _ => true
          | _ => false
          end = true) as Hreturns by reflexivity.
  destruct (Model.Load (top model_doc) Model.Model env0) as [[errors m'] env'| |] eqn:Hrun;
    [|discriminate Hreturns..].
  destruct (Model_Load_reads_name_flags_and_pose (ref model_doc) Model.Model m' errors
              env0 env' eq_refl Hrun) as (Hname & Hstatic & _ & Hauto & _ & Hpose & _).
  exists errors, m', env'. split; [reflexivity|].
  split; [exact Hname|]. split; [exact Hstatic|]. split; [exact Hauto|exact Hpose].
Defined.

(** The link [a] and the frame of its model in [graph_m]. *)
Lemma Pose_returns_for_known_frames_witness :
  exists p env',
    Link.Pose 18 link_a "m" env_m = Returns p env' /\ store env' = store env_m.
Proof.
  apply (Pose_returns_for_known_frames 18%nat link_a "m" env_m 0%nat graph_m).
  - discriminate.
  - reflexivity.
  - reflexivity.
  - reflexivity.
  - reflexivity.
  - discriminate.
  - discriminate.
  - apply le_n.
Defined.

(** The link [a] and the frame of its model, which an edge joins. *)
Lemma Pose_errs_exactly_without_a_path_witness :
  exists p env', Link.Pose 18 link_a "m" env_m = Returns p env' /\ cerr env' = [].
Proof.
  destruct (Pose_errs_exactly_without_a_path 18%nat link_a "m" env_m 0%nat graph_m
              vertex_a vertex_m [] []) as [Hpath _].
  - discriminate.
  - reflexivity.
  - reflexivity.
  - reflexivity.
  - reflexivity.
  - reflexivity.
  - reflexivity.
  - discriminate.
  - apply le_n.
  - apply Hpath.
    apply (reach_edge graph_m 3 (Graph.mkEdge 3 0 1 1 1)); [apply reach_here|].
    right. left. reflexivity.
Defined.

(** The link [a] at [3 0 0] in the model at [5 0 0]. *)
Lemma Pose_in_adjacent_frame_witness :
  exists env',
    Link.Pose 18 link_a "m" env_m = Returns (8, 0, 0)%Z env' /\ cerr env' = [].
Proof.
  apply (Pose_in_adjacent_frame 18%nat link_a "m" env_m 0%nat graph_m
           vertex_a vertex_m [] []).
  - discriminate.
  - reflexivity.
  - reflexivity.
  - reflexivity.
  - reflexivity.
  - reflexivity.
  - reflexivity.
  - discriminate.
  - discriminate.
  - apply le_n.
Defined.

(** On [link_b] at [1 1 1], registered and then resolved in the model at
    [5 0 0]. *)
Lemma Load_then_Pose_in_pose_frame_witness :
  exists this' env1,
    Link.Load_frameGraph 0%nat link_b env_g0 = Returns this' env1
    /\ exists env2,
         Link.Pose 6 this' "m" env1 = Returns (6, 1, 1)%Z env2 /\ cerr env2 = [].
Proof.
  apply (Load_then_Pose_in_pose_frame 6%nat 0%nat link_b env_g0 graph_0 vertex_m []).
  - reflexivity.
  - reflexivity.
  - reflexivity.
  - apply NoDup_cons_2; [|apply NoDup_nil_2].
    intros Hin. apply list_elem_of_In in Hin. destruct Hin.
  - reflexivity.
  - reflexivity.
  - discriminate.
  - reflexivity.
  - reflexivity.
  - apply le_n.
Defined.

(** A frame name that [graph_m] does not have. *)
Lemma Pose_of_unknown_name_undefined_witness :
  Link.Pose 10 link_a "nowhere" env_m = Undefined.
Proof.
  assert ("nowhere" <> "") as Hframe by discriminate.
  apply (proj2 (Pose_of_unknown_name_undefined 10%nat link_a "nowhere" env_m Hframe)
           0%nat graph_m).
  - reflexivity.
  - reflexivity.
  - right. reflexivity.
Defined.

End MoreExamples.
